(** * Eagle Eye Tree: swimlane layout, drag propagation and link geometry

    A shallow embedding of the graph module (v3.4), the database module,
    the shared state module (v3.5, with its change markers) and the filter
    and spacing controls of the application module (v3.2) of the Eagle Eye
    Tree application.

    Conventions of the embedding.
    - A JavaScript number is an exact rational ([Q]); binary64 rounding,
      NaN and the infinities are outside the model, except in the module
      [Binary64], which evaluates [bezierPoint] with the rounding of
      every operation.  [Infinity] as the initial value of a running
      minimum is [None].
    - Database identifiers are integers ([Z]).  The node identifiers
      ['s_' + id], ['g_' + id] and ['root'] are the constructors of
      [NodeId]; the string forms are injective on integers.
    - An object held by reference in the node array is its index in the
      list; an in-place field write is a list update at that index.
    - Attributes of SVG elements that hold numbers ([data-labelpos],
      [data-sx], [transform], the coordinates of a path) are the numbers
      themselves: [String] followed by [parseFloat] is the identity on
      them. *)

From Stdlib Require Import QArith Qminmax Qround Qabs Qpower Lqa.
From Stdlib Require PrimFloat FloatOps SpecFloat.
From stdpp Require Import gmap strings list fin_maps sorting.

Local Open Scope Q_scope.

(** ** Geometry primitives (graph module) *)

Module Geometry.

Record Point := mkPoint { pt_x : Q; pt_y : Q }.

(** [bezierPath]: the four numbers that make up the path string
    [M sx,sy C mx,sy mx,ty tx,ty]. *)
Record BezierPath := mkPath {
  bp_sx : Q; bp_sy : Q; bp_mx : Q; bp_tx : Q; bp_ty : Q }.

Definition bezierPath (sx sy tx ty : Q) : BezierPath :=
  let mx := (sx + tx) / 2 in
  mkPath sx sy mx tx ty.

(** [bezierPoint(t, sx, sy, tx, ty)]: control points P0=(sx,sy),
    P1=(mx,sy), P2=(mx,ty), P3=(tx,ty) with mx=(sx+tx)/2.  This is the
    formula in exact arithmetic; [Binary64.bezierPoint] below is the
    value the program computes from it. *)
Definition bezierPoint (t sx sy tx ty : Q) : Point :=
  let mx := (sx + tx) / 2 in
  let u := 1 - t in
  let uu := u * u in
  let uuu := uu * u in
  let tt := t * t in
  let ttt := tt * t in
  {| pt_x := uuu * sx + 3 * uu * t * mx + 3 * u * tt * mx + ttt * tx;
     pt_y := uuu * sy + 3 * uu * t * sy + 3 * u * tt * ty + ttt * ty |}.

(** Squared distance from the curve point at [t] to the query point;
    the body of both sampling loops of [nearestT]. *)
Definition sqDist (t px py sx sy tx ty : Q) : Q :=
  let pt := bezierPoint t sx sy tx ty in
  let dx := pt_x pt - px in
  let dy := pt_y pt - py in
  dx * dx + dy * dy.

(** The loop variables [bestT] and [bestDist]; [None] is [Infinity]. *)
Record Best := mkBest { bestT : Q; bestDist : option Q }.

(** [dist < bestDist] *)
Definition lt_best (dist : Q) (bd : option Q) : bool :=
  match bd with
  | None => true
  | Some d => if Qlt_le_dec dist d then true else false
  end.

(** [if (dist < bestDist) { bestDist = dist; bestT = t; }] *)
Definition sample (px py sx sy tx ty : Q) (b : Best) (t : Q) : Best :=
  let dist := sqDist t px py sx sy tx ty in
  if lt_best dist (bestDist b) then mkBest t (Some dist) else b.

Definition of_nat (n : nat) : Q := inject_Z (Z.of_nat n).

(** [for (i = 0; i <= 40; i++) { t = i / 40; ... }] *)
Definition coarsePass (px py sx sy tx ty : Q) : Best :=
  fold_left (fun b i => sample px py sx sy tx ty b (of_nat i / 40))
            (seq 0 41) (mkBest (1 # 2) None).

(** [lo = max(0, bestT - 0.025)], [hi = min(1, bestT + 0.025)], then
    [for (j = 0; j <= 20; j++) { t2 = lo + (hi - lo) * j / 20; ... }] *)
Definition refinePass (px py sx sy tx ty : Q) (b : Best) : Best :=
  let lo := Qmax 0 (bestT b - (25 # 1000)) in
  let hi := Qmin 1 (bestT b + (25 # 1000)) in
  fold_left (fun b' j => sample px py sx sy tx ty b' (lo + (hi - lo) * of_nat j / 20))
            (seq 0 21) b.

(** [Math.round]: the nearest integer, a tie going up. *)
Definition mathRound (x : Q) : Z := Qfloor (x + (1 # 2)).

(** [Math.round(bestT * 1000) / 1000], in exact arithmetic: where
    [bestT * 1000] is within a binary64 rounding error of a half-integer
    the program can return the neighbouring multiple of 0.001. *)
Definition round3 (t : Q) : Q := inject_Z (mathRound (t * 1000)) / 1000.

Definition nearestT (px py sx sy tx ty : Q) : Q :=
  let coarse := coarsePass px py sx sy tx ty in
  let fine := refinePass px py sx sy tx ty coarse in
  round3 (bestT fine).

End Geometry.

Import Geometry.

(** ** Binary64 arithmetic (the numbers of the program) *)

Module Binary64.

(** A number of the program is an IEEE 754 binary64 value, and every
    arithmetic operation returns the exact result rounded to the nearest
    binary64 value, a tie going to the even significand.  A finite value
    is the rational it denotes; the two zeros are one number. *)

Definition pow2 (e : Z) : Q := 2 ^ e.

(** The nearest integer, a tie going to the even one. *)
Definition nearestEven (x : Q) : Z :=
  let f := Qfloor x in
  match Qcompare (x - inject_Z f) (1 # 2) with
  | Lt => f
  | Gt => (f + 1)%Z
  | Eq => if Z.even f then f else (f + 1)%Z
  end.

(** The binade of a number other than zero: the [e] with
    [2^e <= |x| < 2^(e+1)]. *)
Definition binade (x : Q) : Z :=
  let e0 := (Z.log2 (Z.abs (Qnum x)) - Z.log2 (Zpos (Qden x)))%Z in
  if Qle_bool (pow2 e0) (Qabs x) then e0 else (e0 - 1)%Z.

(** The exponent of the unit in the last place: 53 significant bits in
    the binade, and nothing finer than [2^-1074]. *)
Definition ulpExp (x : Q) : Z := Z.max (binade x - 52) (-1074).

(** Rounding to the nearest multiple of the unit in the last place. *)
Definition round64 (x : Q) : Q :=
  let x := Qred x in
  if Qeq_bool x 0 then 0
  else
    let q := ulpExp x in
    Qred (inject_Z (nearestEven (x / pow2 q)) * pow2 q).

(** Half a unit in the last place of 1, the relative rounding error;
    half the smallest positive value, the absolute one; and the unit in
    the last place of 1. *)
Definition eps : Q := 1 # 9007199254740992.
Definition eta : Q := pow2 (-1075).
Definition u52 : Q := 1 # 4503599627370496.

(** The result of an operation whose exact value is [x]: the rounded
    value, or [None] when that is [2^1024] or more in magnitude, where
    the program has an infinity.  Once an operand is an infinity or NaN,
    sums and products are an infinity or NaN as well, so [None] is
    handed on. *)
Definition fl (x : Q) : option Q :=
  let r := round64 x in
  if Qle_bool (pow2 1024) (Qabs r) then None else Some r.

(** [uuu * p0 + 3 * uu * t * p1 + 3 * u * tt * p2 + ttt * p3], the
    shape of both coordinates of [bezierPoint], operation by
    operation from left to right. *)
Definition cubic (t u uu uuu tt ttt p0 p1 p2 p3 : Q) : option Q :=
  a ← fl (uuu * p0);
  b1 ← fl (3 * uu); b2 ← fl (b1 * t); b ← fl (b2 * p1);
  c1 ← fl (3 * u); c2 ← fl (c1 * tt); c ← fl (c2 * p2);
  d ← fl (ttt * p3);
  ab ← fl (a + b); abc ← fl (ab + c); fl (abc + d).

(** [bezierPoint(t, sx, sy, tx, ty)] as the program computes it; [None]
    when a coordinate is not a finite number. *)
Definition bezierPoint (t sx sy tx ty : Q) : option Point :=
  s ← fl (sx + tx); mx ← fl (s / 2);
  u ← fl (1 - t);
  uu ← fl (u * u); uuu ← fl (uu * u);
  tt ← fl (t * t); ttt ← fl (tt * t);
  x ← cubic t u uu uuu tt ttt sx mx mx tx;
  y ← cubic t u uu uuu tt ttt sy sy ty ty;
  Some (mkPoint x y).

(** The kernel's binary64 numbers, for comparison: the rational a
    kernel float denotes ([None] for an infinity or NaN), and the kernel
    float with a given significand and exponent. *)
Definition ofFloat (f : PrimFloat.float) : option Q :=
  match FloatOps.Prim2SF f with
  | SpecFloat.S754_zero _ => Some 0
  | SpecFloat.S754_finite s m e =>
      Some (Qred ((if s then -1 else 1) * inject_Z (Zpos m) * pow2 e))
  | _ => None
  end.

Definition toFloat (v : Z * Z) : PrimFloat.float :=
  FloatOps.SF2Prim
    (match fst v with
     | Z0 => SpecFloat.S754_zero false
     | Zpos p => SpecFloat.S754_finite false p (snd v)
     | Zneg p => SpecFloat.S754_finite true p (snd v)
     end).

Definition valueOf (v : Z * Z) : Q := inject_Z (fst v) * pow2 (snd v).

(** The expression of a coordinate of [bezierPoint] on kernel floats. *)
Definition kernelCubic (t p0 p1 p2 p3 : PrimFloat.float) : PrimFloat.float :=
  let three := toFloat (3, 0)%Z in
  let u := PrimFloat.sub (toFloat (1, 0)%Z) t in
  let uu := PrimFloat.mul u u in
  let uuu := PrimFloat.mul uu u in
  let tt := PrimFloat.mul t t in
  let ttt := PrimFloat.mul tt t in
  PrimFloat.add
    (PrimFloat.add
       (PrimFloat.add (PrimFloat.mul uuu p0)
                      (PrimFloat.mul (PrimFloat.mul (PrimFloat.mul three uu) t) p1))
       (PrimFloat.mul (PrimFloat.mul (PrimFloat.mul three u) tt) p2))
    (PrimFloat.mul ttt p3).

End Binary64.

(** ** Shared state (state module) and configuration constants *)

Module State.

(** Rows of the data store, with the columns the layout, the drag
    handler and the link helper read; the columns that only style the
    drawing (color, icon, type, change marker) are left out. *)
Record Assy := mkAssy { assy_id : Z; assy_tag : string }.

Record Group := mkGroup {
  g_id : Z; g_label : string; g_sort_order : option Z }.

(** A step row; [s_x], [s_y] and [s_label_position] are [None] when the
    column is null. *)
Record Step := mkStep {
  s_id : Z; s_group_id : Z; s_label : string; s_sort_order : option Z;
  s_x : option Q; s_y : option Q;
  s_seq_tag : option string; s_label_position : option Q }.

Record Part := mkPart {
  p_id : Z; p_step_id : Z; p_pn : string; p_qty : Z; p_sort_order : option Z }.

Record Fastener := mkFastener {
  f_id : Z; f_step_id : Z; f_pn : option string; f_qty : option Z;
  f_loctite : option string; f_torque : option string }.

(** The exported variables of the state module that the graph module
    reads or writes. *)
Record State := mkState {
  assy : Assy;
  groups : list Group;
  steps : list Step;
  parts : list Part;
  fasts : list Fastener;
  showPartNodes : bool;
  showFastenerLabels : bool;
  layoutDirty : bool;
  gap1 : Q;
  gap2 : Q;
  visibleGroupIds : option (gset Z) }.

Definition setLayoutDirty (v : bool) (st : State) : State :=
  mkState (assy st) (groups st) (steps st) (parts st) (fasts st)
          (showPartNodes st) (showFastenerLabels st) v
          (gap1 st) (gap2 st) (visibleGroupIds st).

Definition NODE_WIDTH : Q := 150.
Definition NODE_HEIGHT : Q := 38.
Definition PART_NODE_WIDTH : Q := 120.
Definition VERTICAL_GAP : Q := 80.

(** [(a.sort_order || 0)] *)
Definition sortKey (o : option Z) : Z := default 0%Z o.

(** [Array.prototype.sort] with the comparator
    [(a.sort_order || 0) - (b.sort_order || 0)].  The sort is stable, and
    for this comparator the stable sorted arrangement is unique; it is
    computed here by insertion from the right. *)
Fixpoint insertBy {A} (key : A -> Z) (x : A) (l : list A) : list A :=
  match l with
  | [] => [x]
  | y :: r => if (key x <=? key y)%Z then x :: y :: r else y :: insertBy key x r
  end.

Definition jsSort {A} (key : A -> Z) (l : list A) : list A :=
  foldr (insertBy key) [] l.

(** [arr.forEach(function (a, i) { ... })] threading the variables the
    callback assigns. *)
Fixpoint forEachFrom {A T} (f : T -> A -> nat -> T) (l : list A) (i : nat) (s : T) : T :=
  match l with
  | [] => s
  | a :: r => forEachFrom f r (S i) (f s a i)
  end.

Definition forEachI {A T} (f : T -> A -> nat -> T) (l : list A) (s : T) : T :=
  forEachFrom f l 0 s.

(** [Math.min.apply(null, ys)] and [Math.max.apply(null, ys)] on a
    non-empty array, and the midpoint the layout and the drag handler
    compute from them behind their [ys.length] test. *)
Definition mathMin (y : Q) (ys : list Q) : Q := fold_left Qmin ys y.
Definition mathMax (y : Q) (ys : list Q) : Q := fold_left Qmax ys y.

Definition midpoint (ys : list Q) : option Q :=
  match ys with
  | [] => None
  | y :: r => Some ((mathMin y r + mathMax y r) / 2)
  end.

End State.

Import State.

(** ** Swimlane layout (graph module) *)

Module Layout.

Inductive NodeId := SId (id : Z) | GId (id : Z) | RootId.

(** The flags [isStep], [isGroup], [isRoot]: every node literal of the
    layout sets exactly one of them. *)
Inductive NodeKind := KStep | KGroup | KRoot.

#[global] Instance NodeId_eq_dec : EqDecision NodeId.
Proof. solve_decision. Defined.
#[global] Instance NodeKind_eq_dec : EqDecision NodeKind.
Proof. solve_decision. Defined.

(** A node of the table.  The fields that only style the drawing
    ([type], [shape], [color], [groupLabel], [ecn], [isSelected], [icon])
    are left out; a count that a node literal does not have is 0. *)
Record Node := mkNode {
  n_id : NodeId;
  n_dbId : option Z;
  n_x : Q;
  n_y : Q;
  n_w : Q;
  n_h : Q;
  n_label : string;
  n_level : nat;
  n_groupId : option Z;
  n_seq : nat;
  n_seqTag : option string;
  n_kind : NodeKind;
  n_partCount : nat;
  n_fastCount : nat;
  n_stepCount : nat;
  n_swimIdx : nat }.

Inductive LinkType := StepToGroup | GroupToRoot.

#[global] Instance LinkType_eq_dec : EqDecision LinkType.
Proof. solve_decision. Defined.

(** A derived relationship record; [lk_labelPos] is [None] on the
    group-to-root literal, which has no such field. *)
Record Link := mkLink {
  lk_sourceId : NodeId;
  lk_targetId : NodeId;
  lk_type : LinkType;
  lk_stepDbId : option Z;
  lk_labelPos : option Q;
  lk_fastener_pn : option string;
  lk_qty : Z;
  lk_loctite : option string;
  lk_torque : option string;
  lk_totalFasteners : nat }.

Record Swimlane := mkSwimlane {
  sl_grp : Group; sl_gi : nat; sl_startY : Q; sl_height : Q; sl_stepCount : nat }.

Record LayoutResult := mkLayout {
  nodes : list Node;
  links : list Link;
  swimlanes : list Swimlane;
  sortedGroups : list Group;
  stepColX : Q;
  groupColX : Q;
  rootColX : Q;
  dim_width : Q;
  dim_height : Q }.

Definition topPad : Q := 80.
Definition headerH : Q := 40.
Definition swimPadY : Q := 30.
Definition swimGap : Q := 14.
Definition stepGapY : Q := VERTICAL_GAP.
Definition partZone : Q := 170.
Definition stepColumnX : Q := partZone + 50.

(** [s || null] on a string: the empty string is falsy. *)
Definition truthyStr (o : option string) : option string :=
  match o with
  | Some s => if decide (s = EmptyString) then None else Some s
  | None => None
  end.

(** [steps.filter(s => s.group_id === grp.id).sort(by sort_order)] *)
Definition groupSteps (st : State) (grp : Group) : list Step :=
  jsSort (fun s => sortKey (s_sort_order s))
         (filter (fun s => s_group_id s = g_id grp) (steps st)).

Definition partsOf (st : State) (stepId : Z) : list Part :=
  filter (fun p => p_step_id p = stepId) (parts st).

Definition fastsOf (st : State) (stepId : Z) : list Fastener :=
  filter (fun f => f_step_id f = stepId) (fasts st).

(** The variables the [filteredGroups.forEach] callback assigns. *)
Record Acc := mkAcc {
  allNodes : list Node;
  allLinks : list Link;
  lanes : list Swimlane;
  curY : Q }.

Definition stepNode (st : State) (grp : Group) (gi : nat) (swimStartY : Q)
    (step : Step) (si : nat) : Node :=
  let x := stepColumnX in
  let y := match s_y step with
           | Some y => y
           | None => swimStartY + swimPadY + of_nat si * stepGapY
           end in
  mkNode (SId (s_id step)) (Some (s_id step)) x y NODE_WIDTH NODE_HEIGHT
         (s_label step) gi (Some (g_id grp)) (si + 1) (truthyStr (s_seq_tag step)) KStep
         (length (partsOf st (s_id step))) (length (fastsOf st (s_id step)))
         0 gi.

Definition groupNode (st : State) (nGroups : nat) (grp : Group) (gi : nat)
    (groupY : Q) (numSteps : nat) : Node :=
  mkNode (GId (g_id grp)) None (stepColumnX + gap1 st) groupY
         (NODE_WIDTH + 20) (NODE_HEIGHT + 8)
         (g_label grp) nGroups (Some (g_id grp)) (gi + 1) None KGroup
         0 0 numSteps gi.

Definition stepLink (st : State) (grp : Group) (step : Step) : Link :=
  let sf := fastsOf st (s_id step) in
  let first := head sf in
  mkLink (SId (s_id step)) (GId (g_id grp)) StepToGroup (Some (s_id step))
         (Some (default (1 # 2) (s_label_position step)))
         (truthyStr (first ≫= f_pn))
         (default 0%Z (first ≫= f_qty))
         (truthyStr (first ≫= f_loctite))
         (truthyStr (first ≫= f_torque))
         (length sf).

Definition rootLink (grp : Group) : Link :=
  mkLink (GId (g_id grp)) RootId GroupToRoot None None None 0%Z None None 0.

(** [contentH + swimPadY * 2], with
    [contentH = max(max(numSteps, ceil(maxParts * 0.7)) * stepGapY, stepGapY * 1.5)]. *)
Definition swimHeight (st : State) (gSteps : list Step) : Q :=
  let numSteps := length gSteps in
  let maxParts :=
    fold_left (fun mx s => Nat.max mx (length (partsOf st (s_id s)))) gSteps 0%nat in
  let contentH :=
    Qmax (inject_Z (Z.max (Z.of_nat numSteps) (Qceiling (of_nat maxParts * (7 # 10))))
          * stepGapY)
         (stepGapY * (3 # 2)) in
  contentH + swimPadY * 2.

(** [gSteps.forEach(function (step, si) { allNodes.push({...}); })] *)
Definition pushStepNodes (st : State) (grp : Group) (gi : nat) (swimStartY : Q)
    (gSteps : list Step) (ns : list Node) : list Node :=
  forEachI (fun ns step si => ns ++ [stepNode st grp gi swimStartY step si]) gSteps ns.

(** [gSteps.map(s => { sn = allNodes.find(n => n.id === 's_' + s.id);
    return sn ? sn.y : 0; })] *)
Definition stepYsOf (gSteps : list Step) (ns : list Node) : list Q :=
  (fun s => match list_find (fun n => n_id n = SId (s_id s)) ns with
            | Some (_, sn) => n_y sn
            | None => 0
            end) <$> gSteps.

(** [stepYs.length ? (min + max) / 2 : swimStartY + swimH / 2] *)
Definition groupYOf (stepYs : list Q) (swimStartY swimH : Q) : Q :=
  match midpoint stepYs with
  | Some m => m
  | None => swimStartY + swimH / 2
  end.

(** The body of [filteredGroups.forEach(function (grp, gi) { ... })]. *)
Definition layoutGroup (st : State) (nGroups : nat) (acc : Acc) (grp : Group) (gi : nat) : Acc :=
  let gSteps := groupSteps st grp in
  let numSteps := length gSteps in
  let swimH := swimHeight st gSteps in
  let swimStartY := curY acc in
  let nodes1 := pushStepNodes st grp gi swimStartY gSteps (allNodes acc) in
  let stepYs := stepYsOf gSteps nodes1 in
  let groupY := groupYOf stepYs swimStartY swimH in
  let nodes2 := nodes1 ++ [groupNode st nGroups grp gi groupY numSteps] in
  let links1 := fold_left (fun ls step => ls ++ [stepLink st grp step]) gSteps (allLinks acc) in
  let links2 := links1 ++ [rootLink grp] in
  mkAcc nodes2 links2
        (lanes acc ++ [mkSwimlane grp gi swimStartY swimH numSteps])
        (swimStartY + swimH + swimGap).

Definition rootNode (st : State) (nGroups : nat) (rootY : Q) : Node :=
  mkNode RootId None (stepColumnX + gap1 st + gap2 st) rootY
         (NODE_WIDTH + 40) (NODE_HEIGHT + 16)
         (if decide (assy_tag (assy st) = EmptyString) then "HBD_assy"%string
          else assy_tag (assy st))
         (nGroups + 1) None 0 None KRoot 0 0 0 0.

Definition filterGroups (st : State) : list Group :=
  let sorted := jsSort (fun g => sortKey (g_sort_order g)) (groups st) in
  match visibleGroupIds st with
  | Some ids => filter (fun g => g_id g ∈ ids) sorted
  | None => sorted
  end.

(** [calculateTreeLayout()]; [None] is the [null] result. *)
Definition calculateTreeLayout (st : State) : option LayoutResult :=
  if decide (groups st = [] \/ steps st = []) then None
  else
    let filteredGroups := filterGroups st in
    if decide (filteredGroups = []) then None
    else
      let stepColX := stepColumnX in
      let groupColX := stepColX + gap1 st in
      let rootColX := groupColX + gap2 st in
      let n := length filteredGroups in
      let acc := forEachI (layoutGroup st n) filteredGroups
                          (mkAcc [] [] [] (topPad + headerH)) in
      let groupYs := n_y <$> filter (fun nd => n_kind nd = KGroup) (allNodes acc) in
      let rootY := match midpoint groupYs with
                   | Some m => m
                   | None => topPad + headerH
                   end in
      Some (mkLayout (allNodes acc ++ [rootNode st n rootY]) (allLinks acc)
                     (lanes acc) filteredGroups
                     stepColX groupColX rootColX
                     (rootColX + 250) (curY acc + 50)).

End Layout.

Import Layout.

(** ** Position saving and link generation (database module) *)

Module Database.

(** [savePositions(posMap)].  The data store is outside the program:
    [rowSaved id x y] tells whether the update of row [id] came back
    without an error. *)
Definition savePositions (rowSaved : Z -> Q -> Q -> bool)
    (posMap : gmap Z (Q * Q)) : nat :=
  fold_left (fun count '(id, (x, y)) => if rowSaved id x y then S count else count)
            (map_to_list posMap) 0%nat.

Record StepLink := mkStepLink {
  assembly_id : Z; parent_step_id : Z; child_step_id : Z }.

(** The key [`${a}-${b}`] of the [seen] set; on integer identifiers the
    string determines the pair. *)
Definition key (a b : Z) : Z * Z := (a, b).

(** The variables [links] and [seen] of [autoGenerateLinks]. *)
Record Gen := mkGen { gen_links : list StepLink; gen_seen : gset (Z * Z) }.

(** [if (!seen.has(k)) { links.push({...}); seen.add(k); }] *)
Definition pushLink (assemblyId a b : Z) (g : Gen) : Gen :=
  let k := key a b in
  if decide (k ∈ gen_seen g) then g
  else mkGen (gen_links g ++ [mkStepLink assemblyId a b]) ({[k]} ∪ gen_seen g).

(** [for (let i = 0; i < gSteps.length - 1; i++)] over the pairs
    [gSteps[i]], [gSteps[i + 1]]. *)
Fixpoint chainSteps (assemblyId : Z) (gSteps : list Step) (g : Gen) : Gen :=
  match gSteps with
  | a :: (b :: _) as r => chainSteps assemblyId r (pushLink assemblyId (s_id a) (s_id b) g)
  | _ => g
  end.

Definition stepsOfGroup (steps : list Step) (grp : Group) : list Step :=
  jsSort (fun s => sortKey (s_sort_order s))
         (filter (fun s => s_group_id s = g_id grp) steps).

(** The body of [sortedGroups.forEach((grp, gi) => ...)]; [rest] holds
    the groups after [grp], so [nextGrp] is its head when
    [gi < sortedGroups.length - 1]. *)
Definition bridgeGroups (assemblyId : Z) (steps : list Step)
    (gSteps : list Step) (rest : list Group) (g : Gen) : Gen :=
  match rest with
  | nextGrp :: _ =>
      let nextSteps := stepsOfGroup steps nextGrp in
      match last gSteps, head nextSteps with
      | Some lastStep, Some firstNext =>
          pushLink assemblyId (s_id lastStep) (s_id firstNext) g
      | _, _ => g
      end
  | [] => g
  end.

Fixpoint generate (assemblyId : Z) (steps : list Step) (gs : list Group) (g : Gen) : Gen :=
  match gs with
  | [] => g
  | grp :: rest =>
      let gSteps := stepsOfGroup steps grp in
      let g1 := chainSteps assemblyId gSteps g in
      let g2 := bridgeGroups assemblyId steps gSteps rest g1 in
      generate assemblyId steps rest g2
  end.

Definition autoGenerateLinks {L} (assemblyId : Z) (groups : list Group)
    (steps : list Step) (existingLinks : list L) : list StepLink :=
  match existingLinks with
  | _ :: _ => []
  | [] =>
      let sortedGroups := jsSort (fun g => sortKey (g_sort_order g)) groups in
      gen_links (generate assemblyId steps sortedGroups (mkGen [] ∅))
  end.

End Database.

Import Database.

(** ** Rendering and the drag handler (graph module) *)

Module Graph.

(** One line of a fastener label: the primary part number with its
    quantity when above one, the thread-locker, the torque, the overflow
    count. *)
Inductive LabelLine :=
| LPrimary (pn : string) (qty : option Z)
| LLoctite (code : string)
| LTorque (spec : string)
| LMore (n : nat).

(** The [g.fast-label] element: its data attributes and its transform. *)
Record FastLabel := mkFastLabel {
  fl_stepid : option Z;
  fl_labelpos : Q;
  fl_sx : Q; fl_sy : Q; fl_tx : Q; fl_ty : Q;
  fl_lines : list LabelLine;
  fl_transform : Point }.

(** The [g.link-group] element with its path and optional label. *)
Record LinkGroup := mkLinkGroup {
  lg_src : NodeId;
  lg_tgt : NodeId;
  lg_path : BezierPath;
  lg_label : option FastLabel }.

(** The path of a part connector:
    [M mx,my C c1x,c1y c2x,c2y ex,ey]. *)
Record PartPath := mkPartPath {
  pp_mx : Q; pp_my : Q; pp_c1x : Q; pp_c1y : Q;
  pp_c2x : Q; pp_c2y : Q; pp_ex : Q; pp_ey : Q }.

Record PartLink := mkPartLink { pl_stepid : option Z; pl_d : PartPath }.

Record PartHex := mkPartHex {
  ph_stepid : option Z; ph_partid : Z; ph_offsety : Q; ph_transform : Point }.

(** What the graph module keeps between events: the module variable
    [_allNodes], [window._eagleEyePositions] ([None] while undefined) and
    the link and part layers of the SVG.  The transform of a node element
    is always written from the x and y of its node object, in the
    statement after the assignment, so the node table stands for it. *)
Record View := mkView {
  _allNodes : list Node;
  _eagleEyePositions : option (gmap Z (Q * Q));
  linkLayer : list LinkGroup;
  partLinks : list PartLink;
  partHexes : list PartHex }.

Record App := mkApp { st : State; view : View }.

(** [nodes.find(n => n.id === id)]: the first match. *)
Definition findNode (id : NodeId) (ns : list Node) : option Node :=
  snd <$> list_find (fun n => n_id n = id) ns.

(** The scan of the drag handler,
    [for (...) if (_allNodes[i].id === id) found = _allNodes[i]]:
    the last match. *)
Definition scanNode (id : NodeId) (ns : list Node) : option Node :=
  last (filter (fun n => n_id n = id) ns).

Definition labelLines (lk : Link) : list LabelLine :=
  match truthyStr (lk_fastener_pn lk) with
  | Some pn => [LPrimary pn (if (1 <? lk_qty lk)%Z then Some (lk_qty lk) else None)]
  | None => []
  end ++
  match truthyStr (lk_loctite lk) with
  | Some c => if decide (c = "---"%string) then [] else [LLoctite c]
  | None => []
  end ++
  match truthyStr (lk_torque lk) with
  | Some q => if decide (q = "---"%string) then [] else [LTorque q]
  | None => []
  end ++
  (if (1 <? lk_totalFasteners lk)%nat then [LMore (lk_totalFasteners lk - 1)] else []).

(** The label of a link at render time: only for a step-to-group link
    with at least one fastener and at least one line, anchored at
    [bezierPoint(lk.labelPos, ...)]. *)
Definition renderLabel (s : State) (lk : Link) (sx sy tx ty : Q) : option FastLabel :=
  if showFastenerLabels s && bool_decide (lk_type lk = StepToGroup)
     && (0 <? lk_totalFasteners lk)%nat
  then
    match lk_labelPos lk, labelLines lk with
    | Some t, (_ :: _) as lines =>
        Some (mkFastLabel (lk_stepDbId lk) t sx sy tx ty lines
                          (bezierPoint t sx sy tx ty))
    | _, _ => None
    end
  else None.

(** The body of [links.forEach] in [renderGraph]; [None] when an endpoint
    is not in the node table. *)
Definition renderLink (s : State) (ns : list Node) (lk : Link) : option LinkGroup :=
  match findNode (lk_sourceId lk) ns, findNode (lk_targetId lk) ns with
  | Some src, Some tgt =>
      let sx := n_x src + n_w src / 2 in
      let sy := n_y src in
      let tx := n_x tgt - n_w tgt / 2 in
      let ty := n_y tgt in
      Some (mkLinkGroup (lk_sourceId lk) (lk_targetId lk)
                        (bezierPath sx sy tx ty)
                        (renderLabel s lk sx sy tx ty))
  | _, _ => None
  end.

(** Parts of a step in sort order, as both the renderer and the drag
    handler compute them from [state.parts]. *)
Definition sortedParts (s : State) (dbId : option Z) : list Part :=
  jsSort (fun p => sortKey (p_sort_order p))
         (filter (fun p => Some (p_step_id p) = dbId) (parts s)).

Definition partSpacing : Q := 34.

Definition partX (nd : Node) : Q := n_x nd - n_w nd / 2 - PART_NODE_WIDTH / 2 - 30.

Definition totalHeight (sp : list Part) : Q :=
  inject_Z (Z.of_nat (length sp) - 1) * partSpacing.

Definition partPath (nd : Node) (px py : Q) : PartPath :=
  mkPartPath (px + PART_NODE_WIDTH / 2) py
             (px + PART_NODE_WIDTH / 2 + 15) py
             (n_x nd - n_w nd / 2 - 15) (n_y nd)
             (n_x nd - n_w nd / 2) (n_y nd).

(** The part layer of one step node at render time. *)
Definition renderParts (s : State) (nd : Node) : list (PartLink * PartHex) :=
  let sp := sortedParts s (n_dbId nd) in
  let totalH := totalHeight sp in
  imap (fun pi p =>
          let px := partX nd in
          let py := n_y nd - totalH / 2 + of_nat pi * partSpacing in
          (mkPartLink (n_dbId nd) (partPath nd px py),
           mkPartHex (n_dbId nd) (p_id p) (py - n_y nd) (mkPoint px py)))
       sp.

(** [window._eagleEyePositions[n.dbId] = { x: n.x, y: n.y }] *)
Definition recordPosition (m : gmap Z (Q * Q)) (n : Node) : gmap Z (Q * Q) :=
  match n_dbId n with
  | Some id => <[id := (n_x n, n_y n)]> m
  | None => m
  end.

Definition clearSvg (v : View) : View :=
  mkView (_allNodes v) (_eagleEyePositions v) [] [] [].

(** [renderGraph()]: the SVG is emptied; without steps or without a
    layout nothing else happens; otherwise the node table, the position
    map and the layers are rebuilt from the layout. *)
Definition renderGraph (a : App) : App :=
  let s := st a in
  let v := clearSvg (view a) in
  if decide (steps s = []) then mkApp s v
  else
    match calculateTreeLayout s with
    | None => mkApp s v
    | Some layout =>
        let ns := nodes layout in
        let stepNodes := filter (fun n => n_kind n = KStep) ns in
        let partEls := if showPartNodes s then stepNodes ≫= renderParts s else [] in
        mkApp s (mkView ns
                        (Some (fold_left recordPosition stepNodes ∅))
                        (omap (renderLink s ns) (links layout))
                        (fst <$> partEls)
                        (snd <$> partEls))
    end.

(** [n.y = v] on a node object. *)
Definition set_y (v : Q) (n : Node) : Node :=
  mkNode (n_id n) (n_dbId n) (n_x n) v (n_w n) (n_h n) (n_label n) (n_level n)
         (n_groupId n) (n_seq n) (n_seqTag n) (n_kind n)
         (n_partCount n) (n_fastCount n) (n_stepCount n) (n_swimIdx n).

(** RECENTER GROUP: the first group node of the dragged step's group
    takes the midpoint of the current y of the step nodes of that group. *)
Definition recenterGroup (gid : option Z) (ns : list Node) : list Node :=
  match list_find (fun n => n_kind n = KGroup /\ n_groupId n = gid) ns with
  | Some (j, _) =>
      let sibYs := n_y <$> filter (fun n => n_kind n = KStep /\ n_groupId n = gid) ns in
      match midpoint sibYs with
      | Some m => alter (set_y m) j ns
      | None => ns
      end
  | None => ns
  end.

(** RECENTER ROOT: the first root node takes the midpoint of the current
    y of all group nodes. *)
Definition recenterRoot (ns : list Node) : list Node :=
  match list_find (fun n => n_kind n = KRoot) ns with
  | Some (j, _) =>
      let gYs := n_y <$> filter (fun n => n_kind n = KGroup) ns in
      match midpoint gYs with
      | Some m => alter (set_y m) j ns
      | None => ns
      end
  | None => ns
  end.

(** [parseFloat(fl.attr('data-labelpos')) || 0.5]: zero is falsy. *)
Definition storedT (fl : FastLabel) : Q :=
  if Qeq_bool (fl_labelpos fl) 0 then 1 # 2 else fl_labelpos fl.

Definition moveLabel (sx2 sy2 tx2 ty2 : Q) (fl : FastLabel) : FastLabel :=
  let t := storedT fl in
  mkFastLabel (fl_stepid fl) (fl_labelpos fl) sx2 sy2 tx2 ty2 (fl_lines fl)
              (bezierPoint t sx2 sy2 tx2 ty2).

(** UPDATE ALL BEZIER PATHS + FASTENER LABELS, for one link group. *)
Definition updateLinkGroup (ns : list Node) (lg : LinkGroup) : LinkGroup :=
  match scanNode (lg_src lg) ns, scanNode (lg_tgt lg) ns with
  | Some src, Some tgt =>
      let sx2 := n_x src + n_w src / 2 in
      let sy2 := n_y src in
      let tx2 := n_x tgt - n_w tgt / 2 in
      let ty2 := n_y tgt in
      mkLinkGroup (lg_src lg) (lg_tgt lg) (bezierPath sx2 sy2 tx2 ty2)
                  (moveLabel sx2 sy2 tx2 ty2 <$> lg_label lg)
  | _, _ => lg
  end.

(** MOVE PART HEXAGONS: every hexagon of the dragged step keeps its
    stored vertical offset. *)
Definition moveHex (d : Node) (el : PartHex) : PartHex :=
  if decide (ph_stepid el = n_dbId d) then
    mkPartHex (ph_stepid el) (ph_partid el) (ph_offsety el)
              (mkPoint (partX d) (n_y d + ph_offsety el))
  else el.

(** The connectors of the dragged step, numbered by the counter [pi2]. *)
Fixpoint moveLinks (d : Node) (totalH : Q) (pi2 : nat) (els : list PartLink) : list PartLink :=
  match els with
  | [] => []
  | el :: r =>
      if decide (pl_stepid el = n_dbId d) then
        let px := partX d in
        let py := n_y d - totalH / 2 + of_nat pi2 * partSpacing in
        mkPartLink (pl_stepid el) (partPath d px py) :: moveLinks d totalH (S pi2) r
      else el :: moveLinks d totalH pi2 r
  end.

(** [if (d.dbId) window._eagleEyePositions[d.dbId] = { x: d.x, y: d.y }]:
    an identifier of zero is falsy. *)
Definition pinPosition (d : Node) (m : gmap Z (Q * Q)) : gmap Z (Q * Q) :=
  match n_dbId d with
  | Some id => if decide (id = 0%Z) then m else <[id := (n_x d, n_y d)]> m
  | None => m
  end.

(** The ['drag'] listener of a step element: [i] is the position in
    [_allNodes] of the node object bound to the element, [eventY] is
    [event.y].  The listener is installed on step elements only, so on
    any other index nothing happens. *)
Definition drag (i : nat) (eventY : Q) (a : App) : App :=
  let v := view a in
  match _allNodes v !! i with
  | Some d0 =>
      match n_kind d0 with
      | KStep =>
          let d := set_y eventY d0 in
          let ns1 := <[i := d]> (_allNodes v) in
          let pos := pinPosition d <$> _eagleEyePositions v in
          let s := setLayoutDirty true (st a) in
          let ns2 := recenterGroup (n_groupId d) ns1 in
          let ns3 := recenterRoot ns2 in
          let ll := updateLinkGroup ns3 <$> linkLayer v in
          if showPartNodes s then
            let sp := sortedParts s (n_dbId d) in
            let totalH := totalHeight sp in
            mkApp s (mkView ns3 pos ll
                            (moveLinks d totalH 0 (partLinks v))
                            (moveHex d <$> partHexes v))
          else mkApp s (mkView ns3 pos ll (partLinks v) (partHexes v))
      | _ => a
      end
  | None => a
  end.

(** The ['drag'] listener of a fastener label: the label goes to the
    parameter nearest to the pointer on the curve between its stored
    endpoints, clamped to [0.05, 0.95]. *)
Definition dragLabelEl (eventX eventY : Q) (el : FastLabel) : FastLabel :=
  let csx := fl_sx el in
  let csy := fl_sy el in
  let ctx2 := fl_tx el in
  let cty := fl_ty el in
  let newT := nearestT eventX eventY csx csy ctx2 cty in
  let newT := Qmax (5 # 100) (Qmin (95 # 100) newT) in
  let newPt := bezierPoint newT csx csy ctx2 cty in
  mkFastLabel (fl_stepid el) newT csx csy ctx2 cty (fl_lines el) newPt.

(** The label listener on the label of the [k]-th link group. *)
Definition dragLabel (k : nat) (eventX eventY : Q) (a : App) : App :=
  let v := view a in
  let moveIt lg :=
    mkLinkGroup (lg_src lg) (lg_tgt lg) (lg_path lg)
                (dragLabelEl eventX eventY <$> lg_label lg) in
  mkApp (st a)
        (mkView (_allNodes v) (_eagleEyePositions v) (alter moveIt k (linkLayer v))
                (partLinks v) (partHexes v)).

(** [handleSave()]: nothing without a position map; otherwise the rows
    are written, the dirty flag is cleared and the count goes to the
    toast, which is the second component. *)
Definition handleSave (rowSaved : Z -> Q -> Q -> bool) (a : App) : App * option nat :=
  match _eagleEyePositions (view a) with
  | None => (a, None)
  | Some pos =>
      let count := savePositions rowSaved pos in
      (mkApp (setLayoutDirty false (st a)) (view a), Some count)
  end.

End Graph.

Import Graph.

(** ** Change markers (state module, v3.5) *)

Module Ecn.

(** A step row with its [ecn_status] column, which [State.Step] leaves
    out; [None] is a null column. *)
Record StepRow := mkStepRow { sr_step : Step; sr_ecn_status : option string }.

(** The exported variables [ecnBrush] and [ecnChanges].  [ecnChanges]
    is a plain object whose keys are step identifiers; an integer key
    never meets a member that every object inherits, so the object is a
    finite map. *)
Record Markers := mkMarkers { ecnBrush : string; ecnChanges : gmap Z string }.

Definition setEcnBrush (brush : string) (e : Markers) : Markers :=
  mkMarkers brush (ecnChanges e).

(** [toggleEcnStep(id)]; the second component is the returned record
    [{ id, status }], [None] being [null]. *)
Definition toggleEcnStep (id : Z) (e : Markers) : Markers * (Z * option string) :=
  if decide (ecnChanges e !! id = Some (ecnBrush e))
  then (mkMarkers (ecnBrush e) (delete id (ecnChanges e)), (id, None))
  else (mkMarkers (ecnBrush e) (<[id := ecnBrush e]> (ecnChanges e)),
        (id, Some (ecnBrush e))).

Definition clearEcnChanges (e : Markers) : Markers := mkMarkers (ecnBrush e) ∅.

(** [setEcnStatus(id, status)]: a falsy status (null or the empty
    string) deletes the entry. *)
Definition setEcnStatus (id : Z) (status : option string) (e : Markers) : Markers :=
  match truthyStr status with
  | Some s => mkMarkers (ecnBrush e) (<[id := s]> (ecnChanges e))
  | None => mkMarkers (ecnBrush e) (delete id (ecnChanges e))
  end.

(** The part of [setData(data)] that restores the markers:
    [ecnChanges = {}; steps.forEach(s => { if (s.ecn_status)
    ecnChanges[s.id] = s.ecn_status; })]. *)
Definition setData (rows : list StepRow) (e : Markers) : Markers :=
  mkMarkers (ecnBrush e)
    (fold_left (fun m r => match truthyStr (sr_ecn_status r) with
                           | Some status => <[s_id (sr_step r) := status]> m
                           | None => m
                           end) rows ∅).

(** The own keys of the object literal [directTypes]. *)
Definition ownDirectTypes : list string := ["remove"; "replace"; "add"; "modify"].

(** The members every object literal inherits; each of them is a
    function or an object, hence truthy when read through
    [directTypes[ecn]]. *)
Definition inheritedMembers : list string :=
  ["constructor"; "hasOwnProperty"; "isPrototypeOf"; "propertyIsEnumerable";
   "toLocaleString"; "toString"; "valueOf"; "__proto__";
   "__defineGetter__"; "__defineSetter__"; "__lookupGetter__"; "__lookupSetter__"].

(** [directTypes[ecn]] read as a condition. *)
Definition directTypes (ecn : string) : bool :=
  bool_decide (ecn ∈ ownDirectTypes ++ inheritedMembers).

(** [ecnChanges[id]] read as a condition: the entry when it is there and
    not the empty string. *)
Definition marker (m : gmap Z string) (id : Z) : option string := truthyStr (m !! id).

(** [ecn && directTypes[ecn]] for the marker of a step. *)
Definition directlyMarked (m : gmap Z string) (s : Step) : bool :=
  match marker m (s_id s) with
  | Some ecn => directTypes ecn
  | None => false
  end.

(** The first loop over a group: the index of the earliest directly
    marked step, [None] for -1. *)
Definition earliestIdx (m : gmap Z string) (gSteps : list Step) : option nat :=
  fst <$> list_find (fun s => directlyMarked m s = true) gSteps.

(** The second loop: from index [from] on, every step without a marker
    of its own is added. *)
Definition addUnmarked (m : gmap Z string) (gSteps : list Step) (from : nat)
    (affected : gset Z) : gset Z :=
  fold_left (fun aff s => match marker m (s_id s) with
                          | Some _ => aff
                          | None => {[ s_id s ]} ∪ aff
                          end)
            (drop from gSteps) affected.

(** [getEcnAffectedSteps()], over the exported [groups], [steps] and
    [ecnChanges].  The result is a set; nothing in the program looks at
    the order of insertion. *)
Definition getEcnAffectedSteps (groups : list Group) (steps : list Step)
    (m : gmap Z string) : gset Z :=
  fold_left (fun affected grp =>
               let gSteps := stepsOfGroup steps grp in
               match earliestIdx m gSteps with
               | Some i => addUnmarked m gSteps (S i) affected
               | None => affected
               end)
            groups ∅.

End Ecn.

Import Ecn.

(** ** Group filter and column spacing (application module, v3.2) *)

Module Chips.

Definition setVisibleGroupIds (ids : option (gset Z)) (s : State) : State :=
  mkState (assy s) (groups s) (steps s) (parts s) (fasts s)
          (showPartNodes s) (showFastenerLabels s) (layoutDirty s)
          (gap1 s) (gap2 s) ids.

Definition setGap1 (v : Q) (s : State) : State :=
  mkState (assy s) (groups s) (steps s) (parts s) (fasts s)
          (showPartNodes s) (showFastenerLabels s) (layoutDirty s)
          v (gap2 s) (visibleGroupIds s).

Definition setGap2 (v : Q) (s : State) : State :=
  mkState (assy s) (groups s) (steps s) (parts s) (fasts s)
          (showPartNodes s) (showFastenerLabels s) (layoutDirty s)
          (gap1 s) v (visibleGroupIds s).

(** [toggleGroupFilter(gid)], the state it leaves; the redraw that
    follows reads this state. *)
Definition toggleGroupFilter (gid : Z) (s : State) : State :=
  match visibleGroupIds s with
  | None => setVisibleGroupIds (Some {[ gid ]}) s
  | Some ids =>
      if decide (gid ∈ ids) then
        let next := ids ∖ {[ gid ]} in
        setVisibleGroupIds (if decide (size next = 0%nat) then None else Some next) s
      else
        let next := {[ gid ]} ∪ ids in
        if decide (size next = length (groups s)) then setVisibleGroupIds None s
        else setVisibleGroupIds (Some next) s
  end.

(** The listener of the "All" button. *)
Definition filterAll (s : State) : State := setVisibleGroupIds None s.

(** [Object.keys(state.ecnChanges).forEach(stepId => { step =
    state.steps.find(s => s.id === parseInt(stepId)); if (step)
    ecnGroupIds.add(step.group_id); })] *)
Definition ecnGroupIds (m : gmap Z string) (steps : list Step) : gset Z :=
  list_to_set
    (omap (fun id => (s_group_id ∘ snd) <$> list_find (fun s => s_id s = id) steps)
          (fst <$> map_to_list m)).

(** The listener of the "ECN only" button: without a marked step known
    to the state nothing changes. *)
Definition filterEcnOnly (m : gmap Z string) (s : State) : State :=
  let ids := ecnGroupIds m (steps s) in
  if decide (size ids = 0%nat) then s else setVisibleGroupIds (Some ids) s.

(** [parseInt(val) || dflt]: [None] is NaN, and zero is falsy. *)
Definition parsedOr (dflt : Z) (parsed : option Z) : Z :=
  match parsed with
  | Some v => if decide (v = 0%Z) then dflt else v
  | None => dflt
  end.

(** [syncGap1(val)] and [syncGap2(val)]; [parsed] is what [parseInt]
    makes of [val]. *)
Definition syncGap1 (parsed : option Z) (s : State) : State :=
  let val := Z.max 120 (Z.min 500 (parsedOr 300 parsed)) in
  setGap1 (inject_Z val) s.

Definition syncGap2 (parsed : option Z) (s : State) : State :=
  let val := Z.max 100 (Z.min 400 (parsedOr 240 parsed)) in
  setGap2 (inject_Z val) s.

(** The listener of the "Reset" button. *)
Definition spacingReset (s : State) : State :=
  syncGap2 (Some 240%Z) (syncGap1 (Some 300%Z) s).

(** The listener of the "Equal" button.  [avg] is an integer;
    [parseInt] reads an integer below 10^21 in magnitude back from its
    decimal form.  Beyond that the number prints in exponent notation,
    which is outside the embedding ([None]). *)
Definition spacingEqual (s : State) : option State :=
  let avg := mathRound ((gap1 s + gap2 s) / 2) in
  if decide (Z.abs avg < 10 ^ 21)%Z
  then Some (syncGap2 (Some avg) (syncGap1 (Some avg) s))
  else None.

End Chips.

Import Chips.

(** ** Fitting the drawing to the viewport (graph module) *)

Module Fit.

(** [window._eagleEyeBounds]; [minY] starts at [Infinity] and [maxY] at
    [-Infinity], which are [None]. *)
Record Bounds := mkBounds { b_maxX : Q; b_minY : option Q; b_maxY : option Q }.

(** The body of [nodes.filter(n => n.isStep).forEach] that widens the
    bounds by 40 around a step node. *)
Definition growBounds (b : Bounds) (n : Node) : Bounds :=
  mkBounds (b_maxX b)
           (Some (match b_minY b with
                  | Some m => Qmin m (n_y n - 40)
                  | None => n_y n - 40
                  end))
           (Some (match b_maxY b with
                  | Some m => Qmax m (n_y n + 40)
                  | None => n_y n + 40
                  end)).

(** The bounds [renderGraph] stores for a layout. *)
Definition renderBounds (lay : LayoutResult) : Bounds :=
  fold_left growBounds (filter (fun n => n_kind n = KStep) (nodes lay))
            (mkBounds (rootColX lay + 250) None None).

(** [d3.zoomIdentity.translate(x, y).scale(k)]: a point [p] of the
    drawing is shown at [p * k + (x, y)]. *)
Record Transform := mkTransform { t_k : Q; t_x : Q; t_y : Q }.

Definition applyX (t : Transform) (x : Q) : Q := x * t_k t + t_x t.
Definition applyY (t : Transform) (y : Q) : Q := y * t_k t + t_y t.

(** A quotient of two finite numbers as the program has it: a number,
    or for a zero divisor an infinity with the sign of the dividend, or
    NaN for zero by zero.  (The divisors of [fitToScreen] are sums, and
    a sum that is zero is the positive zero.) *)
Inductive Quotient :=
| Num (q : Q)
| PosInf
| NegInf
| NaN.

Definition jsDiv (a b : Q) : Quotient :=
  if Qeq_bool b 0 then
    if Qeq_bool a 0 then NaN
    else if Qlt_le_dec 0 a then PosInf else NegInf
  else Num (a / b).

(** [Math.min] of two quotients: NaN if one of them is, otherwise the
    smaller. *)
Definition jsMin (a b : Quotient) : Quotient :=
  match a, b with
  | NaN, _ | _, NaN => NaN
  | NegInf, _ | _, NegInf => NegInf
  | PosInf, x | x, PosInf => x
  | Num p, Num q => Num (Qmin p q)
  end.

(** What [fitToScreen] does: nothing ([NoFit]), or it hands a transform
    to the zoom behaviour.  [NotFinite] stands for the calls in which a
    component of the transform is not a finite number: an infinite bound
    entered the arithmetic, or the scale is NaN or an infinity. *)
Inductive FitResult :=
| NoFit
| NotFinite
| FitTo (instant : bool) (t : Transform).

(** [fitToScreen(instant)]: [zoomReady] tells whether [zoomBehavior] is
    set, [W] and [H] are the client size of the container, [bounds] is
    [window._eagleEyeBounds] ([None] while undefined). *)
Definition fitToScreen (instant : bool) (zoomReady : bool) (s : State) (W H : Q)
    (bounds : option Bounds) : FitResult :=
  if negb zoomReady || bool_decide (steps s = []) then NoFit
  else
    let b := default (mkBounds 800 (Some 0) (Some 600)) bounds in
    match b_minY b, b_maxY b with
    | Some minY, Some maxY =>
        let cw := (if Qeq_bool (b_maxX b) 0 then 800 else b_maxX b) + 60 in
        let ch := (maxY - minY) + 120 in
        match jsMin (jsMin (jsDiv W cw) (jsDiv H ch)) (Num (15 # 10)) with
        | Num m =>
            let scale := m * (88 # 100) in
            let cx := cw / 2 in
            let cy := (minY + maxY) / 2 in
            FitTo instant (mkTransform scale (W / 2 - cx * scale) (H / 2 - cy * scale))
        | _ => NotFinite
        end
    | _, _ => NotFinite
    end.

(** The call [fitToScreen(true)] that ends [renderGraph]: it is reached
    with a layout only, after [zoomBehavior] and the bounds were set. *)
Definition fitAfterRender (s : State) (W H : Q) : FitResult :=
  match calculateTreeLayout s with
  | Some lay => fitToScreen true true s W H (Some (renderBounds lay))
  | None => NoFit
  end.

End Fit.

Import Fit.

(** * Statements and proofs *)

(** ** Auxiliary definitions of the statements *)

(** Weight of the target abscissa in [pt_x]: the curve's x is
    [(1 - wx t) * sx + wx t * tx]. *)
Definition wx (t : Q) : Q := t * t * t + (3 # 2) * ((1 - t) * t).

(** Weight of the target ordinate in [pt_y]. *)
Definition wy (t : Q) : Q := 3 * ((1 - t) * (t * t)) + t * t * t.

(** What both loops of [nearestT] maintain once a first sample was taken:
    the best parameter is in [0,1] and [bestDist] is the distance at
    [bestT]. *)
Definition settled (px py sx sy tx ty : Q) (b : Best) : Prop :=
  (0 <= bestT b /\ bestT b <= 1) /\
  bestDist b = Some (sqDist (bestT b) px py sx sy tx ty).

(** A group passes the visibility filter: no filter is set, or the
    filter has its identifier. *)
Definition visibleGroup (s : State) (g : Group) : Prop :=
  match visibleGroupIds s with
  | Some ids => g_id g ∈ ids
  | None => True
  end.

#[global] Instance visibleGroup_dec s g : Decision (visibleGroup s g).
Proof. unfold visibleGroup. destruct (visibleGroupIds s); apply _. Defined.

Definition groupKey (g : Group) : Z := sortKey (g_sort_order g).

(** There is nothing to lay out. *)
Definition nothingToLayOut (s : State) : Prop :=
  groups s = [] \/ steps s = [] \/
  exists ids, visibleGroupIds s = Some ids /\ forall g, g ∈ groups s -> g_id g ∉ ids.

(** Two groups of one sort key, the smaller identifier listed last. *)
Definition tiedGroups : State :=
  mkState (mkAssy 1 "HBD_assy")
          [mkGroup 2 "B" (Some 1%Z); mkGroup 1 "A" (Some 1%Z)]
          [mkStep 10 1 "a1" (Some 1%Z) None None None None;
           mkStep 20 2 "b1" (Some 1%Z) None None None None]
          [] [] true true false 300 240 None.

(** The tie-break the specification asks for: of two bands whose groups
    have one sort key, the group with the smaller identifier has the
    earlier band. *)
Definition tieBreakByIdentifier (s : State) : Prop :=
  forall lay b1 b2,
    calculateTreeLayout s = Some lay ->
    b1 ∈ swimlanes lay -> b2 ∈ swimlanes lay ->
    groupKey (sl_grp b1) = groupKey (sl_grp b2) ->
    (g_id (sl_grp b1) < g_id (sl_grp b2))%Z ->
    (sl_gi b1 < sl_gi b2)%nat.

(** A node with its y erased: everything a drag leaves alone. *)
Definition skel (n : Node) : Node := set_y 0 n.

(** A sequence of drag events, each the index of the dragged node and
    the pointer's y. *)
Definition drags (ds : list (nat * Q)) (a : App) : App :=
  fold_left (fun a d => drag (fst d) (snd d) a) ds a.

Definition emptyView : View := mkView [] None [] [] [].

(** The common shape of RECENTER GROUP and RECENTER ROOT: the first node
    satisfying [T] takes the midpoint of the y of the nodes satisfying
    [S]. *)
Definition recenterWith (T S : Node -> Prop)
    `{!forall x, Decision (T x)} `{!forall x, Decision (S x)} (ns : list Node) : list Node :=
  match list_find T ns with
  | Some (j, _) =>
      match midpoint (n_y <$> filter S ns) with
      | Some m => alter (set_y m) j ns
      | None => ns
      end
  | None => ns
  end.

(** The first node satisfying [T], when there is one and some node
    satisfies [S], sits at the midpoint of the latter. *)
Definition centered (T S : Node -> Prop)
    `{!forall x, Decision (T x)} `{!forall x, Decision (S x)} (ns : list Node) : Prop :=
  forall j x m,
    list_find T ns = Some (j, x) ->
    midpoint (n_y <$> filter S ns) = Some m ->
    n_y x = m.

Definition isGroupOf (gid : option Z) (n : Node) : Prop :=
  n_kind n = KGroup /\ n_groupId n = gid.
Definition isStepOf (gid : option Z) (n : Node) : Prop :=
  n_kind n = KStep /\ n_groupId n = gid.
Definition isGroup (n : Node) : Prop := n_kind n = KGroup.
Definition isRoot (n : Node) : Prop := n_kind n = KRoot.

#[global] Instance isGroupOf_dec gid n : Decision (isGroupOf gid n).
Proof. unfold isGroupOf. apply _. Defined.
#[global] Instance isStepOf_dec gid n : Decision (isStepOf gid n).
Proof. unfold isStepOf. apply _. Defined.
#[global] Instance isGroup_dec n : Decision (isGroup n).
Proof. unfold isGroup. apply _. Defined.
#[global] Instance isRoot_dec n : Decision (isRoot n).
Proof. unfold isRoot. apply _. Defined.

(** A predicate on nodes that does not look at y. *)
Definition ignoresY (P : Node -> Prop) : Prop := forall n v, P (set_y v n) <-> P n.

(** One group with two steps; the first step has a fastener and a stored
    label position of zero. *)
Definition zeroLabel : State :=
  mkState (mkAssy 1 "HBD_assy")
          [mkGroup 1 "A" (Some 1%Z)]
          [mkStep 10 1 "a1" (Some 1%Z) None None None (Some 0);
           mkStep 11 1 "a2" (Some 2%Z) None None None None]
          []
          [mkFastener 1 10 (Some "M6x20"%string) (Some 4%Z) None None]
          true true false 300 240 None.

(** The label of the [k]-th link group. *)
Definition labelAt (k : nat) (a : App) : option FastLabel :=
  linkLayer (view a) !! k ≫= lg_label.

(** The curve point at which a label is anchored if it sits at its
    stored parameter on the curve between its stored endpoints. *)
Definition anchorAtStoredT (fl : FastLabel) : Point :=
  bezierPoint (fl_labelpos fl) (fl_sx fl) (fl_sy fl) (fl_tx fl) (fl_ty fl).

(** The node [x] sits at the midpoint of the y of the nodes satisfying
    [S], whenever some node satisfies [S]. *)
Definition centeredOn (S : Node -> Prop) `{!forall x, Decision (S x)}
    (x : Node) (ns : list Node) : Prop :=
  forall m, midpoint (n_y <$> filter S ns) = Some m -> n_y x = m.





(** The step nodes the layout pushes for one group. *)
Definition stepNodesOf (s : State) (grp : Group) (gi : nat) (startY : Q) : list Node :=
  imap (fun si step => stepNode s grp gi startY step si) (groupSteps s grp).

(** What the group loop of the layout maintains, [done] being the groups
    already laid out: every node is a step node or the group node of a
    group of [done]; no two group nodes of one group; every group node
    is centered on its step nodes; the lanes belong to [done], and the
    group node of a lane without steps is at the lane's vertical center. *)
Definition LayoutInv (s : State) (done : list Group) (acc : Acc) : Prop :=
  (forall nd, nd ∈ allNodes acc ->
     exists g, g ∈ done /\ n_groupId nd = Some (g_id g) /\
       ((n_kind nd = KStep /\
         exists st, st ∈ steps s /\ s_group_id st = g_id g /\ n_id nd = SId (s_id st)) \/
        (n_kind nd = KGroup /\ n_id nd = GId (g_id g)))) /\
  NoDup (n_groupId <$> filter isGroup (allNodes acc)) /\
  (forall g, g ∈ allNodes acc -> n_kind g = KGroup ->
     centeredOn (isStepOf (n_groupId g)) g (allNodes acc)) /\
  (forall sl, sl ∈ lanes acc ->
     sl_grp sl ∈ done /\
     sl_stepCount sl = length (groupSteps s (sl_grp sl)) /\
     (exists nd, nd ∈ allNodes acc /\ n_id nd = GId (g_id (sl_grp sl))) /\
     (sl_stepCount sl = 0%nat ->
      forall nd, nd ∈ allNodes acc -> n_id nd = GId (g_id (sl_grp sl)) ->
                 n_y nd = sl_startY sl + sl_height sl / 2)).

(** *** The links the specification asks of the auto-generate helper *)

Definition pairOf (l : StepLink) : Z * Z := (parent_step_id l, child_step_id l).

(** Within a group: step[i] -> step[i+1] for consecutive steps. *)
Definition chainPairs (gSteps : list Step) : list (Z * Z) :=
  zip (s_id <$> gSteps) (s_id <$> tail gSteps).

(** The pairs in the order the helper meets them, with its own step
    lists: from the last step of a group to the first step of the next
    group, when there is a next group and neither group is empty. *)
Definition bridgePair (steps : list Step) (gSteps : list Step) (rest : list Group)
    : list (Z * Z) :=
  match rest with
  | nextGrp :: _ =>
      match last gSteps, head (stepsOfGroup steps nextGrp) with
      | Some lastStep, Some firstNext => [(s_id lastStep, s_id firstNext)]
      | _, _ => []
      end
  | [] => []
  end.

(** All pairs the helper meets, group after group in the given order. *)
Fixpoint specPairs (steps : list Step) (gs : list Group) : list (Z * Z) :=
  match gs with
  | [] => []
  | grp :: rest =>
      chainPairs (stepsOfGroup steps grp)
      ++ bridgePair steps (stepsOfGroup steps grp) rest
      ++ specPairs steps rest
  end.

(** The same in the specification's words, for the groups [gs] in
    their order and the steps [stepsOf g] of each group in theirs. *)
Definition stepKey (s : Step) : Z := sortKey (s_sort_order s).

(** The steps of a group, as they come in the step collection. *)
Definition memberSteps (steps : list Step) (g : Group) : list Step :=
  filter (fun s => s_group_id s = g_id g) steps.

(** [l'] lists [l] in sort-key order: the keys never decrease, and the
    members of one key stand as they do in [l]. *)
Definition inKeyOrder {A} (key : A -> Z) (l l' : list A) : Prop :=
  StronglySorted (fun a b => (key a <= key b)%Z) l' /\
  forall k : Z, filter (fun y => key y = k) l' = filter (fun y => key y = k) l.

(** The bridging edge from the last step of a group to the first step
    of the next group, skipped when either group is empty. *)
Definition bridgeEdge (gSteps nextSteps : list Step) : list (Z * Z) :=
  match last gSteps, head nextSteps with
  | Some a, Some b => [(s_id a, s_id b)]
  | _, _ => []
  end.

Fixpoint wantedPairs (stepsOf : Group -> list Step) (gs : list Group) : list (Z * Z) :=
  match gs with
  | [] => []
  | g :: rest =>
      chainPairs (stepsOf g)
      ++ match rest with
         | next :: _ => bridgeEdge (stepsOf g) (stepsOf next)
         | [] => []
         end
      ++ wantedPairs stepsOf rest
  end.

(** Four groups and six steps listed out of order; group B has no
    step. *)
Definition scatteredGroups : list Group :=
  [mkGroup 3 "C" (Some 3%Z); mkGroup 1 "A" (Some 1%Z);
   mkGroup 4 "D" (Some 4%Z); mkGroup 2 "B" (Some 2%Z)].

Definition scatteredSteps : list Step :=
  [mkStep 41 4 "d2" (Some 2%Z) None None None None;
   mkStep 12 1 "a3" (Some 3%Z) None None None None;
   mkStep 30 3 "c1" (Some 1%Z) None None None None;
   mkStep 10 1 "a1" (Some 1%Z) None None None None;
   mkStep 40 4 "d1" (Some 1%Z) None None None None;
   mkStep 11 1 "a2" (Some 2%Z) None None None None].

Definition orderedGroups : list Group :=
  [mkGroup 1 "A" (Some 1%Z); mkGroup 2 "B" (Some 2%Z);
   mkGroup 3 "C" (Some 3%Z); mkGroup 4 "D" (Some 4%Z)].

Definition orderedSteps (g : Group) : list Step :=
  if decide (g_id g = 1%Z) then
    [mkStep 10 1 "a1" (Some 1%Z) None None None None;
     mkStep 11 1 "a2" (Some 2%Z) None None None None;
     mkStep 12 1 "a3" (Some 3%Z) None None None None]
  else if decide (g_id g = 3%Z) then
    [mkStep 30 3 "c1" (Some 1%Z) None None None None]
  else if decide (g_id g = 4%Z) then
    [mkStep 40 4 "d1" (Some 1%Z) None None None None;
     mkStep 41 4 "d2" (Some 2%Z) None None None None]
  else [].

(** Keeping the first occurrence of every pair not already seen. *)
Fixpoint dedup (seen : gset (Z * Z)) (ps : list (Z * Z)) : list (Z * Z) :=
  match ps with
  | [] => []
  | p :: r => if decide (p ∈ seen) then dedup seen r else p :: dedup ({[p]} ∪ seen) r
  end.

Definition pushPairs (assemblyId : Z) (ps : list (Z * Z)) (g : Gen) : Gen :=
  fold_left (fun g p => pushLink assemblyId (fst p) (snd p) g) ps g.

(** *** Saving positions *)

(** Every row of the position map was written without error. *)
Definition allRowsSaved (rowSaved : Z -> Q -> Q -> bool) (pos : gmap Z (Q * Q)) : Prop :=
  forall id x y, pos !! id = Some (x, y) -> rowSaved id x y = true.

(** The dirty flag is clear after [handleSave] only if every row was
    written. *)
Definition clearOnlyIfAllSaved (rowSaved : Z -> Q -> Q -> bool) (a : App) : Prop :=
  forall pos,
    _eagleEyePositions (view a) = Some pos ->
    layoutDirty (st (fst (handleSave rowSaved a))) = false ->
    allRowsSaved rowSaved pos.

(** A dragged layout with one pinned position, not yet saved. *)
Definition pendingPositions : gmap Z (Q * Q) := {[ 10%Z := (220, 150) ]}.

Definition unsavedApp : App :=
  mkApp (setLayoutDirty true tiedGroups)
        (mkView [] (Some pendingPositions) [] [] []).

Definition rowOk (rowSaved : Z -> Q -> Q -> bool) (row : Z * (Q * Q)) : Prop :=
  rowSaved (fst row) (fst (snd row)) (snd (snd row)) = true.

#[global] Instance rowOk_dec rowSaved row : Decision (rowOk rowSaved row).
Proof. unfold rowOk. apply _. Defined.

(** Three groups with 3, 1 and 0 steps; one step has persisted
    coordinates (999, 500). *)
Definition threeBands : State :=
  mkState (mkAssy 1 "HBD_assy")
          [mkGroup 1 "A" (Some 1%Z); mkGroup 2 "B" (Some 2%Z); mkGroup 3 "C" (Some 3%Z)]
          [mkStep 10 1 "a1" (Some 1%Z) None None None None;
           mkStep 11 1 "a2" (Some 2%Z) None None None None;
           mkStep 12 1 "a3" (Some 3%Z) (Some 999) (Some 500) None None;
           mkStep 20 2 "b1" (Some 1%Z) None None None None]
          [] [] true true false 300 240 None.

(** One group with three unpinned steps of sort keys 1, 2, 3. *)
Definition linearChain : State :=
  mkState (mkAssy 1 "HBD_assy")
          [mkGroup 1 "A" (Some 1%Z)]
          [mkStep 10 1 "s1" (Some 1%Z) None None None None;
           mkStep 11 1 "s2" (Some 2%Z) None None None None;
           mkStep 12 1 "s3" (Some 3%Z) None None None None]
          [] [] true true false 300 240 None.

(** [threeBands] with only the first group visible. *)
Definition onlyFirstBand : State :=
  mkState (assy threeBands) (groups threeBands) (steps threeBands)
          (parts threeBands) (fasts threeBands) true true false 300 240
          (Some {[ 1%Z ]}).

Definition nodeIds (lay : option LayoutResult) : list NodeId :=
  match lay with
  | Some l => n_id <$> nodes l
  | None => []
  end.


(** *** The curve point in binary64 *)

(** [v] is a binary64 value: a finite number that rounding leaves
    alone. *)
Definition binary64 (v : Q) : Prop :=
  Binary64.round64 v == v /\ Qabs v < Binary64.pow2 1024.

(** The rounding allowance for coordinates of magnitude [m] at most:
    [m * 2^-46 + 2^-1070]. *)
Definition slack (m : Q) : Q := m * Binary64.pow2 (-46) + Binary64.pow2 (-1070).

(** The bounding-box property as the specification states it, of the
    point the program computes. *)
Definition staysInBox : Prop :=
  forall t sx sy tx ty,
    binary64 t -> binary64 sx -> binary64 sy -> binary64 tx -> binary64 ty ->
    0 <= t -> t <= 1 ->
    exists p,
      Binary64.bezierPoint t sx sy tx ty = Some p /\
      (Qmin sx tx <= pt_x p /\ pt_x p <= Qmax sx tx) /\
      (Qmin sy ty <= pt_y p /\ pt_y p <= Qmax sy ty).

(** On the operands [a] and [b] the three operations of [Binary64] give
    what the kernel's binary64 operations give. *)
Definition kernelAgrees (a b : Z * Z) : Prop :=
  Binary64.ofFloat (PrimFloat.add (Binary64.toFloat a) (Binary64.toFloat b))
  = Binary64.fl (Binary64.valueOf a + Binary64.valueOf b) /\
  Binary64.ofFloat (PrimFloat.sub (Binary64.toFloat a) (Binary64.toFloat b))
  = Binary64.fl (Binary64.valueOf a - Binary64.valueOf b) /\
  Binary64.ofFloat (PrimFloat.mul (Binary64.toFloat a) (Binary64.toFloat b))
  = Binary64.fl (Binary64.valueOf a * Binary64.valueOf b).

(** Operands as significand and exponent: the values that occur on the
    horizontal link below, ties in the last place, the smallest values
    and the largest. *)
Definition kernelSamples : list ((Z * Z) * (Z * Z)) :=
  [((5404319552844595, -54), (150, 0)); ((1, 0), (5404319552844595, -54));
   ((7205759403792794, -56), (295, 0)); ((-3, 0), (6004799503160661, -54));
   ((0, 0), (435, 0)); ((4503599627370497, -52), (4503599627370497, -52));
   ((1, 0), (1, -53)); ((1, 0), (3, -53)); ((1, 0), (-1, -54));
   ((1, -1074), (1, -1)); ((3, -1074), (1, -1)); ((5, -1074), (1, -1));
   ((9007199254740991, 971), (9007199254740991, 971));
   ((9007199254740991, 971), (1, 917)); ((9007199254740991, 971), (1, 918))]%Z.
(** *** Change markers *)

(** In the sort order of group [grp], the step [sid] comes after a step
    that carries a direct marker. *)
Definition afterDirect (steps : list Step) (m : gmap Z string) (grp : Group) (sid : Z) : Prop :=
  exists i j si sj,
    stepsOfGroup steps grp !! i = Some si /\
    stepsOfGroup steps grp !! j = Some sj /\
    (i < j)%nat /\ directlyMarked m si = true /\ s_id sj = sid.

(** The steps of [threeBands] as loaded rows: step 10 is marked for
    removal, the other rows have a null status. *)
Definition markedRows : list StepRow :=
  imap (fun i st => mkStepRow st (if decide (i = 0%nat) then Some "remove"%string else None))
       (steps threeBands).

(** The markers of a fresh session: the initial brush, no marker. *)
Definition noMarkers : Markers := mkMarkers "remove" ∅.

(** *** Group filter and spacing *)

(** What the filter bar offers: a group chip, the "All" button, the
    "ECN only" button pressed while the markers are [m]. *)
Inductive FilterAction :=
| Chip (gid : Z)
| ShowAll
| EcnOnly (m : gmap Z string).

Definition filterStep (s : State) (a : FilterAction) : State :=
  match a with
  | Chip gid => toggleGroupFilter gid s
  | ShowAll => filterAll s
  | EcnOnly m => filterEcnOnly m s
  end.

Definition filterSteps (acts : list FilterAction) (s : State) : State :=
  fold_left filterStep acts s.

(** The identifiers of the loaded groups. *)
Definition groupIds (s : State) : gset Z := list_to_set (g_id <$> groups s).

(** The filter is off, or it holds at least one identifier and only
    identifiers of loaded groups. *)
Definition filterOk (s : State) : Prop :=
  match visibleGroupIds s with
  | None => True
  | Some ids => ids <> ∅ /\ ids ⊆ groupIds s
  end.

(** A session at the filter bar of [threeBands]. *)
Definition chipClicks : list FilterAction :=
  [Chip 1; Chip 2; Chip 3; Chip 2; EcnOnly {[ 10%Z := "remove"%string ]}; Chip 1; ShowAll; Chip 3].

(** *** Links and positions across drags *)

(** What the pointer can do on the drawing: drag the step node at
    position [i] of the table to the ordinate [y], or drag the label of
    the [k]-th link group to a point. *)
Inductive GraphEvent :=
| NodeDrag (i : nat) (y : Q)
| LabelDrag (k : nat) (x y : Q).

Definition graphStep (a : App) (e : GraphEvent) : App :=
  match e with
  | NodeDrag i y => drag i y a
  | LabelDrag k x y => dragLabel k x y a
  end.

Definition graphSteps (es : list GraphEvent) (a : App) : App :=
  fold_left graphStep es a.

(** A link group is drawn between the current positions of its two
    nodes, from the right edge of the source to the left edge of the
    target; its label, if it has one, stores these ends, and sits on the
    curve at its stored parameter unless that is zero. *)
Definition followsNodes (ns : list Node) (lg : LinkGroup) : Prop :=
  exists src tgt,
    findNode (lg_src lg) ns = Some src /\
    findNode (lg_tgt lg) ns = Some tgt /\
    lg_path lg = bezierPath (n_x src + n_w src / 2) (n_y src)
                            (n_x tgt - n_w tgt / 2) (n_y tgt) /\
    forall fl, lg_label lg = Some fl ->
      fl_sx fl = n_x src + n_w src / 2 /\ fl_sy fl = n_y src /\
      fl_tx fl = n_x tgt - n_w tgt / 2 /\ fl_ty fl = n_y tgt /\
      (~ fl_labelpos fl == 0 -> fl_transform fl = anchorAtStoredT fl).

#[global] Instance SId_inj : Inj (=) (=) SId.
Proof. intros x y E. by injection E. Qed.

(** What the position map and the node table keep across drags: a step
    node has a database identifier, no two step nodes share one, the
    map holds the current coordinates of every step node with a non-zero
    identifier, and every key of the map is the identifier of a step
    node. *)
Definition PosInv (ns : list Node) (pos : gmap Z (Q * Q)) : Prop :=
  (forall k nd, ns !! k = Some nd -> n_kind nd = KStep -> exists id, n_dbId nd = Some id) /\
  (forall k1 k2 x1 x2, ns !! k1 = Some x1 -> ns !! k2 = Some x2 ->
     n_kind x1 = KStep -> n_kind x2 = KStep -> n_dbId x1 = n_dbId x2 -> k1 = k2) /\
  (forall k nd id, ns !! k = Some nd -> n_kind nd = KStep -> n_dbId nd = Some id ->
     id <> 0%Z -> pos !! id = Some (n_x nd, n_y nd)) /\
  (forall id p, pos !! id = Some p ->
     exists k nd, ns !! k = Some nd /\ n_kind nd = KStep /\ n_dbId nd = Some id).

(** The position map mirrors the step nodes: a step node with a
    non-zero identifier has its current coordinates in the map, and the
    map has no other non-zero key. *)
Definition mirrorsNodes (ns : list Node) (pos : gmap Z (Q * Q)) : Prop :=
  forall id, id <> 0%Z ->
    forall p, pos !! id = Some p <->
              exists nd, nd ∈ ns /\ n_kind nd = KStep /\ n_dbId nd = Some id /\
                         p = (n_x nd, n_y nd).

(** One group, two steps, the first with a fastener and a stored label
    position of 0.3. *)
Definition labelledPair : State :=
  mkState (mkAssy 1 "HBD_assy")
          [mkGroup 1 "A" (Some 1%Z)]
          [mkStep 10 1 "a1" (Some 1%Z) None None None (Some (3 # 10));
           mkStep 11 1 "a2" (Some 2%Z) None None None None]
          [mkPart 1 10 "P-100" 2 (Some 1%Z); mkPart 2 10 "P-200" 1 (Some 2%Z)]
          [mkFastener 1 10 (Some "M6x20"%string) (Some 4%Z) None None]
          true true false 300 240 None.


(** *** The part layer *)

(** The part elements a rendering draws for the step nodes of a node
    table. *)
Definition freshParts (s : State) (ns : list Node) : list (PartLink * PartHex) :=
  filter (fun n => n_kind n = KStep) ns ≫= renderParts s.

(** *** One chain *)

(** [scatteredGroups] without the empty group B, and its order. *)
Definition chainGroups : list Group :=
  [mkGroup 3 "C" (Some 3%Z); mkGroup 1 "A" (Some 1%Z); mkGroup 4 "D" (Some 4%Z)].

Definition chainOrder : list Group :=
  [mkGroup 1 "A" (Some 1%Z); mkGroup 3 "C" (Some 3%Z); mkGroup 4 "D" (Some 4%Z)].

(** ** Properties of the geometry primitives *)

Section BezierBounds.

Variables t sx sy tx ty : Q.
Hypothesis t_lo : 0 <= t.
Hypothesis t_hi : t <= 1.

Lemma mult3_nonneg (a b c : Q) : 0 <= a -> 0 <= b -> 0 <= c -> 0 <= a * b * c.
Proof. intros; repeat apply Qmult_le_0_compat; assumption. Qed.

Lemma wx_range : 0 <= wx t /\ wx t <= 1.
Proof using t_lo t_hi.
  unfold wx.
  assert (Hu : 0 <= 1 - t) by lra.
  assert (H3 : 0 <= t * t * t) by (apply mult3_nonneg; assumption).
  assert (H2 : 0 <= (1 - t) * t) by (apply Qmult_le_0_compat; assumption).
  split; [lra |].
  assert (Hu3 : 0 <= (1 - t) * (1 - t) * (1 - t)) by (apply mult3_nonneg; assumption).
  assert (E : 1 - (t * t * t + (3 # 2) * ((1 - t) * t))
              == (1 - t) * (1 - t) * (1 - t) + (3 # 2) * ((1 - t) * t)) by ring.
  lra.
Qed.

Lemma wy_range : 0 <= wy t /\ wy t <= 1.
Proof using t_lo t_hi.
  unfold wy.
  assert (Hu : 0 <= 1 - t) by lra.
  assert (H3 : 0 <= t * t * t) by (apply mult3_nonneg; assumption).
  assert (H2 : 0 <= (1 - t) * (t * t)).
  { apply Qmult_le_0_compat; [assumption |]. apply Qmult_le_0_compat; assumption. }
  split; [lra |].
  assert (Hu3 : 0 <= (1 - t) * (1 - t) * (1 - t)) by (apply mult3_nonneg; assumption).
  assert (Hu2 : 0 <= (1 - t) * (1 - t) * t) by (apply mult3_nonneg; assumption).
  assert (E : 1 - (3 * ((1 - t) * (t * t)) + t * t * t)
              == (1 - t) * (1 - t) * (1 - t) + 3 * ((1 - t) * (1 - t) * t)) by ring.
  lra.
Qed.

Lemma bezier_x_convex :
  pt_x (bezierPoint t sx sy tx ty) == (1 - wx t) * sx + wx t * tx.
Proof. unfold wx, bezierPoint; simpl. field. Qed.

Lemma bezier_y_convex :
  pt_y (bezierPoint t sx sy tx ty) == (1 - wy t) * sy + wy t * ty.
Proof. unfold wy, bezierPoint; simpl. ring. Qed.

End BezierBounds.

Lemma convex_between (w a b : Q) :
  0 <= w -> w <= 1 ->
  Qmin a b <= (1 - w) * a + w * b /\ (1 - w) * a + w * b <= Qmax a b.
Proof.
  intros Hw0 Hw1.
  assert (Hw : 0 <= 1 - w) by lra.
  destruct (Qlt_le_dec a b) as [Hab | Hba].
  - rewrite (Q.min_l a b), (Q.max_r a b) by lra.
    assert (0 <= w * (b - a)) by (apply Qmult_le_0_compat; lra).
    assert (0 <= (1 - w) * (b - a)) by (apply Qmult_le_0_compat; lra).
    split; lra.
  - rewrite (Q.min_r a b), (Q.max_l a b) by lra.
    assert (0 <= w * (a - b)) by (apply Qmult_le_0_compat; lra).
    assert (0 <= (1 - w) * (a - b)) by (apply Qmult_le_0_compat; lra).
    split; lra.
Qed.

(** In exact arithmetic the point lies in the bounding box of the two
    endpoints, and is the source at t = 0 and the target at t = 1. *)
Lemma bezierPoint_exact_in_box (t sx sy tx ty : Q) :
  0 <= t -> t <= 1 ->
  let p := bezierPoint t sx sy tx ty in
  (Qmin sx tx <= pt_x p /\ pt_x p <= Qmax sx tx) /\
  (Qmin sy ty <= pt_y p /\ pt_y p <= Qmax sy ty) /\
  (pt_x (bezierPoint 0 sx sy tx ty) == sx /\
   pt_y (bezierPoint 0 sx sy tx ty) == sy) /\
  (pt_x (bezierPoint 1 sx sy tx ty) == tx /\
   pt_y (bezierPoint 1 sx sy tx ty) == ty).
Proof.
  intros H0 H1 p. subst p.
  repeat split.
  - rewrite bezier_x_convex. apply convex_between; apply wx_range; assumption.
  - rewrite bezier_x_convex. apply convex_between; apply wx_range; assumption.
  - rewrite bezier_y_convex. apply convex_between; apply wy_range; assumption.
  - rewrite bezier_y_convex. apply convex_between; apply wy_range; assumption.
  - simpl. field.
  - simpl. ring.
  - simpl. field.
  - simpl. ring.
Qed.

(** ** The curve point in binary64 *)

Lemma pow2_pos (e : Z) : 0 < Binary64.pow2 e.
Proof. apply Qpower_0_lt. reflexivity. Qed.

Lemma pow2_add (a b : Z) : Binary64.pow2 (a + b) == Binary64.pow2 a * Binary64.pow2 b.
Proof. apply Qpower_plus. discriminate. Qed.

Lemma pow2_le (a b : Z) : (a <= b)%Z -> Binary64.pow2 a <= Binary64.pow2 b.
Proof. intros H. apply Qpower_le_compat_l; [exact H | discriminate]. Qed.

Lemma pow2_inject (n : Z) : (0 <= n)%Z -> inject_Z (2 ^ n) == Binary64.pow2 n.
Proof. intros H. unfold Binary64.pow2. rewrite Zpower_Qpower by exact H. reflexivity. Qed.

Lemma nearestEven_close (y : Q) : Qabs (inject_Z (Binary64.nearestEven y) - y) <= 1 # 2.
Proof.
  pose proof (Qfloor_le y) as Hlo. pose proof (Qlt_floor y) as Hhi.
  rewrite inject_Z_plus in Hhi. change (inject_Z 1) with 1 in Hhi.
  unfold Binary64.nearestEven. cbv zeta.
  apply Qabs_Qle_condition.
  destruct (Qcompare (y - inject_Z (Qfloor y)) (1 # 2)) eqn:E.
  - apply Qeq_alt in E.
    destruct (Z.even (Qfloor y)); [| rewrite inject_Z_plus; change (inject_Z 1) with 1]; lra.
  - apply Qlt_alt in E. lra.
  - apply Qgt_alt in E. rewrite inject_Z_plus. change (inject_Z 1) with 1. lra.
Qed.

Lemma binade_le (x : Q) : ~ x == 0 -> Binary64.pow2 (Binary64.binade x) <= Qabs x.
Proof.
  intros Hx. unfold Binary64.binade. cbv zeta.
  destruct (Qle_bool _ _) eqn:E; [by apply Qle_bool_iff |].
  destruct x as [n d]. cbn [Qnum Qden].
  assert (HN : (0 < Z.abs n)%Z).
  { destruct (Z.eq_dec n 0%Z) as [-> |]; [exfalso; apply Hx; reflexivity | lia]. }
  set (a := Z.log2 (Z.abs n)). set (b := Z.log2 (Z.pos d)).
  destruct (Z.log2_spec (Z.abs n) HN) as [Ha _]. fold a in Ha.
  destruct (Z.log2_spec (Z.pos d) eq_refl) as [_ Hb]. fold b in Hb.
  assert (Ha0 : (0 <= a)%Z) by apply Z.log2_nonneg.
  assert (Hb0 : (0 <= b)%Z) by apply Z.log2_nonneg.
  assert (Ha' : Binary64.pow2 a <= inject_Z (Z.abs n)).
  { rewrite <- pow2_inject by exact Ha0. rewrite <- Zle_Qle. exact Ha. }
  assert (Hb' : inject_Z (Z.pos d) <= Binary64.pow2 (b + 1)).
  { rewrite <- pow2_inject by lia. rewrite <- Zle_Qle. rewrite Z.add_1_r. lia. }
  assert (Eabs : Qabs (n # d) == inject_Z (Z.abs n) / inject_Z (Z.pos d)).
  { unfold Qabs. apply Qmake_Qdiv. }
  rewrite Eabs. apply Qle_shift_div_l; [reflexivity |].
  apply (Qle_trans _ (Binary64.pow2 (a - b - 1) * Binary64.pow2 (b + 1))).
  - apply Qmult_le_l; [apply pow2_pos | exact Hb'].
  - rewrite <- pow2_add. replace (a - b - 1 + (b + 1))%Z with a by lia. exact Ha'.
Qed.


(** The binade is the one the definition names. *)
Lemma binade_lt (x : Q) : ~ x == 0 -> Qabs x < Binary64.pow2 (Binary64.binade x + 1).
Proof.
  intros Hx. unfold Binary64.binade. cbv zeta.
  destruct (Qle_bool _ _) eqn:E.
  2: { replace (Z.log2 (Z.abs (Qnum x)) - Z.log2 (Z.pos (Qden x)) - 1 + 1)%Z
         with (Z.log2 (Z.abs (Qnum x)) - Z.log2 (Z.pos (Qden x)))%Z by lia.
       apply Qnot_le_lt. intros Hle. apply Qle_bool_iff in Hle. congruence. }
  clear E. destruct x as [n d]. cbn [Qnum Qden].
  assert (HN : (0 < Z.abs n)%Z).
  { destruct (Z.eq_dec n 0%Z) as [-> |]; [exfalso; apply Hx; reflexivity | lia]. }
  set (a := Z.log2 (Z.abs n)). set (b := Z.log2 (Z.pos d)).
  destruct (Z.log2_spec (Z.abs n) HN) as [_ Ha]. fold a in Ha.
  destruct (Z.log2_spec (Z.pos d) eq_refl) as [Hb _]. fold b in Hb.
  assert (Ha0 : (0 <= a)%Z) by apply Z.log2_nonneg.
  assert (Hb0 : (0 <= b)%Z) by apply Z.log2_nonneg.
  assert (Ha' : inject_Z (Z.abs n) < Binary64.pow2 (a + 1)).
  { rewrite <- pow2_inject by lia. rewrite <- Zlt_Qlt. rewrite Z.add_1_r. exact Ha. }
  assert (Hb' : Binary64.pow2 b <= inject_Z (Z.pos d)).
  { rewrite <- pow2_inject by exact Hb0. rewrite <- Zle_Qle. exact Hb. }
  assert (Eabs : Qabs (n # d) == inject_Z (Z.abs n) / inject_Z (Z.pos d)).
  { unfold Qabs. apply Qmake_Qdiv. }
  rewrite Eabs. apply Qlt_shift_div_r; [reflexivity |].
  apply (Qlt_le_trans _ _ _ Ha').
  replace (a + 1)%Z with (a - b + 1 + b)%Z by lia. rewrite pow2_add.
  apply Qmult_le_l; [apply pow2_pos | exact Hb'].
Qed.

Lemma round64_error (x : Q) : Qabs (Binary64.round64 x - x) <= Binary64.eps * Qabs x + Binary64.eta.
Proof.
  pose proof (Qabs_nonneg x) as Hn.
  assert (Heta : 0 < Binary64.eta) by apply pow2_pos.
  unfold Binary64.round64. cbv zeta.
  pose proof (Qred_correct x) as Hr. set (x' := Qred x) in *.
  destruct (Qeq_bool x' 0) eqn:E0.
  - apply Qeq_bool_eq in E0. rewrite E0 in Hr.
    assert (Ez : 0 - x == 0) by (rewrite <- Hr; reflexivity).
    rewrite Ez. change (Qabs 0) with 0. unfold Binary64.eps. lra.
  - assert (Hx' : ~ x' == 0) by (by apply Qeq_bool_neq).
    rewrite Qred_correct.
    set (q := Binary64.ulpExp x'). set (p := Binary64.pow2 q).
    assert (Hp : 0 < p) by apply pow2_pos.
    set (m := inject_Z (Binary64.nearestEven (x' / p))).
    assert (Hm : Qabs (m - x' / p) <= 1 # 2) by apply nearestEven_close.
    assert (E1 : m * p - x == (m - x' / p) * p) by (rewrite <- Hr; field; lra).
    rewrite E1, Qabs_Qmult, (Qabs_pos p) by lra.
    apply (Qle_trans _ ((1 # 2) * p)).
    { apply Qmult_le_compat_r; [exact Hm | lra]. }
    assert (Hb : Binary64.pow2 (Binary64.binade x') <= Qabs x).
    { rewrite <- Hr. by apply binade_le. }
    unfold p, q, Binary64.ulpExp.
    destruct (Z.max_spec (Binary64.binade x' - 52) (-1074)) as [[_ ->] | [_ ->]].
    + assert (E2 : (1 # 2) * Binary64.pow2 (-1074) == Binary64.eta) by reflexivity.
      rewrite E2. unfold Binary64.eps. nra.
    + assert (E2 : (1 # 2) * Binary64.pow2 (Binary64.binade x' - 52) == Binary64.eps * Binary64.pow2 (Binary64.binade x')).
      { replace (Binary64.binade x' - 52)%Z with (Binary64.binade x' + -52)%Z by lia.
        rewrite pow2_add.
        assert (E3 : Binary64.pow2 (-52) == 1 # 4503599627370496) by reflexivity.
        rewrite E3. unfold Binary64.eps. ring. }
      rewrite E2. unfold Binary64.eps in *. nra.
Qed.

Lemma round64_proper (x y : Q) : x == y -> Binary64.round64 x = Binary64.round64 y.
Proof. intros H. unfold Binary64.round64. by rewrite (Qred_complete x y H). Qed.

Lemma fl_proper (x y : Q) : x == y -> Binary64.fl x = Binary64.fl y.
Proof. intros H. unfold Binary64.fl. by rewrite (round64_proper x y H). Qed.

Lemma Qabs_mul_le (a b A B : Q) : Qabs a <= A -> Qabs b <= B -> Qabs (a * b) <= A * B.
Proof.
  intros Ha Hb. rewrite Qabs_Qmult.
  pose proof (Qabs_nonneg a). pose proof (Qabs_nonneg b).
  apply (Qle_trans _ (Qabs a * B)).
  - rewrite !(Qmult_comm (Qabs a)). apply Qmult_le_compat_r; lra.
  - apply Qmult_le_compat_r; lra.
Qed.

Lemma Qabs_add_le (a b A B : Q) : Qabs a <= A -> Qabs b <= B -> Qabs (a + b) <= A + B.
Proof. intros Ha Hb. pose proof (Qabs_triangle a b). lra. Qed.

Lemma Qabs_shift (r v d V : Q) : Qabs (r - v) <= d -> Qabs v <= V -> Qabs r <= V + d.
Proof.
  intros H1 H2. apply Qabs_Qle_condition in H1. apply Qabs_Qle_condition in H2.
  apply Qabs_Qle_condition. lra.
Qed.

(** An operation whose exact result is at most [2^1023] in magnitude
    gives a finite number, off by the rounding error at most. *)
Lemma fl_ok (v V : Q) :
  Qabs v <= V -> V <= Binary64.pow2 1023 ->
  exists r, Binary64.fl v = Some r /\ Qabs (r - v) <= Binary64.eps * V + Binary64.eta.
Proof.
  intros Hv HV. pose proof (round64_error v) as He.
  assert (Hd : Qabs (Binary64.round64 v - v) <= Binary64.eps * V + Binary64.eta).
  { unfold Binary64.eps in *. lra. }
  exists (Binary64.round64 v). split; [| exact Hd].
  unfold Binary64.fl. cbv zeta.
  destruct (Qle_bool (Binary64.pow2 1024) (Qabs (Binary64.round64 v))) eqn:E; [| reflexivity].
  exfalso. apply Qle_bool_iff in E.
  pose proof (Qabs_shift _ _ _ _ Hd Hv) as Hr.
  assert (Hbig : Binary64.pow2 1023 + (Binary64.eps * Binary64.pow2 1023 + Binary64.eta) < Binary64.pow2 1024) by reflexivity.
  unfold Binary64.eps in *. lra.
Qed.

Lemma mul_ok (a' a b' b da db A B : Q) :
  Qabs (a' - a) <= da -> Qabs a <= A -> Qabs (b' - b) <= db -> Qabs b <= B ->
  (A + da) * (B + db) <= Binary64.pow2 1023 ->
  exists r, Binary64.fl (a' * b') = Some r /\
            Qabs (r - a * b) <= da * (B + db) + A * db + (Binary64.eps * ((A + da) * (B + db)) + Binary64.eta).
Proof.
  intros Ha HA Hb HB Hbig.
  pose proof (Qabs_shift _ _ _ _ Ha HA) as Ha'.
  pose proof (Qabs_shift _ _ _ _ Hb HB) as Hb'.
  destruct (fl_ok (a' * b') ((A + da) * (B + db))) as (r & Hr & Hd);
    [by apply Qabs_mul_le | exact Hbig |].
  exists r. split; [exact Hr |].
  assert (E : r - a * b == (r - a' * b') + ((a' - a) * b' + a * (b' - b))) by ring.
  rewrite E.
  apply (Qle_trans _ _ _ (Qabs_triangle _ _)).
  apply (Qle_trans _ ((Binary64.eps * ((A + da) * (B + db)) + Binary64.eta) + (da * (B + db) + A * db))); [| lra].
  apply Qplus_le_compat; [exact Hd |].
  apply Qabs_add_le; by apply Qabs_mul_le.
Qed.

Lemma add_ok (a' a b' b da db A B : Q) :
  Qabs (a' - a) <= da -> Qabs a <= A -> Qabs (b' - b) <= db -> Qabs b <= B ->
  (A + da) + (B + db) <= Binary64.pow2 1023 ->
  exists r, Binary64.fl (a' + b') = Some r /\
            Qabs (r - (a + b)) <= da + db + (Binary64.eps * ((A + da) + (B + db)) + Binary64.eta).
Proof.
  intros Ha HA Hb HB Hbig.
  pose proof (Qabs_shift _ _ _ _ Ha HA) as Ha'.
  pose proof (Qabs_shift _ _ _ _ Hb HB) as Hb'.
  destruct (fl_ok (a' + b') ((A + da) + (B + db))) as (r & Hr & Hd);
    [by apply Qabs_add_le | exact Hbig |].
  exists r. split; [exact Hr |].
  assert (E : r - (a + b) == (r - (a' + b')) + ((a' - a) + (b' - b))) by ring.
  rewrite E.
  apply (Qle_trans _ _ _ (Qabs_triangle _ _)).
  apply (Qle_trans _ ((Binary64.eps * ((A + da) + (B + db)) + Binary64.eta) + (da + db))); [| lra].
  apply Qplus_le_compat; [exact Hd |].
  by apply Qabs_add_le.
Qed.


Lemma eta_small : 0 < Binary64.eta /\ Binary64.eta <= 1 # 1152921504606846976.
Proof. split; reflexivity || (by vm_compute). Qed.

Lemma unit_interval_abs (t : Q) : 0 <= t -> t <= 1 -> Qabs t <= 1 /\ Qabs (1 - t) <= 1.
Proof. intros H0 H1. split; apply Qabs_Qle_condition; lra. Qed.

(** The five weights, each with its rounding error. *)
Lemma weights_ok (t : Q) :
  0 <= t -> t <= 1 ->
  exists u uu uuu tt ttt,
    Binary64.fl (1 - t) = Some u /\ Binary64.fl (u * u) = Some uu /\ Binary64.fl (uu * u) = Some uuu /\
    Binary64.fl (t * t) = Some tt /\ Binary64.fl (tt * t) = Some ttt /\
    Qabs (u - (1 - t)) <= Binary64.u52 /\
    Qabs (uu - (1 - t) * (1 - t)) <= 3 * Binary64.u52 /\
    Qabs (uuu - (1 - t) * (1 - t) * (1 - t)) <= 5 * Binary64.u52 /\
    Qabs (tt - t * t) <= Binary64.u52 /\
    Qabs (ttt - t * t * t) <= 2 * Binary64.u52.
Proof.
  intros H0 H1. destruct (unit_interval_abs t H0 H1) as [Ht HU].
  destruct eta_small as [He0 He1].
  assert (Hbig : 16 <= Binary64.pow2 1023) by (by vm_compute).
  assert (Hone : Qabs 1 <= 1) by (by vm_compute).
  assert (Et : Qabs (t - t) <= 0).
  { assert (E : t - t == 0) by ring. rewrite E. by vm_compute. }
  assert (Emt : Qabs (- t - - t) <= 0).
  { assert (E : - t - - t == 0) by ring. rewrite E. by vm_compute. }
  assert (E1 : Qabs (1 - 1) <= 0) by (by vm_compute).
  assert (Hmt : Qabs (- t) <= 1) by (by rewrite Qabs_opp).
  (* u *)
  destruct (fl_ok (1 - t) 1 HU) as (u & Fu & Du); [lra |].
  assert (Du' : Qabs (u - (1 - t)) <= Binary64.u52) by (unfold Binary64.eps, Binary64.u52 in *; lra).
  (* uu *)
  destruct (mul_ok u (1 - t) u (1 - t) Binary64.u52 Binary64.u52 1 1 Du' HU Du' HU) as (uu & Fuu & Duu);
    [unfold Binary64.u52; lra |].
  assert (Duu' : Qabs (uu - (1 - t) * (1 - t)) <= 3 * Binary64.u52) by (unfold Binary64.eps, Binary64.u52 in *; lra).
  assert (HUU : Qabs ((1 - t) * (1 - t)) <= 1).
  { pose proof (Qabs_mul_le _ _ _ _ HU HU). lra. }
  (* uuu *)
  destruct (mul_ok uu ((1 - t) * (1 - t)) u (1 - t) (3 * Binary64.u52) Binary64.u52 1 1 Duu' HUU Du' HU)
    as (uuu & Fuuu & Duuu); [unfold Binary64.u52; lra |].
  assert (Duuu' : Qabs (uuu - (1 - t) * (1 - t) * (1 - t)) <= 5 * Binary64.u52)
    by (unfold Binary64.eps, Binary64.u52 in *; lra).
  (* tt *)
  destruct (mul_ok t t t t 0 0 1 1 Et Ht Et Ht) as (tt & Ftt & Dtt); [lra |].
  assert (Dtt' : Qabs (tt - t * t) <= Binary64.u52) by (unfold Binary64.eps, Binary64.u52 in *; lra).
  assert (HTT : Qabs (t * t) <= 1).
  { pose proof (Qabs_mul_le _ _ _ _ Ht Ht). lra. }
  (* ttt *)
  destruct (mul_ok tt (t * t) t t Binary64.u52 0 1 1 Dtt' HTT Et Ht) as (ttt & Fttt & Dttt);
    [unfold Binary64.u52; lra |].
  assert (Dttt' : Qabs (ttt - t * t * t) <= 2 * Binary64.u52) by (unfold Binary64.eps, Binary64.u52 in *; lra).
  by exists u, uu, uuu, tt, ttt.
Qed.

Ltac bound_by := unfold Binary64.eps, Binary64.u52 in *; lra.

(** One coordinate: the blend of four values by the rounded weights is
    a finite number, off from the exact blend by the accumulated
    rounding error at most. *)
Lemma cubic_ok (t u uu uuu tt ttt p0' p1' p2' p3' p0 p1 p2 p3 M : Q) :
  0 <= t -> t <= 1 -> 0 <= M -> M <= Binary64.pow2 1000 ->
  Qabs (u - (1 - t)) <= Binary64.u52 ->
  Qabs (uu - (1 - t) * (1 - t)) <= 3 * Binary64.u52 ->
  Qabs (uuu - (1 - t) * (1 - t) * (1 - t)) <= 5 * Binary64.u52 ->
  Qabs (tt - t * t) <= Binary64.u52 ->
  Qabs (ttt - t * t * t) <= 2 * Binary64.u52 ->
  Qabs (p0' - p0) <= 2 * Binary64.u52 * M + 2 * Binary64.eta -> Qabs p0 <= M ->
  Qabs (p1' - p1) <= 2 * Binary64.u52 * M + 2 * Binary64.eta -> Qabs p1 <= M ->
  Qabs (p2' - p2) <= 2 * Binary64.u52 * M + 2 * Binary64.eta -> Qabs p2 <= M ->
  Qabs (p3' - p3) <= 2 * Binary64.u52 * M + 2 * Binary64.eta -> Qabs p3 <= M ->
  exists r,
    Binary64.cubic t u uu uuu tt ttt p0' p1' p2' p3' = Some r /\
    Qabs (r - ((1 - t) * (1 - t) * (1 - t) * p0 + 3 * ((1 - t) * (1 - t)) * t * p1
               + 3 * (1 - t) * (t * t) * p2 + t * t * t * p3))
    <= 64 * Binary64.u52 * M + 32 * Binary64.eta.
Proof.
  intros H0 H1 HM0 HM Du Duu Duuu Dtt Dttt D0 B0 D1 B1 D2 B2 D3 B3.
  destruct (unit_interval_abs t H0 H1) as [Ht HU].
  destruct eta_small as [He0 He1].
  assert (Hbig : 16 * Binary64.pow2 1000 + 16 <= Binary64.pow2 1023) by (by vm_compute).
  assert (Et : Qabs (t - t) <= 0).
  { assert (E : t - t == 0) by ring. rewrite E. by vm_compute. }
  assert (E3 : Qabs (3 - 3) <= 0) by (by vm_compute).
  assert (H3 : Qabs 3 <= 3) by (by vm_compute).
  assert (HUU : Qabs ((1 - t) * (1 - t)) <= 1).
  { pose proof (Qabs_mul_le _ _ _ _ HU HU). lra. }
  assert (HUUU : Qabs ((1 - t) * (1 - t) * (1 - t)) <= 1).
  { pose proof (Qabs_mul_le _ _ _ _ HUU HU). lra. }
  assert (HTT : Qabs (t * t) <= 1).
  { pose proof (Qabs_mul_le _ _ _ _ Ht Ht). lra. }
  assert (HTTT : Qabs (t * t * t) <= 1).
  { pose proof (Qabs_mul_le _ _ _ _ HTT Ht). lra. }
  assert (HB1 : Qabs (3 * ((1 - t) * (1 - t))) <= 3).
  { pose proof (Qabs_mul_le _ _ _ _ H3 HUU). lra. }
  assert (HB2 : Qabs (3 * ((1 - t) * (1 - t)) * t) <= 3).
  { pose proof (Qabs_mul_le _ _ _ _ HB1 Ht). lra. }
  assert (HC1 : Qabs (3 * (1 - t)) <= 3).
  { pose proof (Qabs_mul_le _ _ _ _ H3 HU). lra. }
  assert (HC2 : Qabs (3 * (1 - t) * (t * t)) <= 3).
  { pose proof (Qabs_mul_le _ _ _ _ HC1 HTT). lra. }
  unfold Binary64.cubic.
  (* a *)
  destruct (mul_ok uuu _ p0' p0 _ _ 1 M Duuu HUUU D0 B0) as (a & Fa & Da); [bound_by |].
  assert (Da' : Qabs (a - (1 - t) * (1 - t) * (1 - t) * p0) <= 8 * Binary64.u52 * M + 4 * Binary64.eta) by bound_by.
  assert (Ma : Qabs ((1 - t) * (1 - t) * (1 - t) * p0) <= M).
  { pose proof (Qabs_mul_le _ _ _ _ HUUU B0). lra. }
  rewrite Fa. cbn [mbind option_bind].
  (* b *)
  destruct (mul_ok 3 3 uu _ 0 _ 3 1 E3 H3 Duu HUU) as (b1 & Fb1 & Db1); [bound_by |].
  assert (Db1' : Qabs (b1 - 3 * ((1 - t) * (1 - t))) <= 11 * Binary64.u52) by bound_by.
  rewrite Fb1. cbn [mbind option_bind].
  destruct (mul_ok b1 _ t t _ 0 3 1 Db1' HB1 Et Ht) as (b2 & Fb2 & Db2); [bound_by |].
  assert (Db2' : Qabs (b2 - 3 * ((1 - t) * (1 - t)) * t) <= 13 * Binary64.u52) by bound_by.
  rewrite Fb2. cbn [mbind option_bind].
  destruct (mul_ok b2 _ p1' p1 _ _ 3 M Db2' HB2 D1 B1) as (b & Fb & Db); [bound_by |].
  assert (Db' : Qabs (b - 3 * ((1 - t) * (1 - t)) * t * p1) <= 21 * Binary64.u52 * M + 8 * Binary64.eta) by bound_by.
  assert (Mb : Qabs (3 * ((1 - t) * (1 - t)) * t * p1) <= 3 * M).
  { pose proof (Qabs_mul_le _ _ _ _ HB2 B1). lra. }
  rewrite Fb. cbn [mbind option_bind].
  (* c *)
  destruct (mul_ok 3 3 u _ 0 _ 3 1 E3 H3 Du HU) as (c1 & Fc1 & Dc1); [bound_by |].
  assert (Dc1' : Qabs (c1 - 3 * (1 - t)) <= 5 * Binary64.u52) by bound_by.
  rewrite Fc1. cbn [mbind option_bind].
  destruct (mul_ok c1 _ tt _ _ _ 3 1 Dc1' HC1 Dtt HTT) as (c2 & Fc2 & Dc2); [bound_by |].
  assert (Dc2' : Qabs (c2 - 3 * (1 - t) * (t * t)) <= 10 * Binary64.u52) by bound_by.
  rewrite Fc2. cbn [mbind option_bind].
  destruct (mul_ok c2 _ p2' p2 _ _ 3 M Dc2' HC2 D2 B2) as (c & Fc & Dc); [bound_by |].
  assert (Dc' : Qabs (c - 3 * (1 - t) * (t * t) * p2) <= 18 * Binary64.u52 * M + 8 * Binary64.eta) by bound_by.
  assert (Mc : Qabs (3 * (1 - t) * (t * t) * p2) <= 3 * M).
  { pose proof (Qabs_mul_le _ _ _ _ HC2 B2). lra. }
  rewrite Fc. cbn [mbind option_bind].
  (* d *)
  destruct (mul_ok ttt _ p3' p3 _ _ 1 M Dttt HTTT D3 B3) as (d & Fd & Dd); [bound_by |].
  assert (Dd' : Qabs (d - t * t * t * p3) <= 5 * Binary64.u52 * M + 4 * Binary64.eta) by bound_by.
  assert (Md : Qabs (t * t * t * p3) <= M).
  { pose proof (Qabs_mul_le _ _ _ _ HTTT B3). lra. }
  rewrite Fd. cbn [mbind option_bind].
  (* the three sums *)
  destruct (add_ok a _ b _ _ _ M (3 * M) Da' Ma Db' Mb) as (ab & Fab & Dab); [bound_by |].
  assert (Dab' : Qabs (ab - ((1 - t) * (1 - t) * (1 - t) * p0 + 3 * ((1 - t) * (1 - t)) * t * p1))
                 <= 32 * Binary64.u52 * M + 14 * Binary64.eta) by bound_by.
  pose proof (Qabs_add_le _ _ _ _ Ma Mb) as Mab.
  rewrite Fab. cbn [mbind option_bind].
  destruct (add_ok ab _ c _ _ _ _ (3 * M) Dab' Mab Dc' Mc) as (abc & Fabc & Dabc); [bound_by |].
  assert (Dabc' : Qabs (abc - ((1 - t) * (1 - t) * (1 - t) * p0 + 3 * ((1 - t) * (1 - t)) * t * p1
                               + 3 * (1 - t) * (t * t) * p2))
                  <= 54 * Binary64.u52 * M + 24 * Binary64.eta) by bound_by.
  pose proof (Qabs_add_le _ _ _ _ Mab Mc) as Mabc.
  rewrite Fabc. cbn [mbind option_bind].
  destruct (add_ok abc _ d _ _ _ _ M Dabc' Mabc Dd' Md) as (r & Fr & Dr); [bound_by |].
  exists r. split; [exact Fr |]. bound_by.
Qed.

Lemma fl_binary64 (v : Q) : binary64 v -> Binary64.fl v = Some (Binary64.round64 v).
Proof.
  intros [Hr Hf]. unfold Binary64.fl. cbv zeta.
  destruct (Qle_bool _ _) eqn:E; [| reflexivity].
  apply Qle_bool_iff in E. rewrite Hr in E. lra.
Qed.

Ltac fl_val x v :=
  replace (Binary64.fl x) with (Some v) by (by vm_compute); cbn [mbind option_bind].
Ltac fl_eq x y H :=
  rewrite (fl_proper x y) by ring; rewrite H; cbn [mbind option_bind].

(** With the weights of t = 0 the blend is its first value, and with
    those of t = 1 its last. *)
Lemma cubic_at_0 (p0 p1 p2 p3 : Q) :
  binary64 p0 ->
  Binary64.cubic 0 1 1 1 0 0 p0 p1 p2 p3 = Some (Binary64.round64 p0).
Proof.
  intros Hp. pose proof (fl_binary64 p0 Hp) as F0. destruct Hp as [Hr _].
  assert (Z0 : Binary64.fl 0 = Some 0) by (by vm_compute).
  unfold Binary64.cubic.
  fl_eq (1 * p0) p0 F0.
  fl_val (3 * 1) 3. fl_val (3 * 0) 0. fl_eq (0 * p1) 0 Z0.
  fl_val (3 * 1) 3. fl_val (3 * 0) 0. fl_eq (0 * p2) 0 Z0.
  fl_eq (0 * p3) 0 Z0.
  rewrite (fl_proper (Binary64.round64 p0 + 0) p0) by (rewrite Hr; ring).
  rewrite F0. cbn [mbind option_bind].
  rewrite (fl_proper (Binary64.round64 p0 + 0) p0) by (rewrite Hr; ring).
  rewrite F0. cbn [mbind option_bind].
  rewrite (fl_proper (Binary64.round64 p0 + 0) p0) by (rewrite Hr; ring).
  exact F0.
Qed.

Lemma cubic_at_1 (p0 p1 p2 p3 : Q) :
  binary64 p3 ->
  Binary64.cubic 1 0 0 0 1 1 p0 p1 p2 p3 = Some (Binary64.round64 p3).
Proof.
  intros Hp. pose proof (fl_binary64 p3 Hp) as F3. destruct Hp as [Hr _].
  assert (Z0 : Binary64.fl 0 = Some 0) by (by vm_compute).
  unfold Binary64.cubic.
  fl_eq (0 * p0) 0 Z0.
  fl_val (3 * 0) 0. fl_val (0 * 1) 0. fl_eq (0 * p1) 0 Z0.
  fl_val (3 * 0) 0. fl_val (0 * 1) 0. fl_eq (0 * p2) 0 Z0.
  fl_eq (1 * p3) p3 F3.
  fl_val (0 + 0) 0. fl_val (0 + 0) 0.
  rewrite (fl_proper (0 + Binary64.round64 p3) p3) by (rewrite Hr; ring).
  exact F3.
Qed.

(** The control abscissa [mx = (sx + tx) / 2]. *)
Lemma midpoint_ok (sx tx M : Q) :
  Qabs sx <= M -> Qabs tx <= M -> M <= Binary64.pow2 1000 ->
  exists s mx,
    Binary64.fl (sx + tx) = Some s /\ Binary64.fl (s / 2) = Some mx /\
    Qabs (mx - (sx + tx) / 2) <= 2 * Binary64.u52 * M + 2 * Binary64.eta /\
    Qabs ((sx + tx) / 2) <= M.
Proof.
  intros Bs Bt HM.
  assert (HM0 : 0 <= M) by (pose proof (Qabs_nonneg sx); lra).
  destruct eta_small as [He0 He1].
  assert (Hbig : 16 * Binary64.pow2 1000 + 16 <= Binary64.pow2 1023) by (by vm_compute).
  assert (Es : Qabs (sx - sx) <= 0).
  { assert (E : sx - sx == 0) by ring. rewrite E. by vm_compute. }
  assert (Et : Qabs (tx - tx) <= 0).
  { assert (E : tx - tx == 0) by ring. rewrite E. by vm_compute. }
  assert (Eh : Qabs (/ 2 - / 2) <= 0) by (by vm_compute).
  assert (Hh : Qabs (/ 2) <= 1 # 2) by (by vm_compute).
  destruct (add_ok sx sx tx tx 0 0 M M Es Bs Et Bt) as (s & Fs & Ds); [lra |].
  pose proof (Qabs_add_le _ _ _ _ Bs Bt) as Bst.
  destruct (mul_ok s (sx + tx) (/ 2) (/ 2) _ 0 _ (1 # 2) Ds Bst Eh Hh) as (mx & Fmx & Dmx);
    [bound_by |].
  exists s, mx. split; [exact Fs |]. split; [exact Fmx |]. split.
  - unfold Qdiv. bound_by.
  - unfold Qdiv. pose proof (Qabs_mul_le _ _ _ _ Bst Hh). lra.
Qed.

Lemma slack_eq (m : Q) : slack m == 64 * Binary64.u52 * m + 32 * Binary64.eta.
Proof.
  assert (E1 : Binary64.pow2 (-46) == 64 * Binary64.u52) by reflexivity.
  assert (E2 : Binary64.pow2 (-1070) == 32 * Binary64.eta) by reflexivity.
  unfold slack. rewrite E1, E2. ring.
Qed.

Lemma Qabs_zero_self (v : Q) : Qabs (v - v) <= 0.
Proof. assert (E : v - v == 0) by ring. rewrite E. by vm_compute. Qed.

(** C10 (as the code has it).  For coordinates of magnitude [2^1000] at
    most the program's [bezierPoint] returns, for every t in [0,1], a
    finite point; each coordinate is off from the exact convex
    combination of the endpoint coordinates by the rounding allowance at
    most, the exact combination lies between the endpoint coordinates,
    and so the returned coordinate lies between them widened by the
    allowance.  At t = 0 the returned point is the source and at t = 1
    the target, whenever these are binary64 values. *)
Theorem bezierPoint_in_box_up_to_rounding (sx sy tx ty : Q) :
  Qabs sx <= Binary64.pow2 1000 -> Qabs sy <= Binary64.pow2 1000 ->
  Qabs tx <= Binary64.pow2 1000 -> Qabs ty <= Binary64.pow2 1000 ->
  (forall t, 0 <= t -> t <= 1 ->
     exists p,
       Binary64.bezierPoint t sx sy tx ty = Some p /\
       Qabs (pt_x p - pt_x (bezierPoint t sx sy tx ty)) <= slack (Qmax (Qabs sx) (Qabs tx)) /\
       Qabs (pt_y p - pt_y (bezierPoint t sx sy tx ty)) <= slack (Qmax (Qabs sy) (Qabs ty)) /\
       (Qmin sx tx <= pt_x (bezierPoint t sx sy tx ty) <= Qmax sx tx) /\
       (Qmin sy ty <= pt_y (bezierPoint t sx sy tx ty) <= Qmax sy ty) /\
       (Qmin sx tx - slack (Qmax (Qabs sx) (Qabs tx)) <= pt_x p
        <= Qmax sx tx + slack (Qmax (Qabs sx) (Qabs tx))) /\
       (Qmin sy ty - slack (Qmax (Qabs sy) (Qabs ty)) <= pt_y p
        <= Qmax sy ty + slack (Qmax (Qabs sy) (Qabs ty)))) /\
  (binary64 sx -> binary64 sy ->
   exists p, Binary64.bezierPoint 0 sx sy tx ty = Some p /\ pt_x p == sx /\ pt_y p == sy) /\
  (binary64 tx -> binary64 ty ->
   exists p, Binary64.bezierPoint 1 sx sy tx ty = Some p /\ pt_x p == tx /\ pt_y p == ty).
Proof.
  intros Bsx Bsy Btx Bty.
  set (Mx := Qmax (Qabs sx) (Qabs tx)). set (My := Qmax (Qabs sy) (Qabs ty)).
  assert (Hsx : Qabs sx <= Mx) by apply Q.le_max_l.
  assert (Htx : Qabs tx <= Mx) by apply Q.le_max_r.
  assert (Hsy : Qabs sy <= My) by apply Q.le_max_l.
  assert (Hty : Qabs ty <= My) by apply Q.le_max_r.
  assert (HMx : Mx <= Binary64.pow2 1000) by (by apply Q.max_lub).
  assert (HMy : My <= Binary64.pow2 1000) by (by apply Q.max_lub).
  assert (HMx0 : 0 <= Mx) by (pose proof (Qabs_nonneg sx); lra).
  assert (HMy0 : 0 <= My) by (pose proof (Qabs_nonneg sy); lra).
  destruct eta_small as [He0 He1].
  destruct (midpoint_ok sx tx Mx Hsx Htx HMx) as (s & mx & Fs & Fmx & Dmx & Bmx).
  assert (Z : forall v m, 0 <= m -> Qabs (v - v) <= 2 * Binary64.u52 * m + 2 * Binary64.eta).
  { intros v m Hm. pose proof (Qabs_zero_self v). unfold Binary64.u52. lra. }
  split; [| split].
  - intros t H0 H1.
    destruct (weights_ok t H0 H1)
      as (u & uu & uuu & tt & ttt & Fu & Fuu & Fuuu & Ftt & Fttt & Du & Duu & Duuu & Dtt & Dttt).
    destruct (cubic_ok t u uu uuu tt ttt sx mx mx tx sx ((sx + tx) / 2) ((sx + tx) / 2) tx Mx
                H0 H1 HMx0 HMx Du Duu Duuu Dtt Dttt
                (Z sx Mx HMx0) Hsx Dmx Bmx Dmx Bmx (Z tx Mx HMx0) Htx) as (x & Fx & Dx).
    destruct (cubic_ok t u uu uuu tt ttt sy sy ty ty sy sy ty ty My
                H0 H1 HMy0 HMy Du Duu Duuu Dtt Dttt
                (Z sy My HMy0) Hsy (Z sy My HMy0) Hsy (Z ty My HMy0) Hty (Z ty My HMy0) Hty)
      as (y & Fy & Dy).
    exists (mkPoint x y).
    assert (Hp : Binary64.bezierPoint t sx sy tx ty = Some (mkPoint x y)).
    { unfold Binary64.bezierPoint.
      rewrite Fs. cbn [mbind option_bind]. rewrite Fmx. cbn [mbind option_bind].
      rewrite Fu. cbn [mbind option_bind]. rewrite Fuu. cbn [mbind option_bind].
      rewrite Fuuu. cbn [mbind option_bind]. rewrite Ftt. cbn [mbind option_bind].
      rewrite Fttt. cbn [mbind option_bind]. rewrite Fx. cbn [mbind option_bind].
      rewrite Fy. reflexivity. }
    assert (Cx : Qabs (x - pt_x (bezierPoint t sx sy tx ty)) <= slack Mx).
    { rewrite slack_eq. exact Dx. }
    assert (Cy : Qabs (y - pt_y (bezierPoint t sx sy tx ty)) <= slack My).
    { rewrite slack_eq. exact Dy. }
    assert (Ex : Qmin sx tx <= pt_x (bezierPoint t sx sy tx ty) <= Qmax sx tx).
    { rewrite bezier_x_convex. apply convex_between; by apply wx_range. }
    assert (Ey : Qmin sy ty <= pt_y (bezierPoint t sx sy tx ty) <= Qmax sy ty).
    { rewrite bezier_y_convex. apply convex_between; by apply wy_range. }
    cbn [pt_x pt_y].
    split; [exact Hp |]. split; [exact Cx |]. split; [exact Cy |].
    split; [exact Ex |]. split; [exact Ey |].
    apply Qabs_Qle_condition in Cx. apply Qabs_Qle_condition in Cy.
    split; lra.
  - intros Vx Vy. exists (mkPoint (Binary64.round64 sx) (Binary64.round64 sy)).
    split; [| split; [apply Vx | apply Vy]].
    unfold Binary64.bezierPoint.
    rewrite Fs. cbn [mbind option_bind]. rewrite Fmx. cbn [mbind option_bind].
    fl_val (1 - 0) 1. fl_val (1 * 1) 1. fl_val (1 * 1) 1. fl_val (0 * 0) 0. fl_val (0 * 0) 0.
    rewrite (cubic_at_0 sx mx mx tx Vx). cbn [mbind option_bind].
    rewrite (cubic_at_0 sy sy ty ty Vy). reflexivity.
  - intros Vx Vy. exists (mkPoint (Binary64.round64 tx) (Binary64.round64 ty)).
    split; [| split; [apply Vx | apply Vy]].
    unfold Binary64.bezierPoint.
    rewrite Fs. cbn [mbind option_bind]. rewrite Fmx. cbn [mbind option_bind].
    fl_val (1 - 1) 0. fl_val (0 * 0) 0. fl_val (0 * 0) 0. fl_val (1 * 1) 1. fl_val (1 * 1) 1.
    rewrite (cubic_at_1 sx mx mx tx Vx). cbn [mbind option_bind].
    rewrite (cubic_at_1 sy sy ty ty Vy). reflexivity.
Qed.

Lemma bezierPoint_in_box_up_to_rounding_witness :
  Qabs 295 <= Binary64.pow2 1000 /\ Qabs 150 <= Binary64.pow2 1000 /\
  Qabs 435 <= Binary64.pow2 1000 /\
  (forall t, 0 <= t -> t <= 1 ->
     exists p,
       Binary64.bezierPoint t 295 150 435 150 = Some p /\
       Qabs (pt_x p - pt_x (bezierPoint t 295 150 435 150)) <= slack (Qmax (Qabs 295) (Qabs 435)) /\
       Qabs (pt_y p - pt_y (bezierPoint t 295 150 435 150)) <= slack (Qmax (Qabs 150) (Qabs 150)) /\
       (Qmin 295 435 <= pt_x (bezierPoint t 295 150 435 150) <= Qmax 295 435) /\
       (Qmin 150 150 <= pt_y (bezierPoint t 295 150 435 150) <= Qmax 150 150) /\
       (Qmin 295 435 - slack (Qmax (Qabs 295) (Qabs 435)) <= pt_x p
        <= Qmax 295 435 + slack (Qmax (Qabs 295) (Qabs 435))) /\
       (Qmin 150 150 - slack (Qmax (Qabs 150) (Qabs 150)) <= pt_y p
        <= Qmax 150 150 + slack (Qmax (Qabs 150) (Qabs 150)))) /\
  (binary64 295 -> binary64 150 ->
   exists p, Binary64.bezierPoint 0 295 150 435 150 = Some p /\ pt_x p == 295 /\ pt_y p == 150) /\
  (binary64 435 -> binary64 150 ->
   exists p, Binary64.bezierPoint 1 295 150 435 150 = Some p /\ pt_x p == 435 /\ pt_y p == 150).
Proof.
  assert (H1 : Qabs 295 <= Binary64.pow2 1000) by (by vm_compute).
  assert (H2 : Qabs 150 <= Binary64.pow2 1000) by (by vm_compute).
  assert (H3 : Qabs 435 <= Binary64.pow2 1000) by (by vm_compute).
  split; [exact H1 |]. split; [exact H2 |]. split; [exact H3 |].
  exact (bezierPoint_in_box_up_to_rounding 295 150 435 150 H1 H2 H3 H2).
Defined.

(** C10, the claim as stated fails.  On the horizontal link from
    (295,150) to (435,150), at the binary64 value nearest to 0.3, the
    program returns y = 150 - 2^-45, below both endpoint ordinates. *)
Lemma bezierPoint_leaves_box_counterexample : ~ staysInBox.
Proof.
  intros H.
  assert (Vt : binary64 (5404319552844595 # 18014398509481984)) by (split; by vm_compute).
  assert (V1 : binary64 295) by (split; by vm_compute).
  assert (V2 : binary64 150) by (split; by vm_compute).
  assert (V3 : binary64 435) by (split; by vm_compute).
  assert (T0 : 0 <= 5404319552844595 # 18014398509481984) by (by vm_compute).
  assert (T1 : 5404319552844595 # 18014398509481984 <= 1) by (by vm_compute).
  destruct (H _ _ _ _ _ Vt V1 V2 V3 V2 T0 T1) as (p & Hp & _ & Hlo & _).
  clear H Vt V1 V2 V3 T0 T1.
  vm_compute in Hp. injection Hp as <-.
  vm_compute in Hlo. apply Hlo. reflexivity.
Qed.

(** On the same link the program's value, and what it returns when the
    sum of the abscissas is beyond the largest binary64 value. *)
Lemma bezierPoint_rounded_values :
  (exists p, Binary64.bezierPoint (5404319552844595 # 18014398509481984) 295 150 435 150 = Some p /\
             pt_y p == 150 - Binary64.pow2 (-45)) /\
  Binary64.bezierPoint (1 # 2) (Binary64.pow2 1023) 0 (Binary64.pow2 1023) 0 = None.
Proof.
  split; [| by vm_compute].
  eexists. split; [vm_compute; reflexivity |]. by vm_compute.
Qed.

(** The rounding of [Binary64] is that of the kernel's binary64
    numbers on the sample operands. *)
Lemma round64_matches_kernel_floats :
  Forall (fun ab => kernelAgrees (fst ab) (snd ab)) kernelSamples.
Proof. repeat constructor; vm_compute; reflexivity. Qed.

(** On the horizontal link the kernel's binary64 numbers give the
    ordinate that [Binary64.bezierPoint] gives. *)
Lemma kernel_floats_leave_box :
  let t := Binary64.toFloat (5404319552844595, -54)%Z in
  let y := Binary64.toFloat (150, 0)%Z in
  Binary64.ofFloat (Binary64.kernelCubic t y y y y)
  = pt_y <$> Binary64.bezierPoint (5404319552844595 # 18014398509481984) 295 150 435 150.
Proof. vm_compute. reflexivity. Qed.

(** ** The nearest-parameter search *)

Section NearestT.

Variables px py sx sy tx ty : Q.

Local Abbreviation dist_at t := (sqDist t px py sx sy tx ty).
Local Abbreviation samp := (sample px py sx sy tx ty).

Local Abbreviation settled := (settled px py sx sy tx ty).

Lemma sample_settled (b : Best) (t : Q) :
  0 <= t -> t <= 1 -> settled b ->
  settled (samp b t) /\ dist_at (bestT (samp b t)) <= dist_at (bestT b).
Proof.
  intros Ht0 Ht1 (Hr & Hd). unfold sample, settled. rewrite Hd.
  cbn [lt_best].
  destruct (Qlt_le_dec _ _) as [Hlt | Hge]; cbn [bestT bestDist].
  - repeat split; try assumption; try reflexivity.
    apply Qlt_le_weak; assumption.
  - repeat split; try assumption; try apply Hr. apply Qle_refl.
Qed.

Lemma fold_sample_settled (ts : list Q) (b : Best) :
  Forall (fun t => 0 <= t /\ t <= 1) ts -> settled b ->
  settled (fold_left samp ts b) /\
  dist_at (bestT (fold_left samp ts b)) <= dist_at (bestT b).
Proof.
  intros Hts. revert b. induction Hts as [| t ts [Ht0 Ht1] _ IH]; intros b Hb.
  - split; [exact Hb | apply Qle_refl].
  - cbn [fold_left].
    destruct (sample_settled b t Ht0 Ht1 Hb) as [Hs Hd].
    destruct (IH _ Hs) as [Hs' Hd'].
    split; [exact Hs' | eapply Qle_trans; eassumption].
Qed.

Lemma fold_left_map_params {A} (f : A -> Q) (l : list A) (b : Best) :
  fold_left (fun b' a => samp b' (f a)) l b = fold_left samp (map f l) b.
Proof. revert b. induction l as [| a l IH]; intros b; simpl; [reflexivity | apply IH]. Qed.

Lemma coarse_params_in_range :
  Forall (fun t => 0 <= t /\ t <= 1) (map (fun i => of_nat i / 40) (seq 0 41)).
Proof.
  apply Forall_forall. intros t Ht.
  assert (Hb : forallb (fun t => Qle_bool 0 t && Qle_bool t 1)
                       (map (fun i => of_nat i / 40) (seq 0 41)) = true)
    by (vm_compute; reflexivity).
  rewrite forallb_forall in Hb. apply list_elem_of_In in Ht.
  specialize (Hb t Ht). apply andb_true_iff in Hb as [H0 H1].
  split; apply Qle_bool_iff; assumption.
Qed.

Lemma of_nat_range (j n : nat) : (j <= n)%nat -> 0 <= of_nat j /\ of_nat j <= of_nat n.
Proof.
  intros Hj. unfold of_nat. split.
  - replace 0 with (inject_Z 0) by reflexivity. rewrite <- Zle_Qle. lia.
  - rewrite <- Zle_Qle. lia.
Qed.

Lemma refine_params_in_range (lo hi : Q) :
  0 <= lo -> lo <= hi -> hi <= 1 ->
  Forall (fun t => 0 <= t /\ t <= 1)
         (map (fun j => lo + (hi - lo) * of_nat j / 20) (seq 0 21)).
Proof.
  intros Hlo Hlh Hhi. apply Forall_forall. intros t Ht.
  apply list_elem_of_In, in_map_iff in Ht as (j & <- & Hj).
  apply in_seq in Hj.
  destruct (of_nat_range j 20) as [Hj0 Hj20]; [lia |].
  change (of_nat 20) with 20 in Hj20.
  assert (Hp : 0 <= (hi - lo) * of_nat j) by (apply Qmult_le_0_compat; lra).
  assert (Hq : 0 <= (hi - lo) * (20 - of_nat j)) by (apply Qmult_le_0_compat; lra).
  assert (E : (hi - lo) * of_nat j / 20 == (hi - lo) * of_nat j * (1 # 20)) by field.
  rewrite E. split; lra.
Qed.

Lemma fold_from_infinity (ts : list Q) (t0 : Q) :
  ts <> [] -> Forall (fun t => 0 <= t /\ t <= 1) ts ->
  settled (fold_left samp ts (mkBest t0 None)).
Proof.
  intros Hne Hts. destruct Hts as [| t ts [H0 H1] Hrest]; [congruence |].
  change (settled (fold_left samp ts (samp (mkBest t0 None) t))).
  apply fold_sample_settled; [exact Hrest |].
  unfold sample, settled. cbn [lt_best bestT bestDist].
  repeat split; assumption.
Qed.

Lemma coarse_settled : settled (coarsePass px py sx sy tx ty).
Proof.
  unfold coarsePass. rewrite fold_left_map_params.
  apply fold_from_infinity; [discriminate | apply coarse_params_in_range].
Qed.

Lemma refine_settled (b : Best) :
  settled b ->
  settled (refinePass px py sx sy tx ty b) /\
  dist_at (bestT (refinePass px py sx sy tx ty b)) <= dist_at (bestT b).
Proof.
  intros Hb. unfold refinePass. rewrite fold_left_map_params.
  apply fold_sample_settled; [| exact Hb].
  destruct Hb as ((H0 & H1) & _).
  assert (Hlo : Qmax 0 (bestT b - (25 # 1000)) <= bestT b).
  { apply Q.max_lub; lra. }
  assert (Hhi : bestT b <= Qmin 1 (bestT b + (25 # 1000))).
  { apply Q.min_glb; lra. }
  apply refine_params_in_range.
  - apply Q.le_max_l.
  - eapply Qle_trans; eassumption.
  - apply Q.le_min_l.
Qed.

Lemma mathRound_close (x : Q) :
  inject_Z (mathRound x) <= x + (1 # 2) /\ x - (1 # 2) < inject_Z (mathRound x).
Proof.
  unfold mathRound.
  pose proof (Qfloor_le (x + (1 # 2))) as Hle.
  pose proof (Qlt_floor (x + (1 # 2))) as Hlt.
  rewrite inject_Z_plus in Hlt. change (inject_Z 1) with 1 in Hlt.
  split; lra.
Qed.

Lemma round3_range (t : Q) :
  0 <= t -> t <= 1 ->
  (0 <= round3 t /\ round3 t <= 1) /\
  (- (1 # 2000) <= round3 t - t /\ round3 t - t <= 1 # 2000).
Proof.
  intros H0 H1. unfold round3.
  destruct (mathRound_close (t * 1000)) as [Hle Hlt].
  assert (Hk0 : (0 <= mathRound (t * 1000))%Z).
  { unfold mathRound. apply Z.le_trans with (Qfloor 0); [reflexivity |].
    apply Qfloor_resp_le. lra. }
  assert (Hk1 : (mathRound (t * 1000) <= 1000)%Z).
  { unfold mathRound. apply Z.le_trans with (Qfloor (1000 + (1 # 2))); [| reflexivity].
    apply Qfloor_resp_le. lra. }
  rewrite Zle_Qle in Hk0, Hk1. change (inject_Z 0) with 0 in Hk0.
  change (inject_Z 1000) with 1000 in Hk1.
  set (k := inject_Z (mathRound (t * 1000))) in *.
  assert (E : k / 1000 == k * (1 # 1000)) by field.
  rewrite E. repeat split; lra.
Qed.

End NearestT.

(** C5 (as the code has it). [nearestT] returns a multiple of 1/1000 in
    [0,1]; the parameter the refinement pass ends on is in [0,1] and its
    curve point is never farther from the query point than the best
    point of the coarse 40-subdivision pass; the returned value is that
    parameter rounded to three decimals, at most 1/2000 away from it. *)
Theorem nearestT_refinement_then_rounding (px py sx sy tx ty : Q) :
  let coarse := coarsePass px py sx sy tx ty in
  let fine := refinePass px py sx sy tx ty coarse in
  let r := nearestT px py sx sy tx ty in
  (0 <= r /\ r <= 1) /\
  (exists k : Z, (0 <= k <= 1000)%Z /\ r = inject_Z k / 1000) /\
  (0 <= bestT fine /\ bestT fine <= 1) /\
  sqDist (bestT fine) px py sx sy tx ty <= sqDist (bestT coarse) px py sx sy tx ty /\
  r = round3 (bestT fine) /\
  (- (1 # 2000) <= r - bestT fine /\ r - bestT fine <= 1 # 2000).
Proof.
  intros coarse fine r.
  pose proof (coarse_settled px py sx sy tx ty) as Hc. fold coarse in Hc.
  destruct (refine_settled px py sx sy tx ty coarse Hc) as [[Hr _] Hd].
  fold fine in Hr, Hd.
  assert (Er : r = round3 (bestT fine)) by reflexivity.
  clearbody r fine coarse. subst r.
  destruct (round3_range (bestT fine)) as [Hrange Hclose]; [apply Hr | apply Hr |].
  split; [exact Hrange |]. split.
  { exists (mathRound (bestT fine * 1000)). split; [| reflexivity].
    destruct Hr as [H0 H1]. unfold mathRound. split.
    - apply Z.le_trans with (Qfloor 0); [reflexivity |]. apply Qfloor_resp_le. lra.
    - apply Z.le_trans with (Qfloor (1000 + (1 # 2))); [| reflexivity].
      apply Qfloor_resp_le. lra. }
  split; [exact Hr |]. split; [exact Hd |]. split; [reflexivity | exact Hclose].
Qed.

(** C5, the claim as stated fails: for the query point (2982, 0) and the
    curve from (0,0) to (10000,0) the coarse pass stops on t = 0.25, the
    refinement on t = 0.2525, and the returned 0.253 is farther from the
    query point than the coarse best. *)
Lemma nearestT_rounding_counterexample :
  let coarse := coarsePass 2982 0 0 0 10000 0 in
  let r := nearestT 2982 0 0 0 10000 0 in
  bestT coarse == 1 # 4 /\
  bestT (refinePass 2982 0 0 0 10000 0 coarse) == 2525 # 10000 /\
  r == 253 # 1000 /\
  ~ (sqDist r 2982 0 0 0 10000 0 <= sqDist (bestT coarse) 2982 0 0 0 10000 0).
Proof.
  vm_compute. repeat split; try reflexivity. intros H; apply H; reflexivity.
Qed.

(** ** The comparator sort *)

Section SortFacts.

Context {A : Type} (key : A -> Z).

Lemma insertBy_perm (x : A) (l : list A) : insertBy key x l ≡ₚ x :: l.
Proof.
  induction l as [| y r IH]; simpl; [reflexivity |].
  destruct (key x <=? key y)%Z; [reflexivity |].
  rewrite IH. apply Permutation_swap.
Qed.

Lemma jsSort_perm (l : list A) : jsSort key l ≡ₚ l.
Proof.
  induction l as [| x r IH]; simpl; [reflexivity |].
  rewrite insertBy_perm. by f_equiv.
Qed.

Lemma elem_of_jsSort (x : A) (l : list A) : x ∈ jsSort key l <-> x ∈ l.
Proof. by rewrite jsSort_perm. Qed.

Lemma jsSort_length (l : list A) : length (jsSort key l) = length l.
Proof. by rewrite jsSort_perm. Qed.

Lemma jsSort_nil (l : list A) : jsSort key l = [] <-> l = [].
Proof.
  split; [| intros ->; reflexivity].
  intros H. apply Permutation_nil_r. rewrite <- H. symmetry. apply jsSort_perm.
Qed.

Lemma insertBy_sorted (x : A) (l : list A) :
  StronglySorted (fun a b => (key a <= key b)%Z) l ->
  StronglySorted (fun a b => (key a <= key b)%Z) (insertBy key x l).
Proof.
  induction 1 as [| y r Hr IH Hy]; simpl.
  - repeat constructor.
  - destruct (Z.leb_spec (key x) (key y)) as [Hle | Hgt].
    + constructor; [by constructor |].
      constructor; [exact Hle |].
      eapply Forall_impl; [exact Hy |]. intros z Hz; simpl in *; lia.
    + constructor; [exact IH |].
      rewrite insertBy_perm. constructor; [lia | exact Hy].
Qed.

Lemma jsSort_sorted (l : list A) :
  StronglySorted (fun a b => (key a <= key b)%Z) (jsSort key l).
Proof.
  induction l as [| x r IH]; simpl; [constructor | by apply insertBy_sorted].
Qed.

(** Stability: the elements of one key keep their relative order. *)
Lemma insertBy_same_key (k : Z) (x : A) (l : list A) :
  filter (fun y => key y = k) (insertBy key x l) = filter (fun y => key y = k) (x :: l).
Proof.
  induction l as [| y r IH]; simpl; [reflexivity |].
  destruct (Z.leb_spec (key x) (key y)) as [Hle | Hgt]; [reflexivity |].
  rewrite filter_cons, IH, !filter_cons.
  destruct (decide (key y = k)) as [Hy | Hy], (decide (key x = k)) as [Hx | Hx];
    try reflexivity.
  lia.
Qed.

Lemma jsSort_stable (k : Z) (l : list A) :
  filter (fun y => key y = k) (jsSort key l) = filter (fun y => key y = k) l.
Proof.
  induction l as [| x r IH]; simpl; [reflexivity |].
  rewrite insertBy_same_key, !filter_cons, IH. reflexivity.
Qed.

(** Any sorted, stable arrangement of a list is the one [jsSort]
    computes: the result does not depend on the sorting algorithm. *)
Lemma stable_sorted_unique (l1 l2 : list A) :
  StronglySorted (fun a b => (key a <= key b)%Z) l1 ->
  StronglySorted (fun a b => (key a <= key b)%Z) l2 ->
  (forall k, filter (fun y => key y = k) l1 = filter (fun y => key y = k) l2) ->
  l1 = l2.
Proof.
  intros H1. revert l2. induction H1 as [| x r1 Hr1 IH Hx]; intros l2 H2 Hsame.
  - destruct l2 as [| y r2]; [reflexivity |].
    specialize (Hsame (key y)). rewrite filter_nil, filter_cons_True in Hsame by reflexivity.
    discriminate.
  - destruct H2 as [| y r2 Hr2 Hy].
    { specialize (Hsame (key x)). rewrite filter_cons_True, filter_nil in Hsame by reflexivity.
      discriminate. }
    assert (Hxin : x ∈ y :: r2).
    { pose proof (Hsame (key x)) as E. rewrite filter_cons_True in E by reflexivity.
      assert (Hin : x ∈ filter (fun z => key z = key x) (y :: r2)) by (rewrite <- E; left).
      by apply list_elem_of_filter in Hin as [_ Hin]. }
    assert (Hyin : y ∈ x :: r1).
    { pose proof (Hsame (key y)) as E. rewrite (filter_cons_True _ y) in E by reflexivity.
      assert (Hin : y ∈ filter (fun z => key z = key y) (x :: r1)) by (rewrite E; left).
      by apply list_elem_of_filter in Hin as [_ Hin]. }
    assert (Hk : key x = key y).
    { rewrite Forall_forall in Hx, Hy.
      apply elem_of_cons in Hxin as [-> | Hxin]; [reflexivity |].
      apply elem_of_cons in Hyin as [-> | Hyin]; [reflexivity |].
      specialize (Hx y Hyin). specialize (Hy x Hxin). simpl in *. lia. }
    assert (Hxy : x = y).
    { pose proof (Hsame (key x)) as E.
      rewrite filter_cons_True, (filter_cons_True _ y) in E by (done || by symmetry).
      by injection E. }
    subst y. f_equal. apply IH; [exact Hr2 |].
    intros k. specialize (Hsame k). rewrite !filter_cons in Hsame.
    destruct (decide (key x = k)); [by injection Hsame | exact Hsame].
Qed.

Lemma jsSort_unique (l l' : list A) :
  StronglySorted (fun a b => (key a <= key b)%Z) l' ->
  (forall k, filter (fun y => key y = k) l' = filter (fun y => key y = k) l) ->
  l' = jsSort key l.
Proof.
  intros Hs Hst. apply stable_sorted_unique; [exact Hs | apply jsSort_sorted |].
  intros k. by rewrite jsSort_stable.
Qed.

End SortFacts.

(** ** The layout: when it is null, and the order of the bands *)

Lemma filter_nil_iff {A} (P : A -> Prop) `{!forall x, Decision (P x)} (l : list A) :
  filter P l = [] <-> forall x, x ∈ l -> ~ P x.
Proof.
  split.
  - intros Hnil x Hx HP. eapply filter_nil_not_elem_of; eauto.
  - intros Hall. induction l as [| y r IH]; [reflexivity |].
    rewrite filter_cons_False; [| apply Hall; left].
    apply IH. intros x Hx. apply Hall. by right.
Qed.

Lemma filterGroups_eq (s : State) :
  filterGroups s = filter (visibleGroup s) (jsSort groupKey (groups s)).
Proof.
  unfold filterGroups. destruct (visibleGroupIds s) as [ids |] eqn:E.
  - apply list_filter_iff. intros g. unfold visibleGroup. by rewrite E.
  - change (fun g => sortKey (g_sort_order g)) with groupKey.
    induction (jsSort groupKey (groups s)) as [| g r IH]; [reflexivity |].
    rewrite filter_cons_True; [by f_equal |]. unfold visibleGroup. by rewrite E.
Qed.

Lemma filterGroups_nil (s : State) :
  filterGroups s = [] <->
  groups s = [] \/
  exists ids, visibleGroupIds s = Some ids /\ forall g, g ∈ groups s -> g_id g ∉ ids.
Proof.
  unfold filterGroups. destruct (visibleGroupIds s) as [ids |].
  - rewrite filter_nil_iff. split.
    + intros H. right. exists ids. split; [reflexivity |].
      intros g Hg. apply H. by apply elem_of_jsSort.
    + intros [Hnil | (ids' & [= <-] & H)] g Hg.
      * rewrite Hnil in Hg. simpl in Hg. by apply not_elem_of_nil in Hg.
      * apply H. by apply elem_of_jsSort in Hg.
  - rewrite jsSort_nil. split; [by left |]. intros [H | (ids & [=] & _)]. exact H.
Qed.

(** C8. [calculateTreeLayout] returns null exactly when the group
    collection is empty, or the step collection is empty, or a visibility
    filter is set that excludes every group; on every other state it
    returns a layout.  (The function is total: it has no failing path.) *)
Theorem calculateTreeLayout_null_iff (s : State) :
  (calculateTreeLayout s = None <-> nothingToLayOut s) /\
  (is_Some (calculateTreeLayout s) <-> ~ nothingToLayOut s).
Proof.
  assert (H : calculateTreeLayout s = None <-> nothingToLayOut s).
  { unfold calculateTreeLayout, nothingToLayOut.
    destruct (decide (groups s = [] \/ steps s = [])) as [Hempty | Hne].
    - split; [intros _ | reflexivity]. destruct Hempty; auto.
    - destruct (decide (filterGroups s = [])) as [Hf | Hf].
      + split; [intros _ | reflexivity].
        apply filterGroups_nil in Hf as [Hg | Hx]; auto.
      + split; [discriminate |]. intros [Hg | [Hs | Hx]].
        * exfalso; apply Hne; by left.
        * exfalso; apply Hne; by right.
        * exfalso; apply Hf, filterGroups_nil; by right. }
  split; [exact H |].
  rewrite <- H. destruct (calculateTreeLayout s); split.
  - intros _ [=].
  - intros _. by eexists.
  - intros [x [=]].
  - intros Hn. by destruct Hn.
Qed.

Lemma StronglySorted_filter {A} (R : A -> A -> Prop) (P : A -> Prop)
    `{!forall x, Decision (P x)} (l : list A) :
  StronglySorted R l -> StronglySorted R (filter P l).
Proof.
  induction 1 as [| x r Hr IH Hx]; [constructor |].
  rewrite filter_cons. destruct (decide (P x)); [| exact IH].
  constructor; [exact IH |].
  apply Forall_forall. intros y Hy. apply list_elem_of_filter in Hy as [_ Hy].
  rewrite Forall_forall in Hx. by apply Hx.
Qed.

Lemma filter_comm {A} (P1 P2 : A -> Prop)
    `{!forall x, Decision (P1 x), !forall x, Decision (P2 x)} (l : list A) :
  filter P1 (filter P2 l) = filter P2 (filter P1 l).
Proof. rewrite !list_filter_filter. apply list_filter_iff. tauto. Qed.

Lemma forEachFrom_snoc {A B} (g : A -> nat -> B) (l : list A) (i : nat) (ns : list B) :
  forEachFrom (fun ns a k => ns ++ [g a k]) l i ns = ns ++ imap (fun k a => g a (i + k)%nat) l.
Proof.
  revert i ns. induction l as [| a r IH]; intros i ns; simpl.
  - by rewrite app_nil_r.
  - rewrite IH, <- app_assoc. simpl. rewrite Nat.add_0_r. do 2 f_equal.
    apply imap_ext. intros k x _. simpl. f_equal. lia.
Qed.

Section LayoutFacts.

Variable s : State.
Variable n : nat.

Lemma pushStepNodes_eq (grp : Group) (gi : nat) (y0 : Q) (gSteps : list Step) (ns : list Node) :
  pushStepNodes s grp gi y0 gSteps ns
  = ns ++ imap (fun si step => stepNode s grp gi y0 step si) gSteps.
Proof.
  unfold pushStepNodes, forEachI. rewrite forEachFrom_snoc. f_equal.
Qed.

Lemma lanes_forEachFrom (l : list Group) (i : nat) (acc : Acc) :
  sl_grp <$> lanes (forEachFrom (layoutGroup s n) l i acc) = (sl_grp <$> lanes acc) ++ l /\
  sl_gi <$> lanes (forEachFrom (layoutGroup s n) l i acc)
  = (sl_gi <$> lanes acc) ++ seq i (length l).
Proof.
  revert i acc. induction l as [| g r IH]; intros i acc; simpl.
  - by rewrite !app_nil_r.
  - destruct (IH (S i) (layoutGroup s n acc g i)) as [-> ->].
    simpl. rewrite !fmap_app, <- !app_assoc. done.
Qed.

End LayoutFacts.

Lemma calculateTreeLayout_Some (s : State) (lay : LayoutResult) :
  calculateTreeLayout s = Some lay ->
  let fg := filterGroups s in
  let acc := forEachI (layoutGroup s (length fg)) fg (mkAcc [] [] [] (topPad + headerH)) in
  groups s <> [] /\ steps s <> [] /\ fg <> [] /\
  nodes lay = allNodes acc
              ++ [rootNode s (length fg)
                    (match midpoint (n_y <$> filter (fun nd => n_kind nd = KGroup) (allNodes acc)) with
                     | Some m => m
                     | None => topPad + headerH
                     end)] /\
  links lay = allLinks acc /\
  swimlanes lay = lanes acc /\
  sortedGroups lay = fg /\
  stepColX lay = stepColumnX.
Proof.
  unfold calculateTreeLayout.
  destruct (decide (groups s = [] \/ steps s = [])) as [| Hne]; [discriminate |].
  destruct (decide (filterGroups s = [])) as [| Hf]; [discriminate |].
  intros [= <-]. simpl. repeat split; try done.
  - intros H; apply Hne; by left.
  - intros H; apply Hne; by right.
Qed.

(** C2 (as the code has it). The bands follow the groups sorted by sort
    key by a stable sort: band [i] belongs to the [i]-th group of the
    sorted, filtered list; that list is in non-decreasing key order, and
    the groups of one sort key keep the relative order they have in the
    input collection; the visibility filter removes groups without
    reordering the others. *)
Theorem bands_follow_stable_sort (s : State) (lay : LayoutResult) :
  calculateTreeLayout s = Some lay ->
  sortedGroups lay = filter (visibleGroup s) (jsSort groupKey (groups s)) /\
  sl_grp <$> swimlanes lay = sortedGroups lay /\
  sl_gi <$> swimlanes lay = seq 0 (length (sortedGroups lay)) /\
  StronglySorted (fun a b => (groupKey a <= groupKey b)%Z) (sortedGroups lay) /\
  (forall k : Z,
      filter (fun g => groupKey g = k) (sortedGroups lay)
      = filter (fun g => groupKey g = k) (filter (visibleGroup s) (groups s))).
Proof.
  intros H. apply calculateTreeLayout_Some in H as (_ & _ & _ & _ & _ & Hl & Hg & _).
  rewrite Hl, Hg. unfold forEachI.
  destruct (lanes_forEachFrom s (length (filterGroups s)) (filterGroups s) 0
              (mkAcc [] [] [] (topPad + headerH))) as [E1 E2].
  rewrite E1, E2. simpl. rewrite filterGroups_eq.
  repeat split; try reflexivity.
  - apply StronglySorted_filter, jsSort_sorted.
  - intros k.
    rewrite !(filter_comm (fun g => groupKey g = k) (visibleGroup s)).
    f_equal. apply jsSort_stable.
Qed.

Lemma bands_follow_stable_sort_witness :
  exists lay,
    calculateTreeLayout tiedGroups = Some lay /\
    sortedGroups lay = filter (visibleGroup tiedGroups) (jsSort groupKey (groups tiedGroups)) /\
    sl_grp <$> swimlanes lay = sortedGroups lay /\
    sl_gi <$> swimlanes lay = seq 0 (length (sortedGroups lay)) /\
    StronglySorted (fun a b => (groupKey a <= groupKey b)%Z) (sortedGroups lay) /\
    (forall k : Z,
        filter (fun g => groupKey g = k) (sortedGroups lay)
        = filter (fun g => groupKey g = k) (filter (visibleGroup tiedGroups) (groups tiedGroups))).
Proof.
  eexists. split; [vm_compute; reflexivity |].
  apply (bands_follow_stable_sort tiedGroups). vm_compute; reflexivity.
Defined.

(** C2, the claim as stated fails: groups 2 and 1 have the same sort key
    and are listed in that order; group 2 gets band 0 and group 1 band 1,
    so the smaller identifier does not get the earlier band. *)
Lemma tie_keeps_input_order_counterexample : ~ tieBreakByIdentifier tiedGroups.
Proof.
  intros H.
  destruct (calculateTreeLayout tiedGroups) as [lay |] eqn:E; [| vm_compute in E; discriminate].
  assert (Hs : exists y1 h1 y2 h2,
             swimlanes lay = [mkSwimlane (mkGroup 2 "B" (Some 1%Z)) 0 y1 h1 1;
                              mkSwimlane (mkGroup 1 "A" (Some 1%Z)) 1 y2 h2 1]).
  { pose proof E as E'. vm_compute in E'. injection E' as <-.
    do 4 eexists. reflexivity. }
  destruct Hs as (y1 & h1 & y2 & h2 & Hs).
  specialize (H lay (mkSwimlane (mkGroup 1 "A" (Some 1%Z)) 1 y2 h2 1)
                (mkSwimlane (mkGroup 2 "B" (Some 1%Z)) 0 y1 h1 1) E).
  rewrite Hs in H. cbn in H.
  assert (Hlt : (1 < 0)%nat); [| lia].
  apply H; try reflexivity; try lia.
  - apply list_elem_of_In. right; left. reflexivity.
  - apply list_elem_of_In. left. reflexivity.
Qed.

(** ** What a drag leaves alone *)

Lemma skel_set_y (v : Q) (n : Node) : skel (set_y v n) = skel n.
Proof. reflexivity. Qed.

Lemma fmap_alter_absorb {A B} (f : A -> B) (g : A -> A) (i : nat) (l : list A) :
  (forall x, f (g x) = f x) -> f <$> alter g i l = f <$> l.
Proof.
  intros Hfg. revert i. induction l as [| x r IH]; intros [| i]; try reflexivity.
  - cbn. by rewrite Hfg.
  - cbn. f_equal. apply IH.
Qed.

Lemma insert_as_alter {A} (g : A -> A) (i : nat) (l : list A) (x : A) :
  l !! i = Some x -> <[i := g x]> l = alter g i l.
Proof.
  revert i. induction l as [| y r IH]; intros [| i] H; simpl in *; try discriminate.
  - by injection H as ->.
  - f_equal. by apply IH.
Qed.

Lemma skel_recenterGroup (gid : option Z) (ns : list Node) :
  skel <$> recenterGroup gid ns = skel <$> ns.
Proof.
  unfold recenterGroup.
  destruct (list_find _ ns) as [[j g] |]; [| reflexivity].
  destruct (midpoint _); [| reflexivity].
  apply fmap_alter_absorb. intros x. apply skel_set_y.
Qed.

Lemma skel_recenterRoot (ns : list Node) : skel <$> recenterRoot ns = skel <$> ns.
Proof.
  unfold recenterRoot.
  destruct (list_find _ ns) as [[j g] |]; [| reflexivity].
  destruct (midpoint _); [| reflexivity].
  apply fmap_alter_absorb. intros x. apply skel_set_y.
Qed.

Lemma drag_nodes (i : nat) (y : Q) (a : App) :
  _allNodes (view (drag i y a))
  = match _allNodes (view a) !! i with
    | Some d0 =>
        match n_kind d0 with
        | KStep => recenterRoot (recenterGroup (n_groupId d0)
                                   (alter (set_y y) i (_allNodes (view a))))
        | _ => _allNodes (view a)
        end
    | None => _allNodes (view a)
    end.
Proof.
  unfold drag. destruct (_allNodes (view a) !! i) as [d0 |] eqn:E; [| reflexivity].
  destruct (n_kind d0); try reflexivity.
  rewrite (insert_as_alter (set_y y) i _ d0 E).
  cbn [st setLayoutDirty showPartNodes].
  destruct (showPartNodes (st a)); reflexivity.
Qed.

Lemma skel_drag (i : nat) (y : Q) (a : App) :
  skel <$> _allNodes (view (drag i y a)) = skel <$> _allNodes (view a).
Proof.
  rewrite drag_nodes.
  destruct (_allNodes (view a) !! i) as [d0 |]; [| reflexivity].
  destruct (n_kind d0); try reflexivity.
  rewrite skel_recenterRoot, skel_recenterGroup.
  apply fmap_alter_absorb. intros x. apply skel_set_y.
Qed.

Lemma skel_drags (ds : list (nat * Q)) (a : App) :
  skel <$> _allNodes (view (drags ds a)) = skel <$> _allNodes (view a).
Proof.
  revert a. induction ds as [| [i y] ds IH]; intros a; [reflexivity |].
  unfold drags in *. simpl. rewrite IH. apply skel_drag.
Qed.

Lemma forEachFrom_inv {A T} (f : T -> A -> nat -> T) (P : T -> Prop) (l : list A) (i : nat) (s0 : T) :
  (forall acc a k, a ∈ l -> P acc -> P (f acc a k)) -> P s0 -> P (forEachFrom f l i s0).
Proof.
  revert i s0. induction l as [| a r IH]; intros i s0 Hstep H0; simpl; [exact H0 |].
  apply IH.
  - intros acc b k Hb. apply Hstep. by right.
  - apply Hstep; [by left | exact H0].
Qed.

Lemma allNodes_layoutGroup (s : State) (n : nat) (acc : Acc) (grp : Group) (gi : nat) :
  allNodes (layoutGroup s n acc grp gi)
  = allNodes acc
    ++ imap (fun si step => stepNode s grp gi (curY acc) step si) (groupSteps s grp)
    ++ [groupNode s n grp gi
          (groupYOf (stepYsOf (groupSteps s grp)
                       (allNodes acc
                        ++ imap (fun si step => stepNode s grp gi (curY acc) step si)
                             (groupSteps s grp)))
                    (curY acc) (swimHeight s (groupSteps s grp)))
          (length (groupSteps s grp))].
Proof.
  unfold layoutGroup. cbn [allNodes]. rewrite pushStepNodes_eq, <- app_assoc. reflexivity.
Qed.

Lemma renderGraph_nodes (s : State) (v0 : View) (lay : LayoutResult) :
  calculateTreeLayout s = Some lay ->
  _allNodes (view (renderGraph (mkApp s v0))) = nodes lay.
Proof.
  intros H. pose proof (calculateTreeLayout_Some s lay H) as (_ & Hs & _).
  unfold renderGraph. cbn [st view].
  destruct (decide (steps s = [])); [contradiction |].
  rewrite H. reflexivity.
Qed.

Lemma layout_step_column (s : State) (lay : LayoutResult) :
  calculateTreeLayout s = Some lay ->
  forall nd, nd ∈ nodes lay -> n_kind nd = KStep -> n_x nd = stepColumnX.
Proof.
  intros H. apply calculateTreeLayout_Some in H as (_ & _ & _ & Hn & _).
  rewrite Hn. intros nd Hnd Hk.
  apply elem_of_app in Hnd as [Hnd | Hnd].
  - revert nd Hnd Hk. unfold forEachI.
    apply (forEachFrom_inv (layoutGroup s (length (filterGroups s)))
             (fun acc => forall nd, nd ∈ allNodes acc -> n_kind nd = KStep -> n_x nd = stepColumnX)).
    + intros acc g k _ IH nd Hnd Hk. rewrite allNodes_layoutGroup in Hnd.
      apply elem_of_app in Hnd as [Hnd | Hnd]; [by apply IH |].
      apply elem_of_app in Hnd as [Hnd | Hnd].
      * apply elem_of_lookup_imap in Hnd as (si & step & -> & _). reflexivity.
      * apply list_elem_of_singleton in Hnd as ->. discriminate.
    + intros nd Hnd. by apply not_elem_of_nil in Hnd.
  - apply list_elem_of_singleton in Hnd as ->. discriminate.
Qed.

(** C6. Column lock: no drag changes the x of any node, and after any
    sequence of drags on the rendered layout every step node still has
    the one step-column x that the layout gave to all bands. *)
Theorem column_lock (s : State) (v0 : View) (lay : LayoutResult) (ds : list (nat * Q)) :
  calculateTreeLayout s = Some lay ->
  (forall i y a, n_x <$> _allNodes (view (drag i y a)) = n_x <$> _allNodes (view a)) /\
  stepColX lay = stepColumnX /\
  (forall nd, nd ∈ _allNodes (view (drags ds (renderGraph (mkApp s v0)))) ->
              n_kind nd = KStep -> n_x nd = stepColX lay).
Proof.
  intros H. split; [| split].
  - intros i y a.
    change (n_x <$> _allNodes (view (drag i y a))) with ((n_x ∘ skel) <$> _allNodes (view (drag i y a))).
    change (n_x <$> _allNodes (view a)) with ((n_x ∘ skel) <$> _allNodes (view a)).
    by rewrite !list_fmap_compose, skel_drag.
  - by apply calculateTreeLayout_Some in H as (_ & _ & _ & _ & _ & _ & _ & ->).
  - intros nd Hnd Hk.
    assert (Hsk : skel nd ∈ skel <$> _allNodes (view (drags ds (renderGraph (mkApp s v0)))))
      by (by apply list_elem_of_fmap_2).
    rewrite skel_drags, (renderGraph_nodes s v0 lay H) in Hsk.
    apply list_elem_of_fmap in Hsk as (nd0 & Heq & Hnd0).
    assert (Hx : n_x nd = n_x nd0) by (change (n_x (skel nd) = n_x (skel nd0)); by rewrite Heq).
    assert (Hk0 : n_kind nd0 = KStep).
    { change (n_kind (skel nd0) = KStep). rewrite <- Heq. exact Hk. }
    rewrite Hx. apply calculateTreeLayout_Some in H as Hs.
    destruct Hs as (_ & _ & _ & _ & _ & _ & _ & ->).
    by apply (layout_step_column s lay H).
Qed.

Lemma column_lock_witness :
  exists lay,
    calculateTreeLayout threeBands = Some lay /\
    ((forall i y a, n_x <$> _allNodes (view (drag i y a)) = n_x <$> _allNodes (view a)) /\
     stepColX lay = stepColumnX /\
     (forall nd,
         nd ∈ _allNodes (view (drags [(2%nat, 1000); (0%nat, 40)]
                                     (renderGraph (mkApp threeBands emptyView)))) ->
         n_kind nd = KStep -> n_x nd = stepColX lay)).
Proof.
  eexists. split; [vm_compute; reflexivity |].
  apply (column_lock threeBands emptyView _ [(2%nat, 1000); (0%nat, 40)]).
  vm_compute; reflexivity.
Defined.

(** ** Recentering *)

Lemma set_y_same (n : Node) : set_y (n_y n) n = n.
Proof. by destruct n. Qed.

Lemma ignoresY_isGroupOf gid : ignoresY (isGroupOf gid).
Proof. intros n v. reflexivity. Qed.
Lemma ignoresY_isStepOf gid : ignoresY (isStepOf gid).
Proof. intros n v. reflexivity. Qed.
Lemma ignoresY_isGroup : ignoresY isGroup.
Proof. intros n v. reflexivity. Qed.
Lemma ignoresY_isRoot : ignoresY isRoot.
Proof. intros n v. reflexivity. Qed.

Create HintDb recenter.
#[local] Hint Resolve ignoresY_isGroupOf ignoresY_isStepOf ignoresY_isGroup ignoresY_isRoot : recenter.

Lemma recenterGroup_with (gid : option Z) (ns : list Node) :
  recenterGroup gid ns = recenterWith (isGroupOf gid) (isStepOf gid) ns.
Proof. reflexivity. Qed.

Lemma recenterRoot_with (ns : list Node) : recenterRoot ns = recenterWith isRoot isGroup ns.
Proof. reflexivity. Qed.

Section FindAndFilter.

Context (P : Node -> Prop) `{!forall x, Decision (P x)} (HP : ignoresY P).

Lemma filter_alter_other (j : nat) (v : Q) (l : list Node) :
  (forall x, l !! j = Some x -> ~ P x) ->
  filter P (alter (set_y v) j l) = filter P l.
Proof using HP.
  unfold ignoresY in HP.
  revert j. induction l as [| x r IH]; intros [| j] Hj; try reflexivity.
  - cbn [alter list_alter]. rewrite !filter_cons_False; [reflexivity | |].
    + by apply Hj.
    + rewrite HP. by apply Hj.
  - cbn [alter list_alter]. rewrite !filter_cons. rewrite (IH j); [reflexivity |].
    intros y Hy. by apply Hj.
Qed.

Lemma list_find_alter (j : nat) (v : Q) (l : list Node) (k : nat) (x : Node) :
  list_find P l = Some (k, x) ->
  list_find P (alter (set_y v) j l) = Some (k, if decide (j = k) then set_y v x else x).
Proof using HP.
  unfold ignoresY in HP.
  rewrite !list_find_Some. intros (Hk & HPx & Hmin). split; [| split].
  - rewrite list_lookup_alter. destruct (decide (j = k)) as [-> |]; [| exact Hk].
    by rewrite Hk.
  - destruct (decide (j = k)); [by apply HP | exact HPx].
  - intros j' y Hy Hlt. rewrite list_lookup_alter in Hy.
    destruct (decide (j = j')) as [-> |]; [| by eapply Hmin].
    destruct (l !! j') as [y0 |] eqn:E; [| discriminate]. injection Hy as <-.
    rewrite HP. by eapply Hmin.
Qed.

Lemma list_find_alter_None (j : nat) (v : Q) (l : list Node) :
  list_find P l = None -> list_find P (alter (set_y v) j l) = None.
Proof using HP.
  unfold ignoresY in HP.
  rewrite !list_find_None, !Forall_lookup. intros Hall k y Hy.
  rewrite list_lookup_alter in Hy.
  destruct (decide (j = k)) as [-> |]; [| by eapply Hall].
  destruct (l !! k) as [y0 |] eqn:E; [| discriminate]. injection Hy as <-.
  rewrite HP. by eapply Hall.
Qed.

Lemma list_find_alter_inv (j : nat) (v : Q) (l : list Node) (k : nat) (x' : Node) :
  list_find P (alter (set_y v) j l) = Some (k, x') ->
  exists x, list_find P l = Some (k, x) /\ x' = if decide (j = k) then set_y v x else x.
Proof using HP.
  intros Hf. destruct (list_find P l) as [[k0 x0] |] eqn:E.
  - rewrite (list_find_alter j v l k0 x0 E) in Hf. injection Hf as <- <-. by exists x0.
  - rewrite (list_find_alter_None j v l E) in Hf. discriminate.
Qed.

End FindAndFilter.

Section Recenter.

Context (T S : Node -> Prop) `{!forall x, Decision (T x)} `{!forall x, Decision (S x)}.
Context (HT : ignoresY T) (HS : ignoresY S) (Hdisj : forall x, T x -> ~ S x).

Lemma recenterWith_cases (ns : list Node) :
  recenterWith T S ns = ns \/
  exists j x m, list_find T ns = Some (j, x) /\
                midpoint (n_y <$> filter S ns) = Some m /\
                recenterWith T S ns = alter (set_y m) j ns.
Proof.
  unfold recenterWith. destruct (list_find T ns) as [[j x] |] eqn:E; [| by left].
  destruct (midpoint _) as [m |] eqn:Em; [| by left].
  right. by exists j, x, m.
Qed.

(** Recentering changes no node outside [T]. *)
Lemma recenterWith_lookup_other (ns : list Node) (k : nat) (x : Node) :
  ns !! k = Some x -> ~ T x -> recenterWith T S ns !! k = Some x.
Proof.
  intros Hk HnT. destruct (recenterWith_cases ns) as [-> | (j & x0 & m & Hf & _ & ->)]; [exact Hk |].
  rewrite list_lookup_alter_ne; [exact Hk |].
  intros ->. apply list_find_Some in Hf as (Hj & HTx & _). congruence.
Qed.

Lemma recenterWith_filter (Q : Node -> Prop) `{!forall x, Decision (Q x)} (ns : list Node) :
  ignoresY Q -> (forall x, T x -> ~ Q x) ->
  filter Q (recenterWith T S ns) = filter Q ns.
Proof.
  intros HQ HTQ. destruct (recenterWith_cases ns) as [-> | (j & x0 & m & Hf & _ & ->)]; [reflexivity |].
  apply filter_alter_other; [exact HQ |].
  apply list_find_Some in Hf as (Hj & HTx & _).
  intros x Hx. apply HTQ. congruence.
Qed.

Lemma recenterWith_centered (ns : list Node) : centered T S (recenterWith T S ns).
Proof using HT HS Hdisj.
  intros j x m Hf Hm.
  rewrite (recenterWith_filter S ns HS Hdisj) in Hm.
  unfold recenterWith in Hf.
  destruct (list_find T ns) as [[j0 x0] |] eqn:E.
  - rewrite Hm in Hf. rewrite (list_find_alter T HT j0 m ns j0 x0 E) in Hf.
    rewrite decide_True in Hf by reflexivity. by injection Hf as <- <-.
  - rewrite E in Hf. discriminate.
Qed.

Lemma centered_fixed (ns : list Node) : centered T S ns -> recenterWith T S ns = ns.
Proof.
  intros Hc. unfold recenterWith.
  destruct (list_find T ns) as [[j x] |] eqn:E; [| reflexivity].
  destruct (midpoint _) as [m |] eqn:Em; [| reflexivity].
  rewrite <- (Hc j x m E Em).
  apply list_find_Some in E as (Hj & _).
  rewrite <- (insert_as_alter (set_y (n_y x)) j ns x Hj), set_y_same.
  by apply list_insert_id.
Qed.

End Recenter.

(** Recentering one pair of predicates keeps another pair centered, when
    the node it moves belongs to neither predicate of the other pair. *)
Lemma centered_recenter_other (T S T' S' : Node -> Prop)
    `{!forall x, Decision (T x)} `{!forall x, Decision (S x)}
    `{!forall x, Decision (T' x)} `{!forall x, Decision (S' x)} (ns : list Node) :
  ignoresY T -> ignoresY S ->
  (forall x, T' x -> ~ T x) -> (forall x, T' x -> ~ S x) ->
  centered T S ns -> centered T S (recenterWith T' S' ns).
Proof.
  intros HT HS HTT HTS Hc j x m Hf Hm.
  rewrite (recenterWith_filter T' S' S ns HS HTS) in Hm.
  destruct (recenterWith_cases T' S' ns) as [E | (j' & x' & m' & Hf' & _ & E)];
    rewrite E in Hf.
  - by eapply Hc.
  - apply (list_find_alter_inv T HT) in Hf as (x0 & Hf0 & ->).
    destruct (decide (j' = j)) as [-> |]; [| by eapply Hc].
    exfalso. apply list_find_Some in Hf0 as (Hj & HTx & _).
    apply list_find_Some in Hf' as (Hj' & HTx' & _).
    apply (HTT x'); [exact HTx' | congruence].
Qed.

(** ** The drag handler applied twice *)

Lemma kind_disjoint_group_step gid gid' x : isGroupOf gid x -> ~ isStepOf gid' x.
Proof. intros [Hk _] [Hk' _]. congruence. Qed.
Lemma kind_disjoint_root_group x : isRoot x -> ~ isGroup x.
Proof. unfold isRoot, isGroup. congruence. Qed.
Lemma kind_disjoint_root_groupOf gid x : isRoot x -> ~ isGroupOf gid x.
Proof. intros Hk [Hk' _]. unfold isRoot in Hk. congruence. Qed.
Lemma kind_disjoint_root_stepOf gid x : isRoot x -> ~ isStepOf gid x.
Proof. intros Hk [Hk' _]. unfold isRoot in Hk. congruence. Qed.

#[local] Hint Resolve kind_disjoint_group_step kind_disjoint_root_group
  kind_disjoint_root_groupOf kind_disjoint_root_stepOf : recenter.

(** The node table after a drag of the step node [d0] at index [i]. *)
Lemma dragged_step_lookup (ns : list Node) (i : nat) (y : Q) (d0 : Node) :
  ns !! i = Some d0 -> n_kind d0 = KStep ->
  recenterRoot (recenterGroup (n_groupId d0) (alter (set_y y) i ns)) !! i
  = Some (set_y y d0).
Proof.
  intros Hi Hk. rewrite recenterRoot_with, recenterGroup_with.
  apply recenterWith_lookup_other; [| unfold isRoot; simpl; congruence].
  apply recenterWith_lookup_other; [| intros [Hk' _]; simpl in Hk'; congruence].
  by rewrite list_lookup_alter_eq, Hi.
Qed.

Lemma dragged_nodes_fixed (ns : list Node) (i : nat) (y : Q) (d0 : Node) :
  ns !! i = Some d0 -> n_kind d0 = KStep ->
  let Y := recenterRoot (recenterGroup (n_groupId d0) (alter (set_y y) i ns)) in
  recenterRoot (recenterGroup (n_groupId d0) (alter (set_y y) i Y)) = Y.
Proof.
  intros Hi Hk Y.
  assert (HY : Y !! i = Some (set_y y d0)) by (by apply dragged_step_lookup).
  assert (E1 : alter (set_y y) i Y = Y).
  { rewrite <- (insert_as_alter (set_y y) i Y _ HY). by apply list_insert_id. }
  rewrite E1.
  assert (E2 : recenterGroup (n_groupId d0) Y = Y).
  { rewrite recenterGroup_with. apply centered_fixed. subst Y.
    rewrite recenterRoot_with.
    apply centered_recenter_other; eauto with recenter.
    rewrite recenterGroup_with. apply recenterWith_centered; eauto with recenter. }
  rewrite E2.
  rewrite recenterRoot_with. apply centered_fixed. subst Y.
  rewrite recenterRoot_with. apply recenterWith_centered; eauto with recenter.
Qed.

Lemma moveLabel_idem (sx sy tx ty : Q) (fl : FastLabel) :
  moveLabel sx sy tx ty (moveLabel sx sy tx ty fl) = moveLabel sx sy tx ty fl.
Proof. reflexivity. Qed.

Lemma updateLinkGroup_idem (ns : list Node) (lg : LinkGroup) :
  updateLinkGroup ns (updateLinkGroup ns lg) = updateLinkGroup ns lg.
Proof.
  unfold updateLinkGroup.
  destruct (scanNode (lg_src lg) ns) as [src |] eqn:Es; cbn [lg_src lg_tgt];
    [| by rewrite Es].
  destruct (scanNode (lg_tgt lg) ns) as [tgt |] eqn:Et; cbn [lg_src lg_tgt lg_label];
    rewrite Es, Et; [| reflexivity].
  f_equal. destruct (lg_label lg); reflexivity.
Qed.

Lemma moveHex_idem (d : Node) (el : PartHex) : moveHex d (moveHex d el) = moveHex d el.
Proof.
  unfold moveHex. destruct (decide (ph_stepid el = n_dbId d)) as [E | E]; cbn [ph_stepid].
  - rewrite decide_True by exact E. reflexivity.
  - rewrite decide_False by exact E. reflexivity.
Qed.

Lemma moveLinks_idem (d : Node) (h : Q) (k : nat) (els : list PartLink) :
  moveLinks d h k (moveLinks d h k els) = moveLinks d h k els.
Proof.
  revert k. induction els as [| el r IH]; intros k; [reflexivity |].
  cbn [moveLinks]. destruct (decide (pl_stepid el = n_dbId d)) as [E | E]; cbn [moveLinks pl_stepid].
  - rewrite decide_True by exact E. by rewrite IH.
  - rewrite decide_False by exact E. by rewrite IH.
Qed.

Lemma pinPosition_idem (d : Node) (m : gmap Z (Q * Q)) :
  pinPosition d (pinPosition d m) = pinPosition d m.
Proof.
  unfold pinPosition. destruct (n_dbId d) as [id |]; [| reflexivity].
  destruct (decide (id = 0%Z)); [reflexivity |]. apply insert_insert_eq.
Qed.

Lemma drag_step (i : nat) (y : Q) (a : App) (d0 : Node) :
  _allNodes (view a) !! i = Some d0 -> n_kind d0 = KStep ->
  let d := set_y y d0 in
  let Y := recenterRoot (recenterGroup (n_groupId d0) (alter (set_y y) i (_allNodes (view a)))) in
  drag i y a
  = mkApp (setLayoutDirty true (st a))
          (mkView Y (pinPosition d <$> _eagleEyePositions (view a))
                  (updateLinkGroup Y <$> linkLayer (view a))
                  (if showPartNodes (st a)
                   then moveLinks d (totalHeight (sortedParts (st a) (n_dbId d))) 0
                                  (partLinks (view a))
                   else partLinks (view a))
                  (if showPartNodes (st a)
                   then moveHex d <$> partHexes (view a)
                   else partHexes (view a))).
Proof.
  intros Hi Hk d Y. unfold drag. rewrite Hi, Hk.
  rewrite (insert_as_alter (set_y y) i _ d0 Hi).
  cbn [setLayoutDirty showPartNodes]. destruct (showPartNodes (st a)); reflexivity.
Qed.

(** C4. The drag handler is idempotent: a second drag event for the same
    node and the same y leaves the node table, the position map, the
    link paths, the label anchors and the part positions as the first
    one made them. *)
Theorem drag_idempotent (i : nat) (y : Q) (a : App) :
  drag i y (drag i y a) = drag i y a.
Proof.
  destruct (_allNodes (view a) !! i) as [d0 |] eqn:Hi.
  2: { assert (E : drag i y a = a) by (unfold drag; by rewrite Hi). by rewrite !E. }
  destruct (decide (n_kind d0 = KStep)) as [Hk | Hk].
  2: { assert (E : drag i y a = a).
       { unfold drag. rewrite Hi. by destruct (n_kind d0). }
       by rewrite !E. }
  rewrite (drag_step i y a d0 Hi Hk).
  set (Y := recenterRoot _).
  set (d := set_y y d0).
  assert (HY : Y !! i = Some d) by (by apply dragged_step_lookup).
  match goal with |- drag _ _ ?x = _ => set (a1 := x) end.
  rewrite (drag_step i y a1 d HY Hk). subst a1.
  cbn [st view _allNodes _eagleEyePositions linkLayer partLinks partHexes].
  change (set_y y d) with d. change (n_groupId d) with (n_groupId d0).
  pose proof (dragged_nodes_fixed (_allNodes (view a)) i y d0 Hi Hk) as HF.
  cbv zeta in HF. fold Y in HF. rewrite HF.
  f_equal. f_equal.
  - destruct (_eagleEyePositions (view a)) as [m |]; [| reflexivity].
    simpl. f_equal. apply pinPosition_idem.
  - rewrite <- list_fmap_compose. apply list_fmap_ext. intros k lg _.
    apply updateLinkGroup_idem.
  - cbn [showPartNodes setLayoutDirty]. destruct (showPartNodes (st a)); [| reflexivity].
    apply moveLinks_idem.
  - cbn [showPartNodes setLayoutDirty]. destruct (showPartNodes (st a)); [| reflexivity].
    rewrite <- list_fmap_compose. apply list_fmap_ext. intros k el _. apply moveHex_idem.
Qed.

(** ** Labels under a node drag *)

(** The stored parameter of every label survives a drag. *)
Lemma drag_keeps_label_parameter (i : nat) (y : Q) (a : App) :
  (fun lg => fl_labelpos <$> lg_label lg) <$> linkLayer (view (drag i y a))
  = (fun lg => fl_labelpos <$> lg_label lg) <$> linkLayer (view a).
Proof.
  destruct (_allNodes (view a) !! i) as [d0 |] eqn:Hi.
  2: { unfold drag. by rewrite Hi. }
  destruct (decide (n_kind d0 = KStep)) as [Hk | Hk].
  2: { unfold drag. rewrite Hi. by destruct (n_kind d0). }
  rewrite (drag_step i y a d0 Hi Hk). cbn [view linkLayer].
  rewrite <- list_fmap_compose. apply list_fmap_ext. intros k lg _. simpl.
  unfold updateLinkGroup.
  match goal with |- context [scanNode (lg_src lg) ?l] =>
    destruct (scanNode (lg_src lg) l), (scanNode (lg_tgt lg) l) end; try reflexivity.
  cbn [lg_label]. by destruct (lg_label lg).
Qed.

(** A label whose link has both endpoints in the table is re-anchored by
    the link update at the parameter [storedT], which is the stored
    parameter unless that is zero. *)
Lemma updateLinkGroup_anchor (ns : list Node) (lg : LinkGroup) (src tgt : Node) (fl : FastLabel) :
  scanNode (lg_src lg) ns = Some src -> scanNode (lg_tgt lg) ns = Some tgt ->
  lg_label (updateLinkGroup ns lg) = Some fl ->
  fl_sx fl = n_x src + n_w src / 2 /\ fl_sy fl = n_y src /\
  fl_tx fl = n_x tgt - n_w tgt / 2 /\ fl_ty fl = n_y tgt /\
  fl_transform fl = bezierPoint (storedT fl) (fl_sx fl) (fl_sy fl) (fl_tx fl) (fl_ty fl) /\
  (~ fl_labelpos fl == 0 -> fl_transform fl = anchorAtStoredT fl).
Proof.
  intros Hs Ht. unfold updateLinkGroup. rewrite Hs, Ht. cbn [lg_label].
  destruct (lg_label lg) as [fl0 |]; [| discriminate]. intros [= <-].
  repeat split. intros Hnz. unfold anchorAtStoredT, moveLabel, storedT.
  cbn [fl_labelpos fl_sx fl_sy fl_tx fl_ty fl_transform].
  destruct (Qeq_bool (fl_labelpos fl0) 0) eqn:E; [| reflexivity].
  apply Qeq_bool_iff in E. contradiction.
Qed.

Lemma clamp_range (t : Q) :
  5 # 100 <= Qmax (5 # 100) (Qmin (95 # 100) t) /\
  Qmax (5 # 100) (Qmin (95 # 100) t) <= 95 # 100.
Proof.
  split; [apply Q.le_max_l |].
  apply Q.max_lub; [discriminate | apply Q.le_min_l].
Qed.

(** The label's own drag stores a parameter in [0.05, 0.95], never zero,
    and anchors the label at it. *)
Lemma dragLabelEl_range (eventX eventY : Q) (el : FastLabel) :
  let el' := dragLabelEl eventX eventY el in
  (5 # 100 <= fl_labelpos el' /\ fl_labelpos el' <= 95 # 100) /\
  storedT el' = fl_labelpos el' /\
  fl_transform el' = anchorAtStoredT el'.
Proof.
  unfold dragLabelEl, storedT, anchorAtStoredT.
  cbn [fl_labelpos fl_sx fl_sy fl_tx fl_ty fl_transform].
  generalize (nearestT eventX eventY (fl_sx el) (fl_sy el) (fl_tx el) (fl_ty el)).
  intros t. pose proof (clamp_range t) as [Hlo Hhi].
  split; [split; assumption |]. split; [| reflexivity].
  destruct (Qeq_bool (Qmax (5 # 100) (Qmin (95 # 100) t)) 0) eqn:E; [| reflexivity].
  apply Qeq_bool_iff in E. rewrite E in Hlo. exfalso. apply Hlo. reflexivity.
Qed.

(** A drag of a step re-anchors the label of every link whose two
    endpoints are in the table: the stored parameter is kept, the stored
    endpoints become the current anchors of the two nodes, and the label
    moves to the curve point at [storedT]; for a non-zero stored
    parameter that is the curve point at the stored parameter. *)
Lemma drag_reanchors_label (i : nat) (y : Q) (a : App) (d0 : Node)
    (k : nat) (lg : LinkGroup) (fl : FastLabel) (src tgt : Node) :
  _allNodes (view a) !! i = Some d0 -> n_kind d0 = KStep ->
  linkLayer (view a) !! k = Some lg -> lg_label lg = Some fl ->
  scanNode (lg_src lg) (_allNodes (view (drag i y a))) = Some src ->
  scanNode (lg_tgt lg) (_allNodes (view (drag i y a))) = Some tgt ->
  exists fl',
    labelAt k (drag i y a) = Some fl' /\
    fl_labelpos fl' = fl_labelpos fl /\
    fl_sx fl' = n_x src + n_w src / 2 /\ fl_sy fl' = n_y src /\
    fl_tx fl' = n_x tgt - n_w tgt / 2 /\ fl_ty fl' = n_y tgt /\
    fl_transform fl'
    = bezierPoint (storedT fl) (fl_sx fl') (fl_sy fl') (fl_tx fl') (fl_ty fl') /\
    (~ fl_labelpos fl == 0 -> fl_transform fl' = anchorAtStoredT fl').
Proof.
  intros Hi Hk Hlg Hfl Hs Ht.
  rewrite (drag_step i y a d0 Hi Hk) in Hs, Ht |- *. cbn [view _allNodes] in Hs, Ht.
  set (Y := recenterRoot _) in *.
  unfold labelAt. cbn [view linkLayer]. rewrite list_lookup_fmap, Hlg. simpl.
  unfold updateLinkGroup. rewrite Hs, Ht. cbn [lg_label]. rewrite Hfl. simpl.
  eexists. split; [reflexivity |]. unfold moveLabel.
  cbn [fl_labelpos fl_sx fl_sy fl_tx fl_ty fl_transform].
  repeat split. intros Hnz. unfold anchorAtStoredT, storedT.
  cbn [fl_labelpos fl_sx fl_sy fl_tx fl_ty].
  destruct (Qeq_bool (fl_labelpos fl) 0) eqn:E; [| reflexivity].
  apply Qeq_bool_iff in E. contradiction.
Qed.

(** C7 at a stored label position of zero. The renderer anchors the
    label at the stored parameter 0, the source anchor. After a drag of
    the link's source step the stored parameter is still 0, but the
    label is anchored at parameter 1/2 of the new curve, which is not the
    curve point at the stored parameter. *)
Theorem label_at_zero_jumps_to_midpoint :
  let a1 := renderGraph (mkApp zeroLabel emptyView) in
  let a2 := drag 0 1000 a1 in
  exists fl1 fl2,
    labelAt 0 a1 = Some fl1 /\ labelAt 0 a2 = Some fl2 /\
    fl_labelpos fl1 = 0 /\ fl_labelpos fl2 = 0 /\
    fl_transform fl1 = anchorAtStoredT fl1 /\
    fl_transform fl2
    = bezierPoint (1 # 2) (fl_sx fl2) (fl_sy fl2) (fl_tx fl2) (fl_ty fl2) /\
    ~ (pt_x (fl_transform fl2) == pt_x (anchorAtStoredT fl2)) /\
    ~ (pt_y (fl_transform fl2) == pt_y (anchorAtStoredT fl2)).
Proof.
  intros a1 a2.
  destruct (labelAt 0 a1) as [fl1 |] eqn:E1; [| vm_compute in E1; discriminate].
  destruct (labelAt 0 a2) as [fl2 |] eqn:E2; [| vm_compute in E2; discriminate].
  exists fl1, fl2. split; [reflexivity |]. split; [reflexivity |].
  vm_compute in E1. injection E1 as <-.
  vm_compute in E2. injection E2 as <-.
  repeat split; try reflexivity; vm_compute; discriminate.
Qed.

(** ** The centroid invariant under a drag *)

Lemma skel_lookup (l1 l2 : list Node) (k : nat) (x : Node) :
  skel <$> l1 = skel <$> l2 -> l2 !! k = Some x ->
  exists x', l1 !! k = Some x' /\ skel x' = skel x.
Proof.
  intros Hsk Hk.
  assert (H2 : (skel <$> l2) !! k = Some (skel x)) by (by rewrite list_lookup_fmap, Hk).
  rewrite <- Hsk in H2. apply list_lookup_fmap_Some in H2 as (x' & Hx' & E).
  by exists x'.
Qed.

Lemma skel_kind (x x' : Node) : skel x' = skel x -> n_kind x' = n_kind x.
Proof. intros H. change (n_kind (skel x') = n_kind (skel x)). by rewrite H. Qed.






(** ** The centroid invariant of the layout *)

Lemma forEachFrom_prefix {A T} (f : T -> A -> nat -> T) (P : list A -> T -> Prop)
    (l : list A) (s0 : T) :
  P [] s0 ->
  (forall pre a post acc, l = pre ++ a :: post -> P pre acc ->
                          P (pre ++ [a]) (f acc a (length pre))) ->
  P l (forEachFrom f l 0 s0).
Proof.
  intros H0 Hstep.
  assert (G : forall rest pre acc, l = pre ++ rest -> P pre acc ->
                                   P l (forEachFrom f rest (length pre) acc)).
  { induction rest as [| a r IH]; intros pre acc El Hp.
    - rewrite app_nil_r in El. by subst.
    - simpl. replace (S (length pre)) with (length (pre ++ [a]))
        by (rewrite length_app; simpl; lia).
      apply IH; [by rewrite <- app_assoc | by eapply Hstep]. }
  by apply (G l [] s0).
Qed.

Lemma filter_all {A} (P : A -> Prop) `{!forall x, Decision (P x)} (l : list A) :
  (forall x, x ∈ l -> P x) -> filter P l = l.
Proof.
  induction l as [| x r IH]; intros Hall; [reflexivity |].
  rewrite filter_cons_True by (apply Hall; left). f_equal. apply IH.
  intros y Hy. apply Hall. by right.
Qed.


Lemma NoDup_fmap_inj_on {A B} (f : A -> B) (l : list A) (x y : A) :
  NoDup (f <$> l) -> x ∈ l -> y ∈ l -> f x = f y -> x = y.
Proof.
  induction l as [| a r IH]; intros Hnd Hx Hy E; [by apply not_elem_of_nil in Hx |].
  rewrite fmap_cons in Hnd. apply NoDup_cons in Hnd as [Hnotin Hnd].
  apply elem_of_cons in Hx as [-> | Hx], Hy as [-> | Hy].
  - reflexivity.
  - exfalso. apply Hnotin. rewrite E. by apply list_elem_of_fmap_2.
  - exfalso. apply Hnotin. rewrite <- E. by apply list_elem_of_fmap_2.
  - by apply IH.
Qed.

Section LayoutStep.

Variable s : State.
Variable n : nat.
Hypothesis steps_unique : NoDup (s_id <$> steps s).

Lemma groupSteps_elem (grp : Group) (st : Step) :
  st ∈ groupSteps s grp <-> st ∈ steps s /\ s_group_id st = g_id grp.
Proof.
  unfold groupSteps. rewrite elem_of_jsSort, list_elem_of_filter. tauto.
Qed.

Lemma groupSteps_NoDup (grp : Group) : NoDup (groupSteps s grp).
Proof using steps_unique.
  unfold groupSteps. rewrite jsSort_perm. apply NoDup_filter.
  by apply NoDup_fmap_1 in steps_unique.
Qed.

Lemma stepNodesOf_elem (grp : Group) (gi : nat) (y0 : Q) (nd : Node) :
  nd ∈ stepNodesOf s grp gi y0 ->
  exists si st, groupSteps s grp !! si = Some st /\ nd = stepNode s grp gi y0 st si.
Proof.
  unfold stepNodesOf. intros H. apply elem_of_lookup_imap in H as (si & st & -> & Hst).
  by exists si, st.
Qed.

(** Looking a step of the group up by identifier in the table finds the
    node just pushed for it. *)
Lemma stepYsOf_pushed (done : list Group) (acc : Acc) (grp : Group) (gi : nat) :
  LayoutInv s done acc -> g_id grp ∉ (g_id <$> done) ->
  stepYsOf (groupSteps s grp) (allNodes acc ++ stepNodesOf s grp gi (curY acc))
  = n_y <$> stepNodesOf s grp gi (curY acc).
Proof using steps_unique.
  intros (I1 & _) Hfresh. apply list_eq. intros j.
  unfold stepYsOf, stepNodesOf. rewrite !list_lookup_fmap, list_lookup_imap.
  destruct (groupSteps s grp !! j) as [st |] eqn:Ej; [| reflexivity]. simpl. f_equal.
  assert (Hst : st ∈ groupSteps s grp) by (by eapply list_elem_of_lookup_2).
  apply groupSteps_elem in Hst as [Hst Hgrp].
  set (me := stepNode s grp gi (curY acc) st j).
  assert (Hme : me ∈ allNodes acc ++ imap (fun si step => stepNode s grp gi (curY acc) step si)
                                       (groupSteps s grp)).
  { apply elem_of_app. right.
    exact (elem_of_lookup_imap_2 (fun si step => stepNode s grp gi (curY acc) step si)
             (groupSteps s grp) st j Ej). }
  destruct (list_find_elem_of (fun nd => n_id nd = SId (s_id st)) _ me Hme eq_refl)
    as [[k x] Hfind].
  rewrite Hfind. f_equal.
  apply list_find_Some in Hfind as (Hk & Hid & _).
  apply list_elem_of_lookup_2, elem_of_app in Hk as [Hx | Hx].
  - exfalso. destruct (I1 x Hx) as (g & Hg & _ & [(_ & st' & Hst' & Hg' & Hid') | (_ & Hid')]).
    + rewrite Hid in Hid'. injection Hid' as Hid'.
      assert (st = st') by (by eapply (NoDup_fmap_inj_on s_id (steps s))).
      subst st'. apply Hfresh. rewrite <- Hgrp, Hg'. by apply list_elem_of_fmap_2.
    + congruence.
  - apply elem_of_lookup_imap in Hx as (j' & st' & -> & Ej').
    simpl in Hid. injection Hid as Hid.
    assert (Hst'' : st' ∈ steps s).
    { apply (groupSteps_elem grp). by eapply list_elem_of_lookup_2. }
    assert (st' = st) by exact (NoDup_fmap_inj_on s_id (steps s) st' st steps_unique Hst'' Hst Hid).
    subst st'.
    assert (j' = j) by exact (NoDup_lookup _ j' j st (groupSteps_NoDup grp) Ej' Ej).
    by subst j'.
Qed.

Lemma allNodes_layoutGroup' (acc : Acc) (grp : Group) (gi : nat) :
  allNodes (layoutGroup s n acc grp gi)
  = allNodes acc ++ stepNodesOf s grp gi (curY acc)
    ++ [groupNode s n grp gi
          (groupYOf (stepYsOf (groupSteps s grp)
                       (allNodes acc ++ stepNodesOf s grp gi (curY acc)))
                    (curY acc) (swimHeight s (groupSteps s grp)))
          (length (groupSteps s grp))].
Proof. apply allNodes_layoutGroup. Qed.

Lemma stepNodesOf_facts (grp : Group) (gi : nat) (y0 : Q) (nd : Node) :
  nd ∈ stepNodesOf s grp gi y0 ->
  n_kind nd = KStep /\ n_groupId nd = Some (g_id grp) /\
  exists st, st ∈ steps s /\ s_group_id st = g_id grp /\ n_id nd = SId (s_id st).
Proof.
  intros H. apply stepNodesOf_elem in H as (si & st & Hst & ->).
  split; [reflexivity |]. split; [reflexivity |].
  exists st. apply list_elem_of_lookup_2, groupSteps_elem in Hst as [? ?]. by repeat split.
Qed.

Lemma layoutGroup_inv (done : list Group) (acc : Acc) (grp : Group) (gi : nat) :
  LayoutInv s done acc -> g_id grp ∉ (g_id <$> done) ->
  LayoutInv s (done ++ [grp]) (layoutGroup s n acc grp gi).
Proof using steps_unique.
  intros Hinv Hfresh.
  pose proof (stepYsOf_pushed done acc grp gi Hinv Hfresh) as HYs.
  destruct Hinv as (I1 & I2 & I3 & I4).
  unfold LayoutInv. rewrite allNodes_layoutGroup'. rewrite HYs.
  set (SN := stepNodesOf s grp gi (curY acc)) in *.
  set (gy := groupYOf (n_y <$> SN) (curY acc) (swimHeight s (groupSteps s grp))).
  set (GN := groupNode s n grp gi gy (length (groupSteps s grp))).
  assert (Hacc : forall nd, nd ∈ allNodes acc -> n_groupId nd <> Some (g_id grp)).
  { intros nd Hnd E. destruct (I1 nd Hnd) as (g & Hg & Hgid & _).
    rewrite Hgid in E. injection E as E. apply Hfresh. rewrite <- E.
    by apply list_elem_of_fmap_2. }
  assert (HSN : forall nd, nd ∈ SN ->
            n_kind nd = KStep /\ n_groupId nd = Some (g_id grp) /\
            exists st, st ∈ steps s /\ s_group_id st = g_id grp /\ n_id nd = SId (s_id st))
    by (intros nd; apply stepNodesOf_facts).
  assert (HgSN : filter isGroup SN = []).
  { apply filter_nil_iff. intros nd Hnd Hg. destruct (HSN nd Hnd) as (Hk & _).
    unfold isGroup in Hg. congruence. }
  split; [| split; [| split]].
  - (* every node belongs to a laid-out group *)
    intros nd Hnd. apply elem_of_app in Hnd as [Hnd | Hnd].
    { destruct (I1 nd Hnd) as (g & Hg & Hrest). exists g. split; [| exact Hrest].
      apply elem_of_app. by left. }
    exists grp. split; [apply elem_of_app; right; by apply list_elem_of_singleton |].
    apply elem_of_app in Hnd as [Hnd | Hnd].
    + destruct (HSN nd Hnd) as (Hk & Hg & Hst). split; [exact Hg |]. left. by split.
    + apply list_elem_of_singleton in Hnd as ->. split; [reflexivity |]. right. by split.
  - (* one group node per group *)
    rewrite !filter_app, HgSN, app_nil_l, fmap_app.
    rewrite (filter_cons_True isGroup GN []) by reflexivity.
    apply NoDup_app. split; [exact I2 |]. split; [| apply NoDup_singleton].
    intros gid Hgid Hin. apply list_elem_of_singleton in Hin. subst gid.
    apply list_elem_of_fmap in Hgid as (nd & E & Hnd).
    apply list_elem_of_filter in Hnd as [_ Hnd]. by apply (Hacc nd Hnd).
  - (* group nodes are centered *)
    intros g Hg Hkg m. rewrite !filter_app.
    rewrite (filter_cons_False (isStepOf (n_groupId g)) GN [])
      by (intros [Hk _]; discriminate).
    rewrite filter_nil, app_nil_r.
    apply elem_of_app in Hg as [Hg | Hg].
    { assert (E : filter (isStepOf (n_groupId g)) SN = []).
      { apply filter_nil_iff. intros nd Hnd [_ Hgid]. destruct (HSN nd Hnd) as (_ & Hgid' & _).
        apply (Hacc g Hg). congruence. }
      rewrite E, app_nil_r. by apply I3. }
    apply elem_of_app in Hg as [Hg | Hg].
    { destruct (HSN g Hg) as (Hk & _). congruence. }
    apply list_elem_of_singleton in Hg. subst g.
    change (n_groupId GN) with (Some (g_id grp)).
    assert (E1 : filter (isStepOf (Some (g_id grp))) (allNodes acc) = []).
    { apply filter_nil_iff. intros nd Hnd [_ Hgid]. by apply (Hacc nd Hnd). }
    assert (E2 : filter (isStepOf (Some (g_id grp))) SN = SN).
    { apply filter_all. intros nd Hnd. destruct (HSN nd Hnd) as (Hk & Hgid & _). by split. }
    rewrite E1, E2, app_nil_l. intros Hm.
    change (n_y GN) with gy. unfold gy, groupYOf. by rewrite Hm.
  - (* lanes *)
    intros sl Hsl. unfold layoutGroup in Hsl. cbn [lanes] in Hsl.
    apply elem_of_app in Hsl as [Hsl | Hsl].
    + destruct (I4 sl Hsl) as (Hdone & Hcount & (nd0 & Hnd0 & Hid0) & Hempty).
      split; [apply elem_of_app; by left |]. split; [exact Hcount |].
      split; [exists nd0; split; [apply elem_of_app; by left | exact Hid0] |].
      intros H0 nd Hnd Hid. apply elem_of_app in Hnd as [Hnd | Hnd]; [by apply Hempty |].
      exfalso. apply elem_of_app in Hnd as [Hnd | Hnd].
      * destruct (HSN nd Hnd) as (_ & _ & st & _ & _ & Hid'). congruence.
      * apply list_elem_of_singleton in Hnd. subst nd. simpl in Hid. injection Hid as Hid.
        apply Hfresh. rewrite Hid. by apply list_elem_of_fmap_2.
    + apply list_elem_of_singleton in Hsl. subst sl. cbn [sl_grp sl_stepCount sl_startY sl_height].
      split; [apply elem_of_app; right; by apply list_elem_of_singleton |].
      split; [reflexivity |].
      split.
      { exists GN. split; [| reflexivity].
        apply elem_of_app; right. apply elem_of_app; right. by apply list_elem_of_singleton. }
      intros H0 nd Hnd Hid. apply elem_of_app in Hnd as [Hnd | Hnd].
      { exfalso. destruct (I1 nd Hnd) as (g & Hg & _ & [(_ & st & _ & _ & Hid') | (_ & Hid')]).
        - congruence.
        - rewrite Hid in Hid'. injection Hid' as Hid'. apply Hfresh. rewrite Hid'.
          by apply list_elem_of_fmap_2. }
      apply elem_of_app in Hnd as [Hnd | Hnd].
      { exfalso. destruct (HSN nd Hnd) as (_ & _ & st & _ & _ & Hid'). congruence. }
      apply list_elem_of_singleton in Hnd. subst nd.
      change (n_y GN) with gy. unfold gy, SN, stepNodesOf.
      apply nil_length_inv in H0. rewrite H0. reflexivity.
Qed.

End LayoutStep.

Lemma filterGroups_NoDup (s : State) :
  NoDup (g_id <$> groups s) -> NoDup (g_id <$> filterGroups s).
Proof.
  intros H. rewrite filterGroups_eq.
  apply (sublist_NoDup _ (g_id <$> jsSort groupKey (groups s))).
  - by rewrite jsSort_perm.
  - apply fmap_sublist, sublist_filter.
Qed.







(** The drag cascade on [threeBands]: the middle step of the first group
    goes to y = 1000; its group moves from 325 to 575, the root from
    521.5 to 591; the empty third group stays at the center of its band. *)
Example drag_cascade :
  let a1 := renderGraph (mkApp threeBands emptyView) in
  let a2 := drag 1 1000 a1 in
  (fun nd => (n_id nd, Qred (n_y nd))) <$> _allNodes (view a1)
  = [(SId 10, 150); (SId 11, 230); (SId 12, 500); (GId 1, 325);
     (SId 20, 464); (GId 2, 464); (GId 3, 718); (RootId, 1043 # 2)] /\
  (fun nd => (n_id nd, Qred (n_y nd))) <$> _allNodes (view a2)
  = [(SId 10, 150); (SId 11, 1000); (SId 12, 500); (GId 1, 575);
     (SId 20, 464); (GId 2, 464); (GId 3, 718); (RootId, 591)].
Proof. vm_compute. split; reflexivity. Qed.

(** ** Link generation *)

Section AutoGenerate.

Variable assemblyId : Z.

Lemma pushPairs_app (ps qs : list (Z * Z)) (g : Gen) :
  pushPairs assemblyId (ps ++ qs) g = pushPairs assemblyId qs (pushPairs assemblyId ps g).
Proof. unfold pushPairs. apply fold_left_app. Qed.

Lemma chainSteps_pushPairs (gSteps : list Step) (g : Gen) :
  chainSteps assemblyId gSteps g = pushPairs assemblyId (chainPairs gSteps) g.
Proof.
  revert g. induction gSteps as [| a r IH]; intros g; [reflexivity |].
  destruct r as [| b r']; [reflexivity |].
  change (chainSteps assemblyId (a :: b :: r') g)
    with (chainSteps assemblyId (b :: r') (pushLink assemblyId (s_id a) (s_id b) g)).
  rewrite IH. reflexivity.
Qed.

Lemma chainPairs_lookup (gSteps : list Step) (i : nat) (p : Z * Z) :
  chainPairs gSteps !! i = Some p <->
  exists a b, gSteps !! i = Some a /\ gSteps !! S i = Some b /\ p = (s_id a, s_id b).
Proof.
  unfold chainPairs. rewrite lookup_zip_with_Some. setoid_rewrite list_lookup_fmap_Some.
  rewrite <- (lookup_tail gSteps i) . split.
  - intros (x & y & -> & (a & -> & Ha) & (b & -> & Hb)). by exists a, b.
  - intros (a & b & Ha & Hb & ->). exists (s_id a), (s_id b). split; [reflexivity |].
    split; [by exists a | by exists b].
Qed.

Lemma bridgeGroups_pushPairs (steps gSteps : list Step) (rest : list Group) (g : Gen) :
  bridgeGroups assemblyId steps gSteps rest g
  = pushPairs assemblyId (bridgePair steps gSteps rest) g.
Proof.
  unfold bridgeGroups, bridgePair. destruct rest as [| nextGrp rest']; [reflexivity |].
  destruct (last gSteps), (head (stepsOfGroup steps nextGrp)); reflexivity.
Qed.

Lemma generate_pushPairs (steps : list Step) (gs : list Group) (g : Gen) :
  generate assemblyId steps gs g = pushPairs assemblyId (specPairs steps gs) g.
Proof.
  revert g. induction gs as [| grp rest IH]; intros g; [reflexivity |].
  cbn [generate specPairs].
  rewrite IH, chainSteps_pushPairs, bridgeGroups_pushPairs, !pushPairs_app. reflexivity.
Qed.

Lemma pushPairs_links (ps : list (Z * Z)) (g : Gen) :
  gen_links (pushPairs assemblyId ps g)
  = gen_links g ++ ((fun p => mkStepLink assemblyId (fst p) (snd p)) <$> dedup (gen_seen g) ps).
Proof.
  revert g. induction ps as [| [a b] r IH]; intros g.
  - simpl. by rewrite app_nil_r.
  - change (pushPairs assemblyId ((a, b) :: r) g)
      with (pushPairs assemblyId r (pushLink assemblyId a b g)).
    rewrite IH. unfold pushLink, key. cbn [dedup].
    destruct (decide ((a, b) ∈ gen_seen g)); [reflexivity |].
    cbn [gen_links gen_seen]. rewrite <- app_assoc. reflexivity.
Qed.

End AutoGenerate.

Lemma dedup_elem (seen : gset (Z * Z)) (ps : list (Z * Z)) (p : Z * Z) :
  p ∈ dedup seen ps <-> p ∈ ps /\ p ∉ seen.
Proof.
  revert seen. induction ps as [| q r IH]; intros seen; simpl.
  - split; [intros H; by apply not_elem_of_nil in H | intros [H _]; by apply not_elem_of_nil in H].
  - destruct (decide (q ∈ seen)) as [Hq | Hq].
    + rewrite IH, elem_of_cons. split; [tauto |]. intros [[-> | H] Hn]; [contradiction | tauto].
    + rewrite elem_of_cons, IH, elem_of_cons. split.
      * intros [-> | [H Hn]]; [tauto |]. split; [tauto | set_solver].
      * intros [[-> | H] Hn]; [tauto |].
        destruct (decide (p = q)) as [-> | Hne]; [tauto |]. right. split; [exact H | set_solver].
Qed.

Lemma dedup_NoDup (seen : gset (Z * Z)) (ps : list (Z * Z)) : NoDup (dedup seen ps).
Proof.
  revert seen. induction ps as [| q r IH]; intros seen; simpl; [constructor |].
  destruct (decide (q ∈ seen)); [apply IH |].
  constructor; [| apply IH]. rewrite dedup_elem. set_solver.
Qed.

Lemma dedup_NoDup_id (ps : list (Z * Z)) (seen : gset (Z * Z)) :
  NoDup ps -> (forall p, p ∈ ps -> p ∉ seen) -> dedup seen ps = ps.
Proof.
  revert seen. induction ps as [| q r IH]; intros seen Hnd Hfresh; [reflexivity |].
  apply NoDup_cons in Hnd as [Hq Hnd]. simpl.
  rewrite decide_False by (apply Hfresh; left). f_equal. apply IH; [exact Hnd |].
  intros p Hp. specialize (Hfresh p (list_elem_of_further _ _ _ Hp)).
  assert (p <> q) by (intros ->; contradiction). set_solver.
Qed.

(** The stable sort of the helper is the arrangement in sort-key
    order. *)
Lemma inKeyOrder_jsSort {A} (key : A -> Z) (l : list A) : inKeyOrder key l (jsSort key l).
Proof. split; [apply jsSort_sorted | intros k; apply jsSort_stable]. Qed.

Lemma inKeyOrder_unique {A} (key : A -> Z) (l l' : list A) :
  inKeyOrder key l l' -> l' = jsSort key l.
Proof. intros [Hs Hst]. by apply jsSort_unique. Qed.

Lemma wantedPairs_specPairs (steps : list Step) (stepsOf : Group -> list Step) (gs : list Group) :
  (forall g, g ∈ gs -> stepsOf g = stepsOfGroup steps g) ->
  wantedPairs stepsOf gs = specPairs steps gs.
Proof.
  induction gs as [| g rest IH]; intros Hall; [reflexivity |].
  cbn [wantedPairs specPairs].
  rewrite (Hall g) by left. rewrite IH by (intros g' Hg'; apply Hall; by right).
  f_equal. f_equal. unfold bridgePair, bridgeEdge.
  destruct rest as [| next rest']; [reflexivity |].
  rewrite (Hall next) by (right; left). reflexivity.
Qed.

Lemma wanted_is_met (steps : list Step) (groups gs : list Group) (stepsOf : Group -> list Step) :
  inKeyOrder groupKey groups gs ->
  (forall g, g ∈ gs -> inKeyOrder stepKey (memberSteps steps g) (stepsOf g)) ->
  wantedPairs stepsOf gs = specPairs steps (jsSort groupKey groups).
Proof.
  intros Hgs Hst. rewrite <- (inKeyOrder_unique _ _ _ Hgs).
  apply wantedPairs_specPairs. intros g Hg.
  exact (inKeyOrder_unique stepKey (memberSteps steps g) (stepsOf g) (Hst g Hg)).
Qed.

(** C9. With existing relationships the helper returns no link. Without,
    let the groups be listed in sort-key order and the steps of each
    group in sort-key order (equal keys in the order of the input); the
    wanted pairs are, group after group, step[i] -> step[i+1] within the
    group and then last step -> first step of the next group unless one
    of the two groups is empty.  The helper returns, in that order, the
    links of the wanted pairs, each pair once: a pair met again is
    skipped.  The returned pairs are exactly the wanted pairs, none
    twice, and when the wanted pairs are already distinct nothing is
    skipped. *)
Theorem autoGenerateLinks_spec {L} (assemblyId : Z) (groups : list Group) (steps : list Step)
    (gs : list Group) (stepsOf : Group -> list Step) :
  inKeyOrder groupKey groups gs ->
  (forall g, g ∈ gs -> inKeyOrder stepKey (memberSteps steps g) (stepsOf g)) ->
  let want := wantedPairs stepsOf gs in
  let got := autoGenerateLinks assemblyId groups steps (@nil L) in
  (forall (e : L) (es : list L), autoGenerateLinks assemblyId groups steps (e :: es) = []) /\
  got = (fun p => mkStepLink assemblyId (fst p) (snd p)) <$> dedup ∅ want /\
  NoDup (pairOf <$> got) /\
  (forall p, p ∈ (pairOf <$> got) <-> p ∈ want) /\
  (NoDup want <-> pairOf <$> got = want).
Proof.
  intros Hgs Hst want got.
  assert (Hwant : want = specPairs steps (jsSort groupKey groups))
    by (by apply wanted_is_met).
  assert (Hgot : got = (fun p => mkStepLink assemblyId (fst p) (snd p)) <$> dedup ∅ want).
  { rewrite Hwant. unfold got, autoGenerateLinks.
    rewrite generate_pushPairs, pushPairs_links. reflexivity. }
  assert (Hpairs : pairOf <$> got = dedup ∅ want).
  { rewrite Hgot, <- list_fmap_compose. rewrite <- (list_fmap_id (dedup ∅ want)) at 2.
    apply list_fmap_ext. intros k [a b] _. reflexivity. }
  split; [reflexivity |]. split; [exact Hgot |]. rewrite Hpairs.
  split; [apply dedup_NoDup |]. split.
  - intros p. rewrite dedup_elem. set_solver.
  - split.
    + intros Hnd. apply dedup_NoDup_id; [exact Hnd | set_solver].
    + intros <-. apply dedup_NoDup.
Qed.

Lemma scattered_in_order :
  inKeyOrder groupKey scatteredGroups orderedGroups /\
  (forall g, g ∈ orderedGroups ->
             inKeyOrder stepKey (memberSteps scatteredSteps g) (orderedSteps g)).
Proof.
  split.
  - replace orderedGroups with (jsSort groupKey scatteredGroups) by (by vm_compute).
    apply inKeyOrder_jsSort.
  - intros g Hg. unfold orderedGroups in Hg.
    repeat (apply elem_of_cons in Hg as [-> | Hg]); [| | | | by apply not_elem_of_nil in Hg].
    all: match goal with
         | |- inKeyOrder _ ?l ?l' =>
             replace l' with (jsSort stepKey l) by (by vm_compute); apply inKeyOrder_jsSort
         end.
Qed.

Lemma autoGenerateLinks_spec_witness :
  inKeyOrder groupKey scatteredGroups orderedGroups /\
  (forall g, g ∈ orderedGroups ->
             inKeyOrder stepKey (memberSteps scatteredSteps g) (orderedSteps g)) /\
  wantedPairs orderedSteps orderedGroups = [(10, 11); (11, 12); (30, 40); (40, 41)]%Z /\
  let want := wantedPairs orderedSteps orderedGroups in
  let got := autoGenerateLinks 7 scatteredGroups scatteredSteps (@nil StepLink) in
  (forall (e : StepLink) (es : list StepLink),
      autoGenerateLinks 7 scatteredGroups scatteredSteps (e :: es) = []) /\
  got = (fun p => mkStepLink 7 (fst p) (snd p)) <$> dedup ∅ want /\
  NoDup (pairOf <$> got) /\
  (forall p, p ∈ (pairOf <$> got) <-> p ∈ want) /\
  (NoDup want <-> pairOf <$> got = want).
Proof.
  destruct scattered_in_order as [Hg Hs].
  split; [exact Hg |]. split; [exact Hs |]. split; [by vm_compute |].
  exact (autoGenerateLinks_spec (L := StepLink) 7 scatteredGroups scatteredSteps
           orderedGroups orderedSteps Hg Hs).
Defined.

(** What the helper returns on that input: the chain of group A, no
    bridge into or out of the empty group B, the bridge from C to D and
    the chain of D. *)
Lemma autoGenerateLinks_on_scattered :
  autoGenerateLinks 7 scatteredGroups scatteredSteps (@nil StepLink)
  = [mkStepLink 7 10 11; mkStepLink 7 11 12; mkStepLink 7 30 40; mkStepLink 7 40 41].
Proof. by vm_compute. Qed.

(** With unique step and group identifiers no wanted pair occurs twice,
    so the helper skips nothing. *)
Lemma group_pairs_sources (steps gSteps : list Step) (rest : list Group) :
  (fst <$> (chainPairs gSteps ++ bridgePair steps gSteps rest))
    `sublist_of` (s_id <$> gSteps).
Proof.
  induction gSteps as [| a r IH]; [simpl; destruct rest; constructor |].
  destruct r as [| b r'].
  - unfold chainPairs, bridgePair. simpl. destruct rest as [| nextGrp rest']; [by constructor |].
    destruct (head (stepsOfGroup steps nextGrp)); simpl; repeat constructor.
  - change (chainPairs (a :: b :: r')) with ((s_id a, s_id b) :: chainPairs (b :: r')).
    assert (E : bridgePair steps (a :: b :: r') rest = bridgePair steps (b :: r') rest)
      by reflexivity.
    rewrite E. simpl. apply sublist_skip. exact IH.
Qed.

Lemma specPairs_source (steps : list Step) (gs : list Group) (x : Z) :
  x ∈ (fst <$> specPairs steps gs) ->
  exists g st, g ∈ gs /\ st ∈ steps /\ s_group_id st = g_id g /\ x = s_id st.
Proof.
  induction gs as [| grp rest IH]; simpl; [intros H; by apply not_elem_of_nil in H |].
  rewrite app_assoc, fmap_app, elem_of_app. intros [Hx | Hx].
  - pose proof (group_pairs_sources steps (stepsOfGroup steps grp) rest) as Hsub.
    apply (fun H => elem_of_sublist _ _ x H Hsub), list_elem_of_fmap in Hx as (st & -> & Hst).
    unfold stepsOfGroup in Hst. apply elem_of_jsSort, list_elem_of_filter in Hst as [Hg Hst].
    exists grp, st. split; [left |]. done.
  - destruct (IH Hx) as (g & st & Hg & Hrest). exists g, st. split; [by right | exact Hrest].
Qed.

Lemma specPairs_NoDup (steps : list Step) (gs : list Group) :
  NoDup (s_id <$> steps) -> NoDup (g_id <$> gs) -> NoDup (specPairs steps gs).
Proof.
  intros Hs Hg. apply (NoDup_fmap_1 fst).
  induction gs as [| grp rest IH]; simpl; [constructor |].
  rewrite fmap_cons in Hg. apply NoDup_cons in Hg as [Hfresh Hg].
  rewrite app_assoc, fmap_app. apply NoDup_app. split; [| split; [| by apply IH]].
  - eapply sublist_NoDup; [| apply group_pairs_sources].
    unfold stepsOfGroup. rewrite jsSort_perm.
    apply (sublist_NoDup _ (s_id <$> steps)); [exact Hs |].
    apply fmap_sublist, sublist_filter.
  - intros x Hx Hx'.
    pose proof (group_pairs_sources steps (stepsOfGroup steps grp) rest) as Hsub.
    apply (fun H => elem_of_sublist _ _ x H Hsub), list_elem_of_fmap in Hx as (st & -> & Hst).
    unfold stepsOfGroup in Hst. apply elem_of_jsSort, list_elem_of_filter in Hst as [Hgrp Hst].
    apply specPairs_source in Hx' as (g' & st' & Hg' & Hst' & Hgrp' & Hid).
    assert (st = st') by exact (NoDup_fmap_inj_on s_id steps st st' Hs Hst Hst' Hid).
    subst st'. apply Hfresh. rewrite <- Hgrp, Hgrp'. by apply list_elem_of_fmap_2.
Qed.

Lemma autoGenerateLinks_unique_ids (assemblyId : Z) (groups : list Group) (steps : list Step) :
  NoDup (s_id <$> steps) -> NoDup (g_id <$> groups) ->
  pairOf <$> autoGenerateLinks assemblyId groups steps (@nil StepLink)
  = specPairs steps (jsSort groupKey groups).
Proof.
  intros Hs Hg.
  unfold autoGenerateLinks. rewrite generate_pushPairs, pushPairs_links. cbn [gen_links gen_seen].
  rewrite app_nil_l, <- list_fmap_compose.
  rewrite dedup_NoDup_id.
  - etransitivity; [| apply list_fmap_id].
    apply list_fmap_ext. intros k [a b] _. reflexivity.
  - apply specPairs_NoDup; [exact Hs |]. by rewrite jsSort_perm.
  - set_solver.
Qed.

(** ** Saving the positions *)

Lemma savePositions_count (rowSaved : Z -> Q -> Q -> bool) (pos : gmap Z (Q * Q)) :
  savePositions rowSaved pos = length (filter (rowOk rowSaved) (map_to_list pos)).
Proof.
  unfold savePositions.
  assert (G : forall l c,
             fold_left (fun count '(id, (x, y)) => if rowSaved id x y then S count else count) l c
             = (c + length (filter (rowOk rowSaved) l))%nat).
  { induction l as [| [id [x y]] r IH]; intros c; simpl; [lia |].
    rewrite IH. destruct (rowSaved id x y) eqn:E.
    - rewrite filter_cons_True by exact E. simpl. lia.
    - rewrite filter_cons_False; [lia |]. unfold rowOk. simpl. congruence. }
  by rewrite G.
Qed.

Lemma length_filter_all {A} (P : A -> Prop) `{!forall x, Decision (P x)} (l : list A) :
  length (filter P l) = length l <-> forall x, x ∈ l -> P x.
Proof.
  split.
  - intros Hlen x Hx. destruct (decide (P x)) as [| Hn]; [done |].
    pose proof (length_filter_lt P l x Hx Hn). lia.
  - intros Hall. by rewrite filter_all.
Qed.

(** C1 (as the code has it). With a position map, [handleSave] writes the
    rows, reports the number written without error, and clears the
    dirty flag whatever that number is; the reported number is the size
    of the map exactly when every row was written. Without a position
    map it does nothing. *)
Theorem handleSave_clears_flag_and_reports_count
    (rowSaved : Z -> Q -> Q -> bool) (a : App) (pos : gmap Z (Q * Q)) :
  (_eagleEyePositions (view a) = None -> handleSave rowSaved a = (a, None)) /\
  (_eagleEyePositions (view a) = Some pos ->
   let count := savePositions rowSaved pos in
   layoutDirty (st (fst (handleSave rowSaved a))) = false /\
   view (fst (handleSave rowSaved a)) = view a /\
   snd (handleSave rowSaved a) = Some count /\
   (count <= size pos)%nat /\
   (count = size pos <-> allRowsSaved rowSaved pos)).
Proof.
  unfold handleSave. split; intros E; rewrite E; [reflexivity |].
  cbn [fst snd st view layoutDirty setLayoutDirty].
  rewrite savePositions_count, <- length_map_to_list.
  repeat split; try reflexivity.
  - apply length_filter.
  - intros Hlen id x y Hid.
    apply (proj1 (length_filter_all (rowOk rowSaved) (map_to_list pos)) Hlen (id, (x, y))).
    by apply elem_of_map_to_list.
  - intros Hall. apply (proj2 (length_filter_all (rowOk rowSaved) (map_to_list pos))).
    intros [id [x y]] Hin. apply elem_of_map_to_list in Hin. by apply Hall.
Qed.

Lemma handleSave_clears_flag_and_reports_count_witness :
  _eagleEyePositions (view unsavedApp) = Some pendingPositions /\
  let count := savePositions (fun _ _ _ => false) pendingPositions in
  layoutDirty (st (fst (handleSave (fun _ _ _ => false) unsavedApp))) = false /\
  view (fst (handleSave (fun _ _ _ => false) unsavedApp)) = view unsavedApp /\
  snd (handleSave (fun _ _ _ => false) unsavedApp) = Some count /\
  (count <= size pendingPositions)%nat /\
  (count = size pendingPositions <-> allRowsSaved (fun _ _ _ => false) pendingPositions).
Proof.
  split; [reflexivity |].
  apply (handleSave_clears_flag_and_reports_count (fun _ _ _ => false) unsavedApp
           pendingPositions).
  reflexivity.
Defined.

(** C1, the claim as stated fails: one position is pending, its row is
    rejected by the store, and after [handleSave] the dirty flag is
    clear although no row was written. *)
Lemma dirty_flag_cleared_on_failed_save_counterexample :
  ~ clearOnlyIfAllSaved (fun _ _ _ => false) unsavedApp.
Proof.
  intros H. specialize (H pendingPositions eq_refl eq_refl 10%Z 220 150).
  unfold pendingPositions in H. rewrite lookup_singleton_eq in H. by specialize (H eq_refl).
Qed.

(** ** The scenarios of the specification on the embedding *)

(** At t = 1/2 a horizontal link is on its own line, halfway. *)
Example bezier_midpoint_horizontal :
  pt_y (bezierPoint (1 # 2) 295 150 435 150) == 150 /\
  pt_x (bezierPoint (1 # 2) 295 150 435 150) == 365.
Proof. split; reflexivity. Qed.

(** The point at t0 = 0.3 of a link is found again within 0.01. *)
Example nearestT_round_trip :
  let p := bezierPoint (3 # 10) 295 150 435 325 in
  nearestT (pt_x p) (pt_y p) 295 150 435 325 == 3 # 10.
Proof. vm_compute. reflexivity. Qed.

(** Linear chain: three steps in one column, one spacing unit apart,
    the group at the middle step's y. *)
Example linear_chain_layout :
  (fun nd => (n_id nd, Qred (n_x nd), Qred (n_y nd)))
    <$> default [] (nodes <$> calculateTreeLayout linearChain)
  = [(SId 10, 220, 150); (SId 11, 220, 230); (SId 12, 220, 310);
     (GId 1, 520, 230); (RootId, 760, 230)].
Proof. vm_compute. reflexivity. Qed.

(** Filter toggling: with only the first group visible the other groups
    have no node; without the filter all nodes are back. *)
Example filter_toggling :
  nodeIds (calculateTreeLayout onlyFirstBand)
  = [SId 10; SId 11; SId 12; GId 1; RootId] /\
  nodeIds (calculateTreeLayout threeBands)
  = [SId 10; SId 11; SId 12; GId 1; SId 20; GId 2; GId 3; RootId].
Proof. vm_compute. split; reflexivity. Qed.

(** The helper on [threeBands]: a chain in the first group and a bridge
    to the second; the empty third group gets no bridge. *)
Example autoGenerateLinks_threeBands :
  pairOf <$> autoGenerateLinks 1 (groups threeBands) (steps threeBands) (@nil StepLink)
  = [(10, 11); (11, 12); (12, 20)]%Z.
Proof. vm_compute. reflexivity. Qed.

(** * Further properties of the code *)

(** ** Change markers and their cascade *)

Lemma fold_addUnmarked_elem (m : gmap Z string) (l : list Step) (aff : gset Z) (x : Z) :
  x ∈ fold_left (fun aff s => match marker m (s_id s) with
                              | Some _ => aff
                              | None => {[ s_id s ]} ∪ aff
                              end) l aff
  <-> x ∈ aff \/ (marker m x = None /\ exists s, s ∈ l /\ s_id s = x).
Proof.
  revert aff. induction l as [| a r IH]; intros aff; simpl.
  - split; [by left | intros [? | (_ & s & Hs & _)]; [done | by apply not_elem_of_nil in Hs]].
  - rewrite IH. destruct (marker m (s_id a)) as [e |] eqn:Ea.
    + split.
      * intros [? | (Hm & s & Hs & E)]; [by left |].
        right. split; [exact Hm |]. exists s. split; [by right | exact E].
      * intros [? | (Hm & s & Hs & E)]; [by left |].
        apply elem_of_cons in Hs as [-> | Hs]; [congruence |].
        right. split; [exact Hm |]. by exists s.
    + rewrite elem_of_union, elem_of_singleton. split.
      * intros [[-> | ?] | (Hm & s & Hs & E)].
        -- right. split; [exact Ea |]. exists a. split; [by left | reflexivity].
        -- by left.
        -- right. split; [exact Hm |]. exists s. split; [by right | exact E].
      * intros [? | (Hm & s & Hs & E)]; [left; by right |].
        apply elem_of_cons in Hs as [-> | Hs]; [left; by left |].
        right. split; [exact Hm |]. by exists s.
Qed.

Lemma addUnmarked_elem (m : gmap Z string) (gSteps : list Step) (from : nat)
    (aff : gset Z) (x : Z) :
  x ∈ addUnmarked m gSteps from aff
  <-> x ∈ aff \/ (marker m x = None /\
                  exists j sj, (from <= j)%nat /\ gSteps !! j = Some sj /\ s_id sj = x).
Proof.
  unfold addUnmarked. rewrite fold_addUnmarked_elem.
  split; (intros [? | (Hm & H)]; [by left | right; split; [exact Hm |]]).
  - destruct H as (s & Hs & E). apply list_elem_of_lookup in Hs as (k & Hk).
    rewrite lookup_drop in Hk. exists (from + k)%nat, s. split; [lia | by split].
  - destruct H as (j & sj & Hj & Hsj & E). exists sj. split; [| exact E].
    apply list_elem_of_lookup. exists (j - from)%nat. rewrite lookup_drop.
    by replace (from + (j - from))%nat with j by lia.
Qed.

Lemma affected_of_group (steps : list Step) (m : gmap Z string) (grp : Group)
    (aff : gset Z) (x : Z) :
  x ∈ match earliestIdx m (stepsOfGroup steps grp) with
      | Some i => addUnmarked m (stepsOfGroup steps grp) (S i) aff
      | None => aff
      end
  <-> x ∈ aff \/ (marker m x = None /\ afterDirect steps m grp x).
Proof.
  unfold earliestIdx, afterDirect.
  destruct (list_find _ (stepsOfGroup steps grp)) as [[i si] |] eqn:Ef; simpl.
  - apply list_find_Some in Ef as (Hi & Hd & Hbefore).
    rewrite addUnmarked_elem.
    split; (intros [? | (Hm & H)]; [by left | right; split; [exact Hm |]]).
    + destruct H as (j & sj & Hj & Hsj & E). exists i, j, si, sj. repeat split; try done; lia.
    + destruct H as (i' & j & si' & sj & Hi' & Hsj & Hlt & Hd' & E).
      exists j, sj. repeat split; try done.
      destruct (decide (i' < i)%nat) as [Hlt' |]; [| lia].
      exfalso. by apply (Hbefore i' si' Hi' Hlt').
  - apply list_find_None in Ef.
    split; [by left |]. intros [? | (_ & i & j & si & sj & Hi & _ & _ & Hd & _)]; [done |].
    exfalso. rewrite Forall_forall in Ef. apply (Ef si); [| exact Hd].
    by eapply list_elem_of_lookup_2.
Qed.

Lemma affected_fold (groups : list Group) (steps : list Step) (m : gmap Z string)
    (aff : gset Z) (sid : Z) :
  sid ∈ fold_left (fun affected grp =>
                     let gSteps := stepsOfGroup steps grp in
                     match earliestIdx m gSteps with
                     | Some i => addUnmarked m gSteps (S i) affected
                     | None => affected
                     end) groups aff
  <-> sid ∈ aff \/ (marker m sid = None /\
                    exists grp, grp ∈ groups /\ afterDirect steps m grp sid).
Proof.
  revert aff. induction groups as [| g r IH]; intros aff; simpl.
  - split; [by left | intros [? | (_ & grp & Hg & _)]; [done | by apply not_elem_of_nil in Hg]].
  - rewrite IH, affected_of_group. split.
    + intros [[? | (Hm & Ha)] | (Hm & grp & Hg & Ha)].
      * by left.
      * right. split; [exact Hm |]. exists g. split; [by left | exact Ha].
      * right. split; [exact Hm |]. exists grp. split; [by right | exact Ha].
    + intros [? | (Hm & grp & Hg & Ha)]; [left; by left |].
      apply elem_of_cons in Hg as [-> | Hg]; [left; right; by split |].
      right. split; [exact Hm |]. by exists grp.
Qed.

(** X1. The cascade of change markers.  A step is reported as affected
    exactly when it has no marker of its own and, in the sort order of
    one of the groups, it comes after a step that carries a direct
    marker (remove, replace, add, modify). *)
Theorem getEcnAffectedSteps_iff (groups : list Group) (steps : list Step)
    (m : gmap Z string) (sid : Z) :
  sid ∈ getEcnAffectedSteps groups steps m
  <-> marker m sid = None /\ exists grp, grp ∈ groups /\ afterDirect steps m grp sid.
Proof.
  unfold getEcnAffectedSteps. rewrite affected_fold.
  split; [intros [H | H]; [by apply not_elem_of_empty in H | exact H] | by right].
Qed.

(** X2. Two clicks on one step with one brush.  The brush and the
    markers of all other steps are as before; the step itself is as
    before when it was unmarked or carried the brush's marker, and
    otherwise its other marker is gone instead of restored. *)
Theorem toggleEcnStep_twice (id : Z) (e : Markers) :
  let e2 := fst (toggleEcnStep id (fst (toggleEcnStep id e))) in
  ecnBrush e2 = ecnBrush e /\
  (forall k, k <> id -> ecnChanges e2 !! k = ecnChanges e !! k) /\
  ecnChanges e2 !! id
  = (if decide (ecnChanges e !! id = Some (ecnBrush e)) then Some (ecnBrush e) else None) /\
  (ecnChanges e !! id = None \/ ecnChanges e !! id = Some (ecnBrush e) -> e2 = e).
Proof.
  unfold toggleEcnStep.
  destruct (decide (ecnChanges e !! id = Some (ecnBrush e))) as [Heq | Hne]; cbn [fst ecnBrush ecnChanges].
  - rewrite lookup_delete_eq.
    destruct (decide (None = Some (ecnBrush e))) as [? |_]; [discriminate |].
    cbn [fst ecnBrush ecnChanges]. split; [reflexivity |]. split; [| split].
    + intros k Hk. by rewrite lookup_insert_ne, lookup_delete_ne.
    + by rewrite lookup_insert_eq.
    + intros _. destruct e as [b m]. cbn in *. f_equal.
      rewrite insert_delete_eq. by apply insert_id.
  - rewrite lookup_insert_eq.
    destruct (decide (Some (ecnBrush e) = Some (ecnBrush e))) as [_ | ?]; [| done].
    cbn [fst ecnBrush ecnChanges]. split; [reflexivity |]. split; [| split].
    + intros k Hk. by rewrite lookup_delete_ne, lookup_insert_ne.
    + by rewrite lookup_delete_eq.
    + intros [Hn | ?]; [| done]. destruct e as [b m]. cbn in *. f_equal.
      rewrite delete_insert_eq. by apply delete_id.
Qed.

Lemma directTypes_truthy (ecn : string) : directTypes ecn = true -> ecn <> EmptyString.
Proof. intros H ->. vm_compute in H. discriminate. Qed.

(** X3. The record [toggleEcnStep] returns for the caller to persist
    tells what it did: handing the reported status to [setEcnStatus] on
    the markers as they were gives the markers as the toggle left them,
    provided the brush is not the empty string. *)
Theorem setEcnStatus_replays_toggle (id : Z) (e : Markers) :
  ecnBrush e <> EmptyString ->
  fst (snd (toggleEcnStep id e)) = id /\
  setEcnStatus (fst (snd (toggleEcnStep id e))) (snd (snd (toggleEcnStep id e))) e
  = fst (toggleEcnStep id e).
Proof.
  intros Hb. unfold toggleEcnStep, setEcnStatus.
  destruct (decide (ecnChanges e !! id = Some (ecnBrush e))); cbn [fst snd truthyStr].
  - done.
  - destruct (decide (ecnBrush e = EmptyString)); done.
Qed.

Lemma setEcnStatus_replays_toggle_witness :
  "remove"%string <> EmptyString /\
  (fst (snd (toggleEcnStep 10 (mkMarkers "remove" ∅))) = 10%Z /\
   setEcnStatus (fst (snd (toggleEcnStep 10 (mkMarkers "remove" ∅))))
                (snd (snd (toggleEcnStep 10 (mkMarkers "remove" ∅))))
                (mkMarkers "remove" ∅)
   = fst (toggleEcnStep 10 (mkMarkers "remove" ∅))).
Proof.
  split; [discriminate |].
  apply (setEcnStatus_replays_toggle 10 (mkMarkers "remove" ∅)). discriminate.
Defined.

Lemma restore_lookup (rows : list StepRow) (m0 : gmap Z string) (id : Z) (status : string) :
  NoDup ((s_id ∘ sr_step) <$> rows) ->
  (forall r, r ∈ rows -> m0 !! s_id (sr_step r) = None) ->
  fold_left (fun m r => match truthyStr (sr_ecn_status r) with
                        | Some status => <[s_id (sr_step r) := status]> m
                        | None => m
                        end) rows m0 !! id = Some status
  <-> m0 !! id = Some status \/
      exists r, r ∈ rows /\ s_id (sr_step r) = id /\ truthyStr (sr_ecn_status r) = Some status.
Proof.
  revert m0. induction rows as [| a r IH]; intros m0 Hnd Hfresh; simpl.
  - split; [by left | intros [? | (x & Hx & _)]; [done | by apply not_elem_of_nil in Hx]].
  - rewrite fmap_cons in Hnd. apply NoDup_cons in Hnd as [Hnotin Hnd].
    assert (Hfa : m0 !! s_id (sr_step a) = None) by (apply Hfresh; left).
    rewrite IH; [| exact Hnd |].
    + destruct (truthyStr (sr_ecn_status a)) as [sa |] eqn:Ea.
      * destruct (decide (s_id (sr_step a) = id)) as [<- | Hne].
        -- rewrite lookup_insert_eq. split.
           ++ intros [[= <-] | (x & Hx & Hid & Hst)].
              ** right. exists a. split; [by left | by split].
              ** exfalso. apply Hnotin. apply list_elem_of_fmap.
                 exists x. split; [simpl; congruence | exact Hx].
           ++ intros [H0 | (x & Hx & Hid & Hst)]; [congruence |].
              apply elem_of_cons in Hx as [-> | Hx]; [left; congruence |].
              right. by exists x.
        -- rewrite lookup_insert_ne by done. split.
           ++ intros [? | (x & Hx & Hid & Hst)]; [by left |].
              right. exists x. split; [by right | by split].
           ++ intros [? | (x & Hx & Hid & Hst)]; [by left |].
              apply elem_of_cons in Hx as [-> | Hx]; [congruence |].
              right. by exists x.
      * split.
        -- intros [? | (x & Hx & Hid & Hst)]; [by left |].
           right. exists x. split; [by right | by split].
        -- intros [? | (x & Hx & Hid & Hst)]; [by left |].
           apply elem_of_cons in Hx as [-> | Hx]; [congruence |].
           right. by exists x.
    + intros x Hx. destruct (truthyStr (sr_ecn_status a)); [| apply Hfresh; by right].
      rewrite lookup_insert_ne; [apply Hfresh; by right |].
      intros E. apply Hnotin. apply list_elem_of_fmap.
      exists x. split; [simpl; congruence | exact Hx].
Qed.

(** X4. Loading restores the markers from the rows and forgets the
    markers held before: with unique step identifiers, a step has the
    marker [status] after [setData] exactly when its row has that
    non-empty status. *)
Theorem setData_restores_markers (rows : list StepRow) (e : Markers) (id : Z) (status : string) :
  NoDup ((s_id ∘ sr_step) <$> rows) ->
  ecnChanges (setData rows e) !! id = Some status
  <-> exists r, r ∈ rows /\ s_id (sr_step r) = id /\
                sr_ecn_status r = Some status /\ status <> EmptyString.
Proof.
  intros Hnd. unfold setData. cbn [ecnChanges].
  rewrite restore_lookup; [| exact Hnd | intros; apply lookup_empty].
  rewrite lookup_empty. split.
  - intros [? | (r & Hr & Hid & Hst)]; [discriminate |].
    exists r. split; [exact Hr |]. split; [exact Hid |].
    unfold truthyStr in Hst. destruct (sr_ecn_status r) as [x |]; [| discriminate].
    destruct (decide (x = EmptyString)); [discriminate |]. injection Hst as ->. by split.
  - intros (r & Hr & Hid & Hst & Hne). right. exists r. split; [exact Hr |]. split; [exact Hid |].
    unfold truthyStr. rewrite Hst. by destruct (decide (status = EmptyString)).
Qed.

Lemma setData_restores_markers_witness :
  NoDup ((s_id ∘ sr_step) <$> markedRows) /\
  (ecnChanges (setData markedRows noMarkers) !! 10%Z = Some "remove"%string
   <-> exists r, r ∈ markedRows /\ s_id (sr_step r) = 10%Z /\
                 sr_ecn_status r = Some "remove"%string /\ "remove"%string <> EmptyString).
Proof.
  assert (Hnd : NoDup ((s_id ∘ sr_step) <$> markedRows)).
  { apply (bool_decide_unpack (NoDup ((s_id ∘ sr_step) <$> markedRows))). vm_compute. exact I. }
  split; [exact Hnd |].
  apply (setData_restores_markers markedRows noMarkers 10 "remove" Hnd).
Defined.

(** X5. Marking cascades.  When a step that does not carry the brush's
    marker is clicked with a direct brush, every step after it in its
    group's sort order that has no marker of its own is reported as
    affected. *)
Theorem direct_mark_cascades (groups : list Group) (steps : list Step) (e : Markers)
    (grp : Group) (i j : nat) (si sj : Step) :
  directTypes (ecnBrush e) = true ->
  ecnChanges e !! s_id si <> Some (ecnBrush e) ->
  grp ∈ groups ->
  stepsOfGroup steps grp !! i = Some si ->
  stepsOfGroup steps grp !! j = Some sj ->
  (i < j)%nat ->
  marker (ecnChanges (fst (toggleEcnStep (s_id si) e))) (s_id sj) = None ->
  s_id sj ∈ getEcnAffectedSteps groups steps (ecnChanges (fst (toggleEcnStep (s_id si) e))).
Proof.
  intros Hd Hne Hg Hi Hj Hlt Hm.
  unfold getEcnAffectedSteps. apply affected_fold. right. split; [exact Hm |].
  exists grp. split; [exact Hg |]. exists i, j, si, sj. repeat split; try done.
  unfold toggleEcnStep. destruct (decide _) as [? | _]; [contradiction |].
  cbn [fst ecnChanges]. unfold directlyMarked, marker. rewrite lookup_insert_eq.
  cbn [truthyStr]. destruct (decide (ecnBrush e = EmptyString)) as [E |]; [| exact Hd].
  by apply directTypes_truthy in Hd.
Qed.

Lemma direct_mark_cascades_witness :
  directTypes (ecnBrush noMarkers) = true /\
  stepsOfGroup (steps threeBands) (mkGroup 1 "A" (Some 1%Z)) !! 0%nat
  = Some (mkStep 10 1 "a1" (Some 1%Z) None None None None) /\
  stepsOfGroup (steps threeBands) (mkGroup 1 "A" (Some 1%Z)) !! 1%nat
  = Some (mkStep 11 1 "a2" (Some 2%Z) None None None None) /\
  11%Z ∈ getEcnAffectedSteps (groups threeBands) (steps threeBands)
           (ecnChanges (fst (toggleEcnStep 10 noMarkers))).
Proof.
  split; [vm_compute; reflexivity |].
  split; [vm_compute; reflexivity |].
  split; [vm_compute; reflexivity |].
  apply (direct_mark_cascades (groups threeBands) (steps threeBands) noMarkers
           (mkGroup 1 "A" (Some 1%Z)) 0 1
           (mkStep 10 1 "a1" (Some 1%Z) None None None None)
           (mkStep 11 1 "a2" (Some 2%Z) None None None None)).
  - vm_compute. reflexivity.
  - vm_compute. discriminate.
  - vm_compute. left.
  - vm_compute. reflexivity.
  - vm_compute. reflexivity.
  - lia.
  - vm_compute. reflexivity.
Defined.

(** ** The group filter *)

Lemma filter_keeps_data (s : State) (a : FilterAction) :
  groups (filterStep s a) = groups s /\ steps (filterStep s a) = steps s.
Proof.
  destruct a as [gid | | m]; simpl.
  - unfold toggleGroupFilter. destruct (visibleGroupIds s) as [ids |]; [| done].
    destruct (decide (gid ∈ ids)); [done |].
    by destruct (decide (size ({[gid]} ∪ ids) = length (groups s))).
  - done.
  - unfold filterEcnOnly. by destruct (decide _).
Qed.

Lemma ecnGroupIds_subseteq (m : gmap Z string) (s : State) :
  (forall st, st ∈ steps s -> s_group_id st ∈ groupIds s) ->
  ecnGroupIds m (steps s) ⊆ groupIds s.
Proof.
  intros Hall x Hx. unfold ecnGroupIds in Hx.
  apply elem_of_list_to_set, list_elem_of_omap in Hx as (id & _ & Hx).
  destruct (list_find _ (steps s)) as [[k st] |] eqn:Ef; [| discriminate].
  simpl in Hx. injection Hx as <-. apply Hall.
  apply list_find_Some in Ef as (Hk & _). by eapply list_elem_of_lookup_2.
Qed.

Lemma filterStep_ok (s : State) (a : FilterAction) :
  (forall st, st ∈ steps s -> s_group_id st ∈ groupIds s) ->
  (forall gid, a = Chip gid -> gid ∈ groupIds s) ->
  filterOk s -> filterOk (filterStep s a).
Proof.
  intros Hsteps Hchip Hok. destruct a as [gid | | m]; simpl.
  - specialize (Hchip gid eq_refl).
    unfold toggleGroupFilter, filterOk in *.
    destruct (visibleGroupIds s) as [ids |] eqn:Ev; cbn [visibleGroupIds setVisibleGroupIds].
    + destruct Hok as [Hne Hsub].
      destruct (decide (gid ∈ ids)) as [Hin | Hnin]; cbn [visibleGroupIds setVisibleGroupIds].
      * destruct (decide (size (ids ∖ {[gid]}) = 0%nat)) as [| Hsz]; [done |].
        split; [| set_solver]. intros E. apply Hsz. rewrite E. apply size_empty.
      * destruct (decide (size ({[gid]} ∪ ids) = length (groups s)));
          cbn [visibleGroupIds setVisibleGroupIds]; [done |].
        split; [set_solver |]. unfold groupIds in *. cbn [groups]. set_solver.
    + split; [set_solver |]. unfold groupIds in *. cbn [groups]. set_solver.
  - done.
  - unfold filterEcnOnly.
    destruct (decide (size (ecnGroupIds m (steps s)) = 0%nat)) as [| Hsz]; [exact Hok |].
    unfold filterOk. cbn [visibleGroupIds setVisibleGroupIds]. split.
    + intros E. apply Hsz. rewrite E. apply size_empty.
    + pose proof (ecnGroupIds_subseteq m s Hsteps) as Hsub.
      unfold groupIds in *. cbn [groups]. exact Hsub.
Qed.

Lemma filterOk_layout (s : State) :
  groups s <> [] -> steps s <> [] -> filterOk s -> is_Some (calculateTreeLayout s).
Proof.
  intros Hg Hs Hok. unfold calculateTreeLayout.
  destruct (decide (groups s = [] \/ steps s = [])) as [[? | ?] |]; [done | done |].
  destruct (decide (filterGroups s = [])) as [Hnil |]; [| by eexists].
  exfalso. unfold filterOk in Hok. unfold filterGroups in Hnil.
  destruct (visibleGroupIds s) as [ids |].
  - destruct Hok as [Hne Hsub].
    apply set_choose_L in Hne as [x Hx].
    assert (Hx' : x ∈ groupIds s) by set_solver.
    unfold groupIds in Hx'. apply elem_of_list_to_set, list_elem_of_fmap in Hx' as (g & -> & Hgin).
    assert (Hin : g ∈ filter (fun g => g_id g ∈ ids) (jsSort (fun g => sortKey (g_sort_order g)) (groups s))).
    { apply list_elem_of_filter. split; [exact Hx |]. by apply elem_of_jsSort. }
    rewrite Hnil in Hin. by apply not_elem_of_nil in Hin.
  - apply jsSort_nil in Hnil. done.
Qed.

(** X6. The filter bar cannot blank the graph.  Starting without a
    filter, after any sequence of chip clicks (on chips of loaded
    groups), "All" and "ECN only" presses, the filter is never an empty
    selection and the layout exists, as long as there are groups and
    steps and every step belongs to a loaded group. *)
Theorem filter_bar_never_blanks (s : State) (acts : list FilterAction) :
  groups s <> [] -> steps s <> [] ->
  visibleGroupIds s = None ->
  (forall st, st ∈ steps s -> s_group_id st ∈ groupIds s) ->
  (forall gid, Chip gid ∈ acts -> gid ∈ groupIds s) ->
  visibleGroupIds (filterSteps acts s) <> Some ∅ /\
  is_Some (calculateTreeLayout (filterSteps acts s)).
Proof.
  intros Hg Hs Hv Hsteps Hchips.
  assert (Hok : filterOk s) by (unfold filterOk; by rewrite Hv).
  clear Hv.
  assert (G : filterOk (filterSteps acts s) /\
              groups (filterSteps acts s) = groups s /\ steps (filterSteps acts s) = steps s).
  { revert s Hg Hs Hsteps Hchips Hok. induction acts as [| a r IH]; intros s Hg Hs Hsteps Hchips Hok.
    - done.
    - unfold filterSteps in *. simpl.
      destruct (filter_keeps_data s a) as [Eg Es].
      assert (Eids : groupIds (filterStep s a) = groupIds s) by (unfold groupIds; by rewrite Eg).
      destruct (IH (filterStep s a)) as (H1 & H2 & H3).
      + by rewrite Eg.
      + by rewrite Es.
      + rewrite Es, Eids. exact Hsteps.
      + rewrite Eids. intros gid Hin. apply Hchips. by right.
      + apply filterStep_ok; [exact Hsteps | | exact Hok].
        intros gid ->. apply Hchips. by left.
      + split; [exact H1 |]. split; congruence. }
  destruct G as (Hok' & Eg & Es). split.
  - unfold filterOk in Hok'. destruct (visibleGroupIds (filterSteps acts s)) as [ids |]; [| done].
    destruct Hok' as [Hne _]. congruence.
  - apply filterOk_layout; [by rewrite Eg | by rewrite Es | exact Hok'].
Qed.

Lemma filter_bar_never_blanks_witness :
  visibleGroupIds threeBands = None /\
  visibleGroupIds (filterSteps chipClicks threeBands) <> Some ∅ /\
  is_Some (calculateTreeLayout (filterSteps chipClicks threeBands)).
Proof.
  split; [reflexivity |].
  apply (filter_bar_never_blanks threeBands chipClicks).
  - discriminate.
  - discriminate.
  - reflexivity.
  - apply Forall_forall. apply (bool_decide_unpack _). vm_compute. exact I.
  - intros gid Hin. unfold chipClicks in Hin.
    repeat (apply elem_of_cons in Hin as [Hin | Hin];
            [first [discriminate Hin
                   | injection Hin as ->; apply (bool_decide_unpack _); vm_compute; exact I] |]).
    by apply not_elem_of_nil in Hin.
Defined.

Lemma setVisibleGroupIds_same (s : State) :
  setVisibleGroupIds (visibleGroupIds s) s = s.
Proof. by destruct s. Qed.

Lemma setVisibleGroupIds_twice (a b : option (gset Z)) (s : State) :
  setVisibleGroupIds a (setVisibleGroupIds b s) = setVisibleGroupIds a s.
Proof. reflexivity. Qed.

(** X7. A second click on a chip undoes the first, unless the selection
    reaches as many identifiers as there are groups (then the filter is
    switched off instead) or the filter was an empty selection. *)
Theorem toggleGroupFilter_twice (gid : Z) (s : State) :
  (forall ids, visibleGroupIds s = Some ids ->
               ids <> ∅ /\ size ({[ gid ]} ∪ ids) <> length (groups s)) ->
  toggleGroupFilter gid (toggleGroupFilter gid s) = s.
Proof.
  destruct s as [a g st p f sp sf ld g1 g2 v]. cbn [visibleGroupIds groups]. intros Hyp.
  destruct v as [ids |].
  - destruct (Hyp ids eq_refl) as [Hne Hsz].
    unfold toggleGroupFilter at 2. cbn [visibleGroupIds groups].
    destruct (decide (gid ∈ ids)) as [Hin | Hnin].
    + assert (Eu : {[gid]} ∪ ids = ids) by set_solver.
      assert (Ed : {[gid]} ∪ ids ∖ {[gid]} = ids).
      { apply set_eq. intros x. rewrite elem_of_union, elem_of_difference, elem_of_singleton.
        destruct (decide (x = gid)) as [-> |]; tauto. }
      destruct (decide (size (ids ∖ {[gid]}) = 0%nat)) as [Hz | Hnz].
      * unfold toggleGroupFilter, setVisibleGroupIds. cbn.
        do 2 f_equal. apply size_empty_iff, leibniz_equiv in Hz.
        rewrite <- Ed, Hz. set_solver.
      * unfold toggleGroupFilter, setVisibleGroupIds. cbn.
        destruct (decide (gid ∈ ids ∖ {[gid]})) as [Hbad |]; [set_solver |].
        rewrite Ed. rewrite Eu in Hsz.
        destruct (decide (size ids = length g)); [contradiction |]. reflexivity.
    + destruct (decide (size ({[gid]} ∪ ids) = length g)); [contradiction |].
      unfold toggleGroupFilter, setVisibleGroupIds. cbn.
      destruct (decide (gid ∈ {[gid]} ∪ ids)) as [_ | Hbad]; [| set_solver].
      assert (Ed : ({[gid]} ∪ ids) ∖ {[gid]} = ids) by set_solver.
      rewrite Ed.
      destruct (decide (size ids = 0%nat)) as [Hz |]; [| reflexivity].
      apply size_empty_iff, leibniz_equiv in Hz. contradiction.
  - unfold toggleGroupFilter, setVisibleGroupIds. cbn.
    destruct (decide (gid ∈ ({[gid]} : gset Z))) as [_ | Hbad]; [| set_solver].
    assert (Ed : ({[gid]} : gset Z) ∖ {[gid]} = ∅) by set_solver.
    rewrite Ed.
    destruct (decide (size (∅ : gset Z) = 0%nat)) as [_ | Hbad]; [reflexivity |].
    by rewrite size_empty in Hbad.
Qed.

Lemma toggleGroupFilter_twice_witness :
  visibleGroupIds onlyFirstBand = Some {[ 1%Z ]} /\
  toggleGroupFilter 2 (toggleGroupFilter 2 onlyFirstBand) = onlyFirstBand.
Proof.
  split; [reflexivity |].
  apply (toggleGroupFilter_twice 2 onlyFirstBand).
  intros ids [= <-]. split.
  - apply (bool_decide_unpack _). vm_compute. exact I.
  - vm_compute. lia.
Defined.

(** ** Column spacing *)

Lemma mathRound_bounds (x : Q) (lo hi : Z) :
  inject_Z lo <= x -> x <= inject_Z hi -> (lo <= mathRound x <= hi)%Z.
Proof.
  intros Hlo Hhi. unfold mathRound. split.
  - rewrite <- (Qfloor_Z lo). apply Qfloor_resp_le. lra.
  - pose proof (Qfloor_le (x + (1 # 2))) as Hf.
    assert (Hlt : inject_Z (Qfloor (x + (1 # 2))) < inject_Z (hi + 1)).
    { rewrite inject_Z_plus. change (inject_Z 1) with 1. lra. }
    rewrite <- Zlt_Qlt in Hlt. lia.
Qed.

(** X8. The "Equal" button.  With both gaps in the range of their
    sliders, it sets the first gap to the rounded average clamped to
    [120, 500] and the second to the same average clamped to
    [100, 400]; the two gaps come out equal exactly when the rounded
    average lies in [120, 400]. *)
Theorem spacingEqual_spec (s : State) :
  120 <= gap1 s /\ gap1 s <= 500 ->
  100 <= gap2 s /\ gap2 s <= 400 ->
  let avg := mathRound ((gap1 s + gap2 s) / 2) in
  exists s',
    spacingEqual s = Some s' /\
    gap1 s' = inject_Z (Z.max 120 (Z.min 500 avg)) /\
    gap2 s' = inject_Z (Z.max 100 (Z.min 400 avg)) /\
    (gap1 s' = gap2 s' <-> (120 <= avg <= 400)%Z).
Proof.
  intros [H1 H1'] [H2 H2'] avg.
  assert (Havg : (110 <= avg <= 450)%Z).
  { apply mathRound_bounds.
    - change (inject_Z 110) with 110. unfold Qdiv. change (/ 2) with (1 # 2). lra.
    - change (inject_Z 450) with 450. unfold Qdiv. change (/ 2) with (1 # 2). lra. }
  unfold spacingEqual. fold avg.
  destruct (decide (Z.abs avg < 10 ^ 21)%Z) as [_ | Hbig]; [| exfalso; apply Hbig; lia].
  eexists. split; [reflexivity |].
  unfold syncGap1, syncGap2, parsedOr, setGap1, setGap2. cbn [gap1 gap2].
  destruct (decide (avg = 0%Z)) as [-> |]; [lia |].
  split; [reflexivity |]. split; [reflexivity |].
  split.
  - intros E. unfold inject_Z in E. injection E as E. lia.
  - intros H. f_equal. lia.
Qed.

Lemma spacingEqual_spec_witness :
  (120 <= gap1 threeBands /\ gap1 threeBands <= 500) /\
  (100 <= gap2 threeBands /\ gap2 threeBands <= 400) /\
  exists s',
    spacingEqual threeBands = Some s' /\
    gap1 s' = inject_Z (Z.max 120 (Z.min 500 (mathRound ((gap1 threeBands + gap2 threeBands) / 2)))) /\
    gap2 s' = inject_Z (Z.max 100 (Z.min 400 (mathRound ((gap1 threeBands + gap2 threeBands) / 2)))) /\
    (gap1 s' = gap2 s'
     <-> (120 <= mathRound ((gap1 threeBands + gap2 threeBands) / 2) <= 400)%Z).
Proof.
  assert (H1 : 120 <= gap1 threeBands /\ gap1 threeBands <= 500)
    by (split; vm_compute; discriminate).
  assert (H2 : 100 <= gap2 threeBands /\ gap2 threeBands <= 400)
    by (split; vm_compute; discriminate).
  split; [exact H1 |]. split; [exact H2 |].
  apply (spacingEqual_spec threeBands H1 H2).
Defined.

(** ** Fitting the drawing to the viewport *)

(** The bounds reach 40 above and below the node [n]. *)
Lemma growBounds_covers (l : list Node) (b : Bounds) (n : Node) :
  n ∈ l \/ (exists lo hi, b_minY b = Some lo /\ b_maxY b = Some hi /\
                          lo <= n_y n - 40 /\ n_y n + 40 <= hi) ->
  exists lo hi,
    b_minY (fold_left growBounds l b) = Some lo /\
    b_maxY (fold_left growBounds l b) = Some hi /\
    lo <= n_y n - 40 /\ n_y n + 40 <= hi.
Proof.
  revert b. induction l as [| a r IH]; intros b [Hin | Hcov]; simpl.
  - by apply not_elem_of_nil in Hin.
  - exact Hcov.
  - apply IH. apply elem_of_cons in Hin as [-> | Hin]; [right | by left].
    unfold growBounds. cbn [b_minY b_maxY]. do 2 eexists.
    split; [reflexivity |]. split; [reflexivity |].
    destruct (b_minY b), (b_maxY b); split;
      try apply Q.le_min_r; try apply Q.le_max_r; apply Qle_refl.
  - apply IH. right. destruct Hcov as (lo & hi & E1 & E2 & Hlo & Hhi).
    unfold growBounds. cbn [b_minY b_maxY]. rewrite E1, E2. do 2 eexists.
    split; [reflexivity |]. split; [reflexivity |]. split.
    + apply (Qle_trans _ lo); [apply Q.le_min_l | exact Hlo].
    + apply (Qle_trans _ hi); [exact Hhi | apply Q.le_max_l].
Qed.

Lemma growBounds_maxX (l : list Node) (b : Bounds) :
  b_maxX (fold_left growBounds l b) = b_maxX b.
Proof. revert b. induction l as [| a r IH]; intros b; simpl; [reflexivity |]. by rewrite IH. Qed.

Lemma layout_step_box (s : State) (lay : LayoutResult) :
  calculateTreeLayout s = Some lay ->
  forall nd, nd ∈ nodes lay -> n_kind nd = KStep ->
             n_w nd = NODE_WIDTH /\ n_h nd = NODE_HEIGHT.
Proof.
  intros H. apply calculateTreeLayout_Some in H as (_ & _ & _ & Hn & _).
  rewrite Hn. intros nd Hnd Hk.
  apply elem_of_app in Hnd as [Hnd | Hnd].
  - revert nd Hnd Hk. unfold forEachI.
    apply (forEachFrom_inv (layoutGroup s (length (filterGroups s)))
             (fun acc => forall nd, nd ∈ allNodes acc -> n_kind nd = KStep ->
                                    n_w nd = NODE_WIDTH /\ n_h nd = NODE_HEIGHT)).
    + intros acc g k _ IH nd Hnd Hk. rewrite allNodes_layoutGroup in Hnd.
      apply elem_of_app in Hnd as [Hnd | Hnd]; [by apply IH |].
      apply elem_of_app in Hnd as [Hnd | Hnd].
      * apply elem_of_lookup_imap in Hnd as (si & step & -> & _). by split.
      * apply list_elem_of_singleton in Hnd as ->. discriminate.
    + intros nd Hnd. by apply not_elem_of_nil in Hnd.
  - apply list_elem_of_singleton in Hnd as ->. discriminate.
Qed.

Lemma layout_rootColX (s : State) (lay : LayoutResult) :
  calculateTreeLayout s = Some lay -> rootColX lay = stepColumnX + gap1 s + gap2 s.
Proof.
  unfold calculateTreeLayout.
  destruct (decide _); [discriminate |]. destruct (decide _); [discriminate |].
  by intros [= <-].
Qed.

(** One axis of the fit: a point within [half] of the centre [c] lands
    inside [0, V] when the scaled extent [2 * half] takes at most 88% of
    [V]. *)
Lemma fit_axis (c half k V p : Q) :
  0 <= k -> 0 <= V -> k * (2 * half) <= (88 # 100) * V ->
  - half <= p - c -> p - c <= half ->
  0 <= p * k + (V / 2 - c * k) /\ p * k + (V / 2 - c * k) <= V.
Proof.
  intros Hk HV Hfit Hlo Hhi.
  assert (H1 : (p - c) * k <= half * k) by (by apply Qmult_le_compat_r).
  assert (H2 : (- half) * k <= (p - c) * k) by (by apply Qmult_le_compat_r).
  assert (E1 : (p - c) * k == p * k - c * k) by ring.
  assert (E2 : (- half) * k == - (half * k)) by ring.
  assert (E3 : k * (2 * half) == 2 * (half * k)) by ring.
  rewrite E1 in H1, H2. rewrite E2 in H2. rewrite E3 in Hfit.
  clear E1 E2 E3 Hlo Hhi.
  unfold Qdiv. change (/ 2) with (1 # 2).
  generalize dependent (p * k). generalize dependent (c * k). generalize dependent (half * k).
  intros. split; lra.
Qed.

Lemma scale_facts (W H cw ch : Q) :
  0 < W -> 0 < H -> 0 < cw -> 0 < ch ->
  let k := Qmin (Qmin (W / cw) (H / ch)) (15 # 10) * (88 # 100) in
  0 < k /\ k <= 132 # 100 /\
  k * cw <= (88 # 100) * W /\ k * ch <= (88 # 100) * H.
Proof.
  intros HW HH Hcw Hch k.
  set (q := Qmin (Qmin (W / cw) (H / ch)) (15 # 10)) in *.
  assert (Hq1 : q <= W / cw).
  { unfold q. apply (Qle_trans _ (Qmin (W / cw) (H / ch))); apply Q.le_min_l. }
  assert (Hq2 : q <= H / ch).
  { unfold q. apply (Qle_trans _ (Qmin (W / cw) (H / ch))); [apply Q.le_min_l | apply Q.le_min_r]. }
  assert (Hq3 : q <= 15 # 10) by (unfold q; apply Q.le_min_r).
  assert (Hwc : 0 < W / cw) by (apply Qlt_shift_div_l; [exact Hcw | lra]).
  assert (Hhc : 0 < H / ch) by (apply Qlt_shift_div_l; [exact Hch | lra]).
  assert (Hq0 : 0 < q).
  { unfold q. apply Q.min_glb_lt; [apply Q.min_glb_lt; assumption | reflexivity]. }
  assert (E1 : q * cw <= W).
  { assert (Eq : W / cw * cw == W) by (field; lra).
    apply (Qle_trans _ (W / cw * cw)); [| rewrite Eq; apply Qle_refl].
    apply Qmult_le_compat_r; [exact Hq1 | lra]. }
  assert (E2 : q * ch <= H).
  { assert (Eq : H / ch * ch == H) by (field; lra).
    apply (Qle_trans _ (H / ch * ch)); [| rewrite Eq; apply Qle_refl].
    apply Qmult_le_compat_r; [exact Hq2 | lra]. }
  unfold k. repeat split; try lra.
Qed.

(** X9. Fit to screen shows every step.  On a layout, in a viewport of
    positive size and with non-negative column gaps, the call that ends
    [renderGraph] hands over a transform whose scale is positive and at
    most 1.32, and under which the whole box of every step node lies
    inside the viewport. *)
Theorem fit_shows_every_step (s : State) (lay : LayoutResult) (W H : Q) (nd : Node) :
  calculateTreeLayout s = Some lay ->
  0 < W -> 0 < H -> 0 <= gap1 s -> 0 <= gap2 s ->
  nd ∈ nodes lay -> n_kind nd = KStep ->
  exists t,
    fitAfterRender s W H = FitTo true t /\
    0 < t_k t /\ t_k t <= 132 # 100 /\
    0 <= applyX t (n_x nd - n_w nd / 2) /\ applyX t (n_x nd + n_w nd / 2) <= W /\
    0 <= applyY t (n_y nd - n_h nd / 2) /\ applyY t (n_y nd + n_h nd / 2) <= H.
Proof.
  intros Hlay HW HH Hg1 Hg2 Hnd Hk.
  pose proof (layout_step_column s lay Hlay nd Hnd Hk) as Hx.
  destruct (layout_step_box s lay Hlay nd Hnd Hk) as [Hw Hh].
  pose proof (layout_rootColX s lay Hlay) as Hroot.
  pose proof (calculateTreeLayout_Some s lay Hlay) as (_ & Hsteps & _).
  destruct (growBounds_covers (filter (fun n => n_kind n = KStep) (nodes lay))
              (mkBounds (rootColX lay + 250) None None) nd) as (lo & hi & Elo & Ehi & Hlo & Hhi).
  { left. by apply list_elem_of_filter. }
  unfold fitAfterRender. rewrite Hlay. unfold fitToScreen.
  rewrite bool_decide_eq_false_2 by exact Hsteps. cbn [negb orb default from_option id]. cbv zeta. unfold id.
  fold (renderBounds lay) in Elo, Ehi. rewrite Elo, Ehi.
  assert (Emax : b_maxX (renderBounds lay) = stepColumnX + gap1 s + gap2 s + 250).
  { unfold renderBounds. rewrite growBounds_maxX. cbn [b_maxX]. by rewrite Hroot. }
  rewrite Emax.
  assert (Hpos : 0 < stepColumnX + gap1 s + gap2 s + 250).
  { unfold stepColumnX, partZone. lra. }
  destruct (Qeq_bool (stepColumnX + gap1 s + gap2 s + 250) 0) eqn:E0.
  { apply Qeq_bool_eq in E0. lra. }
  set (cw := stepColumnX + gap1 s + gap2 s + 250 + 60).
  set (ch := hi - lo + 120).
  assert (Hcw : 0 < cw) by (unfold cw; lra).
  assert (Hch : 0 < ch) by (unfold ch; lra).
  unfold jsDiv.
  destruct (Qeq_bool cw 0) eqn:E1; [apply Qeq_bool_eq in E1; lra |].
  destruct (Qeq_bool ch 0) eqn:E2; [apply Qeq_bool_eq in E2; lra |].
  cbn [jsMin]. cbv zeta.
  destruct (scale_facts W H cw ch HW HH Hcw Hch) as (K0 & K1 & K2 & K3).
  set (k := Qmin (Qmin (W / cw) (H / ch)) (15 # 10) * (88 # 100)) in *.
  eexists. split; [reflexivity |]. cbn [t_k].
  split; [exact K0 |]. split; [exact K1 |].
  unfold applyX, applyY. cbn [t_k t_x t_y]. rewrite Hx, Hw, Hh.
  assert (Hcw' : 530 <= cw) by (unfold cw, stepColumnX, partZone; lra).
  assert (Ec : k * (2 * (cw / 2)) == k * cw) by field.
  assert (Eh : k * (2 * (ch / 2)) == k * ch) by field.
  assert (F1 : k * (2 * (cw / 2)) <= (88 # 100) * W) by (rewrite Ec; exact K2).
  assert (F2 : k * (2 * (ch / 2)) <= (88 # 100) * H) by (rewrite Eh; exact K3).
  assert (Hk0 : 0 <= k) by lra.
  assert (HW0 : 0 <= W) by lra.
  assert (HH0 : 0 <= H) by lra.
  destruct (fit_axis (cw / 2) (cw / 2) k W (stepColumnX - NODE_WIDTH / 2) Hk0 HW0 F1) as [A1 _];
    [unfold stepColumnX, partZone, NODE_WIDTH, Qdiv; change (/ 2) with (1 # 2); lra
    | unfold stepColumnX, partZone, NODE_WIDTH, Qdiv; change (/ 2) with (1 # 2); lra |].
  destruct (fit_axis (cw / 2) (cw / 2) k W (stepColumnX + NODE_WIDTH / 2) Hk0 HW0 F1) as [_ A2];
    [unfold stepColumnX, partZone, NODE_WIDTH, Qdiv; change (/ 2) with (1 # 2); lra
    | unfold stepColumnX, partZone, NODE_WIDTH, Qdiv; change (/ 2) with (1 # 2); lra |].
  destruct (fit_axis ((lo + hi) / 2) (ch / 2) k H (n_y nd - NODE_HEIGHT / 2) Hk0 HH0 F2) as [A3 _];
    [unfold ch, NODE_HEIGHT, Qdiv; change (/ 2) with (1 # 2); lra
    | unfold ch, NODE_HEIGHT, Qdiv; change (/ 2) with (1 # 2); lra |].
  destruct (fit_axis ((lo + hi) / 2) (ch / 2) k H (n_y nd + NODE_HEIGHT / 2) Hk0 HH0 F2) as [_ A4];
    [unfold ch, NODE_HEIGHT, Qdiv; change (/ 2) with (1 # 2); lra
    | unfold ch, NODE_HEIGHT, Qdiv; change (/ 2) with (1 # 2); lra |].
  repeat split; assumption.
Qed.

Lemma fit_shows_every_step_witness :
  exists lay nd,
    calculateTreeLayout threeBands = Some lay /\
    nodes lay !! 0%nat = Some nd /\
    exists t,
      fitAfterRender threeBands 1200 800 = FitTo true t /\
      0 < t_k t /\ t_k t <= 132 # 100 /\
      0 <= applyX t (n_x nd - n_w nd / 2) /\ applyX t (n_x nd + n_w nd / 2) <= 1200 /\
      0 <= applyY t (n_y nd - n_h nd / 2) /\ applyY t (n_y nd + n_h nd / 2) <= 800.
Proof.
  eexists. eexists. split; [vm_compute; reflexivity |]. split; [reflexivity |].
  eapply (fit_shows_every_step threeBands _ 1200 800).
  - vm_compute; reflexivity.
  - reflexivity.
  - reflexivity.
  - vm_compute; discriminate.
  - vm_compute; discriminate.
  - left.
  - reflexivity.
Defined.

(** ** The bands of the layout *)

Lemma lanes_layoutGroup (s : State) (n : nat) (acc : Acc) (grp : Group) (gi : nat) :
  lanes (layoutGroup s n acc grp gi)
  = lanes acc ++ [mkSwimlane grp gi (curY acc) (swimHeight s (groupSteps s grp))
                             (length (groupSteps s grp))] /\
  curY (layoutGroup s n acc grp gi)
  = curY acc + swimHeight s (groupSteps s grp) + swimGap.
Proof. split; reflexivity. Qed.

Lemma swimHeight_bounds (s : State) (gSteps : list Step) :
  180 <= swimHeight s gSteps /\
  of_nat (length gSteps) * stepGapY + 60 <= swimHeight s gSteps.
Proof.
  unfold swimHeight.
  set (c := Qceiling _).
  set (big := inject_Z (Z.max (Z.of_nat (length gSteps)) c) * stepGapY).
  assert (H1 : stepGapY * (3 # 2) <= Qmax big (stepGapY * (3 # 2))) by apply Q.le_max_r.
  assert (H2 : big <= Qmax big (stepGapY * (3 # 2))) by apply Q.le_max_l.
  assert (H3 : of_nat (length gSteps) * stepGapY <= big).
  { unfold big, of_nat. apply Qmult_le_compat_r; [| unfold stepGapY, VERTICAL_GAP; lra].
    rewrite <- Zle_Qle. lia. }
  unfold stepGapY, VERTICAL_GAP, swimPadY in *. split; lra.
Qed.

(** What the group loop maintains about the bands. *)
Lemma lanes_stack_inv (s : State) (n : nat) (l : list Group) (i : nat) (acc : Acc) :
  let P := fun acc =>
    (forall k b1 b2, lanes acc !! k = Some b1 -> lanes acc !! S k = Some b2 ->
                     sl_startY b2 = sl_startY b1 + sl_height b1 + swimGap) /\
    curY acc = match last (lanes acc) with
               | Some b => sl_startY b + sl_height b + swimGap
               | None => topPad + headerH
               end /\
    (forall b0, head (lanes acc) = Some b0 -> sl_startY b0 = topPad + headerH) /\
    (forall b, b ∈ lanes acc ->
               sl_height b = swimHeight s (groupSteps s (sl_grp b)) /\
               sl_stepCount b = length (groupSteps s (sl_grp b))) in
  P acc -> P (forEachFrom (layoutGroup s n) l i acc).
Proof.
  intros P. apply forEachFrom_inv. clear acc.
  intros acc grp gi _ (I1 & I2 & I3 & I4).
  destruct (lanes_layoutGroup s n acc grp gi) as [El Ec].
  set (new := mkSwimlane grp gi (curY acc) (swimHeight s (groupSteps s grp))
                         (length (groupSteps s grp))) in *.
  unfold P. rewrite El, Ec. split_and!.
  - intros k b1 b2 H1 H2.
    destruct (decide (S k < length (lanes acc))%nat) as [Hlt | Hge].
    + rewrite lookup_app_l in H1 by lia. rewrite lookup_app_l in H2 by lia. by eapply I1.
    + assert (Hk : (k < length (lanes acc))%nat).
      { apply lookup_lt_Some in H2. rewrite length_app in H2. simpl in H2. lia. }
      rewrite lookup_app_l in H1 by lia.
      rewrite lookup_app_r in H2 by lia.
      replace (S k - length (lanes acc))%nat with 0%nat in H2 by lia.
      injection H2 as <-. cbn [sl_startY new].
      rewrite I2. rewrite last_lookup.
      replace (pred (length (lanes acc))) with k by lia. by rewrite H1.
  - rewrite last_snoc. reflexivity.
  - intros b0 Hb0. destruct (lanes acc) as [| x r] eqn:E.
    + simpl in Hb0. injection Hb0 as <-. cbn [sl_startY new]. rewrite I2. reflexivity.
    + simpl in Hb0. injection Hb0 as <-. by apply I3.
  - intros b Hb. apply elem_of_app in Hb as [Hb | Hb]; [by apply I4 |].
    apply list_elem_of_singleton in Hb as ->. by split.
Qed.

(** X10. The bands are stacked.  The first band starts below the top
    padding and the header; every later band starts where the band
    before it ends plus the gap between bands; every band is as tall as
    [swimHeight] of its steps, at least 180, and at least one step
    spacing per step plus the padding; the drawing ends 50 below the
    position after the last band. *)
Theorem bands_are_stacked (s : State) (lay : LayoutResult) :
  calculateTreeLayout s = Some lay ->
  (exists b0, head (swimlanes lay) = Some b0 /\ sl_startY b0 = topPad + headerH) /\
  (forall k b1 b2, swimlanes lay !! k = Some b1 -> swimlanes lay !! S k = Some b2 ->
                   sl_startY b2 = sl_startY b1 + sl_height b1 + swimGap) /\
  (forall b, b ∈ swimlanes lay ->
             sl_height b = swimHeight s (groupSteps s (sl_grp b)) /\
             sl_stepCount b = length (groupSteps s (sl_grp b)) /\
             180 <= sl_height b /\
             of_nat (sl_stepCount b) * stepGapY + 60 <= sl_height b) /\
  (exists bl, last (swimlanes lay) = Some bl /\
              dim_height lay = sl_startY bl + sl_height bl + swimGap + 50).
Proof.
  intros Hlay.
  pose proof (calculateTreeLayout_Some s lay Hlay) as (_ & _ & Hfg & _ & _ & Hsw & Hsg & _).
  assert (Hdim : dim_height lay
                 = curY (forEachI (layoutGroup s (length (filterGroups s))) (filterGroups s)
                                  (mkAcc [] [] [] (topPad + headerH))) + 50).
  { revert Hlay. unfold calculateTreeLayout.
    destruct (decide _); [discriminate |]. destruct (decide _); [discriminate |].
    by intros [= <-]. }
  pose proof (lanes_stack_inv s (length (filterGroups s)) (filterGroups s) 0
                (mkAcc [] [] [] (topPad + headerH))) as Hinv.
  cbv zeta in Hinv. destruct Hinv as (I1 & I2 & I3 & I4).
  { cbn [lanes curY]. split_and!; try done.
    intros b Hb. by apply not_elem_of_nil in Hb. }
  fold (forEachI (layoutGroup s (length (filterGroups s))) (filterGroups s)
                 (mkAcc [] [] [] (topPad + headerH))) in I1, I2, I3, I4.
  rewrite <- Hsw in I1, I2, I3, I4.
  assert (Hne : swimlanes lay <> []).
  { intros E. pose proof (lanes_forEachFrom s (length (filterGroups s)) (filterGroups s) 0
                            (mkAcc [] [] [] (topPad + headerH))) as [Hg _].
    fold (forEachI (layoutGroup s (length (filterGroups s))) (filterGroups s)
                   (mkAcc [] [] [] (topPad + headerH))) in Hg.
    rewrite <- Hsw, E in Hg. simpl in Hg. by symmetry in Hg. }
  split_and!.
  - destruct (swimlanes lay) as [| b0 r]; [done |]. exists b0. split; [reflexivity |].
    by apply I3.
  - exact I1.
  - intros b Hb. destruct (I4 b Hb) as [E1 E2].
    destruct (swimHeight_bounds s (groupSteps s (sl_grp b))) as [B1 B2].
    rewrite E1, E2. by split_and!.
  - destruct (last (swimlanes lay)) as [bl |] eqn:El.
    + exists bl. split; [reflexivity |]. rewrite Hdim. by rewrite I2.
    + apply last_None in El. contradiction.
Qed.

Lemma bands_are_stacked_witness :
  exists lay,
    calculateTreeLayout threeBands = Some lay /\
    ((exists b0, head (swimlanes lay) = Some b0 /\ sl_startY b0 = topPad + headerH) /\
     (forall k b1 b2, swimlanes lay !! k = Some b1 -> swimlanes lay !! S k = Some b2 ->
                      sl_startY b2 = sl_startY b1 + sl_height b1 + swimGap) /\
     (forall b, b ∈ swimlanes lay ->
                sl_height b = swimHeight threeBands (groupSteps threeBands (sl_grp b)) /\
                sl_stepCount b = length (groupSteps threeBands (sl_grp b)) /\
                180 <= sl_height b /\
                of_nat (sl_stepCount b) * stepGapY + 60 <= sl_height b) /\
     (exists bl, last (swimlanes lay) = Some bl /\
                 dim_height lay = sl_startY bl + sl_height bl + swimGap + 50)).
Proof.
  eexists. split; [vm_compute; reflexivity |].
  apply (bands_are_stacked threeBands). vm_compute; reflexivity.
Defined.

(** What the group loop maintains about the step nodes of the bands. *)
Lemma lanes_nodes_inv (s : State) (n : nat) (l : list Group) (i : nat) (acc : Acc) :
  let P := fun acc =>
    forall b, b ∈ lanes acc ->
      sl_height b = swimHeight s (groupSteps s (sl_grp b)) /\
      forall si st, groupSteps s (sl_grp b) !! si = Some st ->
                    stepNode s (sl_grp b) (sl_gi b) (sl_startY b) st si ∈ allNodes acc in
  P acc -> P (forEachFrom (layoutGroup s n) l i acc).
Proof.
  intros P. apply forEachFrom_inv. clear acc.
  intros acc grp gi _ IH b Hb.
  destruct (lanes_layoutGroup s n acc grp gi) as [El _].
  rewrite El in Hb. rewrite allNodes_layoutGroup.
  apply elem_of_app in Hb as [Hb | Hb].
  - destruct (IH b Hb) as [E Hn]. split; [exact E |].
    intros si st Hst. apply elem_of_app. left. by apply Hn.
  - apply list_elem_of_singleton in Hb as ->. cbn [sl_height sl_grp sl_gi sl_startY].
    split; [reflexivity |]. intros si st Hst.
    apply elem_of_app. right. apply elem_of_app. left.
    exact (elem_of_lookup_imap_2 (fun si step => stepNode s grp gi (curY acc) step si)
             (groupSteps s grp) st si Hst).
Qed.

(** X11. Where a step is placed.  Every step of a band has its node in
    the node table, numbered by its position in the band.  A persisted y
    is taken as it is, wherever it lies; without one the step is put at
    the band's start plus the padding plus its position times the step
    spacing, which leaves the whole node inside the band. *)
Theorem step_placement (s : State) (lay : LayoutResult) (b : Swimlane) (si : nat) (step : Step) :
  calculateTreeLayout s = Some lay ->
  b ∈ swimlanes lay ->
  groupSteps s (sl_grp b) !! si = Some step ->
  exists nd,
    nd ∈ nodes lay /\ n_id nd = SId (s_id step) /\ n_kind nd = KStep /\
    n_swimIdx nd = sl_gi b /\ n_seq nd = S si /\
    match s_y step with
    | Some y => n_y nd = y
    | None =>
        n_y nd = sl_startY b + swimPadY + of_nat si * stepGapY /\
        sl_startY b <= n_y nd - n_h nd / 2 /\
        n_y nd + n_h nd / 2 <= sl_startY b + sl_height b
    end.
Proof.
  intros Hlay Hb Hst.
  pose proof (calculateTreeLayout_Some s lay Hlay) as (_ & _ & _ & Hn & _ & Hsw & _).
  pose proof (lanes_nodes_inv s (length (filterGroups s)) (filterGroups s) 0
                (mkAcc [] [] [] (topPad + headerH))) as Hinv.
  cbv beta zeta in Hinv.
  fold (forEachI (layoutGroup s (length (filterGroups s))) (filterGroups s)
                 (mkAcc [] [] [] (topPad + headerH))) in Hinv.
  rewrite <- Hsw in Hinv.
  destruct (Hinv ltac:(intros b' Hb'; by apply not_elem_of_nil in Hb') b Hb) as [Eh Hnodes].
  exists (stepNode s (sl_grp b) (sl_gi b) (sl_startY b) step si).
  split; [rewrite Hn; apply elem_of_app; left; by apply Hnodes |].
  split; [reflexivity |]. split; [reflexivity |]. split; [reflexivity |].
  split; [cbn [n_seq stepNode]; lia |].
  cbn [n_y n_h stepNode]. destruct (s_y step) as [y |]; [reflexivity |].
  split; [reflexivity |].
  destruct (swimHeight_bounds s (groupSteps s (sl_grp b))) as [_ B].
  rewrite <- Eh in B.
  assert (Hsi : of_nat si + 1 <= of_nat (length (groupSteps s (sl_grp b)))).
  { apply lookup_lt_Some in Hst. unfold of_nat.
    change 1 with (inject_Z 1). rewrite <- inject_Z_plus, <- Zle_Qle. lia. }
  assert (Hsi0 : 0 <= of_nat si).
  { unfold of_nat. change 0 with (inject_Z 0). rewrite <- Zle_Qle. lia. }
  unfold stepGapY, VERTICAL_GAP, swimPadY, NODE_HEIGHT, Qdiv in *.
  change (/ 2) with (1 # 2).
  generalize dependent (of_nat si).
  generalize dependent (of_nat (length (groupSteps s (sl_grp b)))).
  intros. split; lra.
Qed.

Lemma step_placement_witness :
  exists lay b step,
    calculateTreeLayout threeBands = Some lay /\
    swimlanes lay !! 0%nat = Some b /\
    groupSteps threeBands (sl_grp b) !! 1%nat = Some step /\
    exists nd,
      nd ∈ nodes lay /\ n_id nd = SId (s_id step) /\ n_kind nd = KStep /\
      n_swimIdx nd = sl_gi b /\ n_seq nd = 2%nat /\
      match s_y step with
      | Some y => n_y nd = y
      | None =>
          n_y nd = sl_startY b + swimPadY + of_nat 1 * stepGapY /\
          sl_startY b <= n_y nd - n_h nd / 2 /\
          n_y nd + n_h nd / 2 <= sl_startY b + sl_height b
      end.
Proof.
  do 3 eexists. split; [vm_compute; reflexivity |]. split; [reflexivity |].
  split; [vm_compute; reflexivity |].
  eapply (step_placement threeBands _ _ 1 _).
  - vm_compute; reflexivity.
  - left.
  - vm_compute; reflexivity.
Defined.

(** ** The links of the layout and their drawing *)

Lemma fold_left_snoc {A B} (f : A -> B) (l : list A) (acc : list B) :
  fold_left (fun ls a => ls ++ [f a]) l acc = acc ++ (f <$> l).
Proof.
  revert acc. induction l as [| a r IH]; intros acc; simpl; [by rewrite app_nil_r |].
  rewrite IH, <- app_assoc. reflexivity.
Qed.

Lemma allLinks_layoutGroup (s : State) (n : nat) (acc : Acc) (grp : Group) (gi : nat) :
  allLinks (layoutGroup s n acc grp gi)
  = allLinks acc ++ (stepLink s grp <$> groupSteps s grp) ++ [rootLink grp].
Proof.
  unfold layoutGroup. cbn [allLinks]. rewrite fold_left_snoc, <- app_assoc. reflexivity.
Qed.

(** What the group loop maintains about the links: both ends of a link
    are in the node table, the root excepted, which comes last; there is
    one link per step node and one per band. *)
Lemma links_inv (s : State) (n : nat) (l : list Group) (i : nat) (acc : Acc) :
  let P := fun acc =>
    (forall lk, lk ∈ allLinks acc ->
       lk_sourceId lk ∈ (n_id <$> allNodes acc) /\
       (lk_targetId lk = RootId \/ lk_targetId lk ∈ (n_id <$> allNodes acc))) /\
    length (allLinks acc)
    = (length (filter (fun nd => n_kind nd = KStep) (allNodes acc)) + length (lanes acc))%nat in
  P acc -> P (forEachFrom (layoutGroup s n) l i acc).
Proof.
  intros P. apply forEachFrom_inv. clear acc.
  intros acc grp gi _ [I1 I2]. unfold P.
  rewrite allLinks_layoutGroup, allNodes_layoutGroup.
  destruct (lanes_layoutGroup s n acc grp gi) as [-> _].
  set (stepNodes := imap (fun si step => stepNode s grp gi (curY acc) step si) (groupSteps s grp)).
  set (gn := groupNode s n grp gi _ _).
  split.
  - intros lk Hlk. rewrite !fmap_app.
    apply elem_of_app in Hlk as [Hlk | Hlk].
    + destruct (I1 lk Hlk) as [Hs Ht]. split; [apply elem_of_app; by left |].
      destruct Ht as [Ht | Ht]; [by left | right; apply elem_of_app; by left].
    + apply elem_of_app in Hlk as [Hlk | Hlk].
      * apply list_elem_of_fmap in Hlk as (st & -> & Hst).
        apply list_elem_of_lookup in Hst as (si & Hsi). split.
        -- apply elem_of_app. right. apply elem_of_app. left.
           apply list_elem_of_fmap. exists (stepNode s grp gi (curY acc) st si).
           split; [reflexivity |].
           exact (elem_of_lookup_imap_2 (fun si step => stepNode s grp gi (curY acc) step si)
                    (groupSteps s grp) st si Hsi).
        -- right. apply elem_of_app. right. apply elem_of_app. right.
           apply list_elem_of_fmap. exists gn. split; [reflexivity | by left].
      * apply list_elem_of_singleton in Hlk as ->. split; [| by left].
        apply elem_of_app. right. apply elem_of_app. right.
        apply list_elem_of_fmap. exists gn. split; [reflexivity | by left].
  - rewrite !length_app, length_fmap, I2. rewrite !filter_app, !length_app.
    assert (E1 : filter (fun nd => n_kind nd = KStep) stepNodes = stepNodes).
    { apply filter_all. intros nd Hnd.
      apply elem_of_lookup_imap in Hnd as (si & st & -> & _). reflexivity. }
    rewrite E1. unfold stepNodes at 1. rewrite length_imap.
    rewrite (filter_cons_False _ gn []) by discriminate.
    rewrite filter_nil. simpl. lia.
Qed.

Lemma findNode_elem (id : NodeId) (ns : list Node) :
  id ∈ (n_id <$> ns) -> exists nd, findNode id ns = Some nd.
Proof.
  intros H. apply list_elem_of_fmap in H as (nd & -> & Hnd).
  destruct (list_find_elem_of (fun n => n_id n = n_id nd) ns nd Hnd eq_refl) as [[k x] Hf].
  exists x. unfold findNode. by rewrite Hf.
Qed.

Lemma omap_all {A B C} (f : A -> option B) (g : B -> C) (h : A -> C) (l : list A) :
  (forall x, x ∈ l -> exists y, f x = Some y /\ g y = h x) ->
  g <$> omap f l = h <$> l.
Proof.
  induction l as [| a r IH]; intros H; [reflexivity |].
  destruct (H a) as (y & Ey & Eg); [by left |].
  simpl. rewrite Ey. simpl. rewrite Eg. f_equal. apply IH. intros x Hx. apply H. by right.
Qed.

Lemma updateLinkGroup_ends (ns : list Node) (lg : LinkGroup) :
  lg_src (updateLinkGroup ns lg) = lg_src lg /\ lg_tgt (updateLinkGroup ns lg) = lg_tgt lg.
Proof.
  unfold updateLinkGroup. destruct (scanNode _ ns); [| done]. by destruct (scanNode _ ns).
Qed.

Lemma drag_link_ends (i : nat) (y : Q) (a : App) :
  (fun lg => (lg_src lg, lg_tgt lg)) <$> linkLayer (view (drag i y a))
  = (fun lg => (lg_src lg, lg_tgt lg)) <$> linkLayer (view a).
Proof.
  unfold drag. destruct (_allNodes (view a) !! i) as [d0 |]; [| reflexivity].
  destruct (n_kind d0); try reflexivity.
  cbn [st setLayoutDirty showPartNodes].
  destruct (showPartNodes (st a)); cbn [view linkLayer];
    rewrite <- list_fmap_compose; apply list_fmap_ext; intros k lg _; unfold compose;
    (f_equal; [apply (proj1 (updateLinkGroup_ends _ _)) | apply (proj2 (updateLinkGroup_ends _ _))]).
Qed.

Lemma drags_link_ends (ds : list (nat * Q)) (a : App) :
  (fun lg => (lg_src lg, lg_tgt lg)) <$> linkLayer (view (drags ds a))
  = (fun lg => (lg_src lg, lg_tgt lg)) <$> linkLayer (view a).
Proof.
  revert a. induction ds as [| [i y] ds IH]; intros a; [reflexivity |].
  unfold drags in *. simpl. rewrite IH. apply drag_link_ends.
Qed.

(** X12. Every link is drawn.  The layout has one link per step node and
    one per band, both ends of every link are in the node table, so the
    renderer skips none: the link layer has one element per link, in the
    order of the links, between the same two nodes, and drags keep it
    so. *)
Theorem every_link_is_drawn (s : State) (v0 : View) (lay : LayoutResult) (ds : list (nat * Q)) :
  calculateTreeLayout s = Some lay ->
  length (links lay)
  = (length (filter (fun nd => n_kind nd = KStep) (nodes lay)) + length (swimlanes lay))%nat /\
  (fun lg => (lg_src lg, lg_tgt lg)) <$> linkLayer (view (drags ds (renderGraph (mkApp s v0))))
  = (fun lk => (lk_sourceId lk, lk_targetId lk)) <$> links lay.
Proof.
  intros Hlay.
  pose proof (calculateTreeLayout_Some s lay Hlay) as (_ & Hsteps & _ & Hn & Hl & Hsw & _).
  pose proof (links_inv s (length (filterGroups s)) (filterGroups s) 0
                (mkAcc [] [] [] (topPad + headerH))) as Hinv.
  cbv beta zeta in Hinv.
  fold (forEachI (layoutGroup s (length (filterGroups s))) (filterGroups s)
                 (mkAcc [] [] [] (topPad + headerH))) in Hinv.
  destruct Hinv as [I1 I2].
  { split; [| reflexivity]. intros lk Hlk. by apply not_elem_of_nil in Hlk. }
  rewrite <- Hl, <- Hsw in I2. rewrite <- Hl in I1.
  split.
  - rewrite I2, Hn, filter_app.
    rewrite (filter_cons_False _ (rootNode _ _ _) []) by discriminate.
    by rewrite filter_nil, app_nil_r.
  - rewrite drags_link_ends. unfold renderGraph. cbn [st view].
    destruct (decide (steps s = [])); [contradiction |]. rewrite Hlay. cbn [view linkLayer].
    apply omap_all. intros lk Hlk. destruct (I1 lk Hlk) as [Hs Ht].
    assert (Hs' : lk_sourceId lk ∈ (n_id <$> nodes lay)).
    { rewrite Hn, fmap_app. apply elem_of_app. by left. }
    assert (Ht' : lk_targetId lk ∈ (n_id <$> nodes lay)).
    { rewrite Hn, fmap_app. apply elem_of_app. destruct Ht as [-> | Ht]; [right | by left].
      simpl. by left. }
    apply findNode_elem in Hs' as [src Es]. apply findNode_elem in Ht' as [tgt Et].
    unfold renderLink. rewrite Es, Et. eexists. split; reflexivity.
Qed.

Lemma every_link_is_drawn_witness :
  exists lay,
    calculateTreeLayout threeBands = Some lay /\
    (length (links lay)
     = (length (filter (fun nd => n_kind nd = KStep) (nodes lay)) + length (swimlanes lay))%nat /\
     (fun lg => (lg_src lg, lg_tgt lg))
       <$> linkLayer (view (drags [(2%nat, 1000); (0%nat, 40)]
                                  (renderGraph (mkApp threeBands emptyView))))
     = (fun lk => (lk_sourceId lk, lk_targetId lk)) <$> links lay).
Proof.
  eexists. split; [vm_compute; reflexivity |].
  apply (every_link_is_drawn threeBands emptyView _ [(2%nat, 1000); (0%nat, 40)]).
  vm_compute; reflexivity.
Defined.

(** ** What a drag touches *)

Lemma drag_leaves_the_rest_aux (i : nat) (y : Q) (a : App) (d0 : Node) :
  _allNodes (view a) !! i = Some d0 -> n_kind d0 = KStep ->
  _allNodes (view (drag i y a)) !! i = Some (set_y y d0) /\
  forall k nd,
    _allNodes (view a) !! k = Some nd -> k <> i ->
    n_kind nd = KStep \/ (n_kind nd = KGroup /\ n_groupId nd <> n_groupId d0) ->
    _allNodes (view (drag i y a)) !! k = Some nd.
Proof.
  intros Hi Hk. rewrite drag_nodes, Hi, Hk. split.
  - by apply dragged_step_lookup.
  - intros k nd Hnd Hne Hkind.
    rewrite recenterRoot_with, recenterGroup_with.
    apply recenterWith_lookup_other.
    + apply recenterWith_lookup_other.
      * by rewrite list_lookup_alter_ne.
      * intros [Hg Hid]. destruct Hkind as [Hs | [_ Hother]]; congruence.
    + unfold isRoot. destruct Hkind as [Hs | [Hg _]]; congruence.
Qed.

(** X16. A drag moves one step and recenters its chain, nothing else:
    the dragged step node takes the pointer's y; every other step node,
    and every group node of another group, is left as it was. *)
Theorem drag_leaves_the_rest (i : nat) (y : Q) (a : App) (d0 : Node) :
  _allNodes (view a) !! i = Some d0 -> n_kind d0 = KStep ->
  _allNodes (view (drag i y a)) !! i = Some (set_y y d0) /\
  forall k nd,
    _allNodes (view a) !! k = Some nd -> k <> i ->
    n_kind nd = KStep \/ (n_kind nd = KGroup /\ n_groupId nd <> n_groupId d0) ->
    _allNodes (view (drag i y a)) !! k = Some nd.
Proof. exact (drag_leaves_the_rest_aux i y a d0). Qed.

Lemma drag_leaves_the_rest_witness :
  exists d0 a,
    a = renderGraph (mkApp threeBands emptyView) /\
    _allNodes (view a) !! 0%nat = Some d0 /\ n_kind d0 = KStep /\
    (_allNodes (view (drag 0 1000 a)) !! 0%nat = Some (set_y 1000 d0) /\
     forall k nd,
       _allNodes (view a) !! k = Some nd -> k <> 0%nat ->
       n_kind nd = KStep \/ (n_kind nd = KGroup /\ n_groupId nd <> n_groupId d0) ->
       _allNodes (view (drag 0 1000 a)) !! k = Some nd).
Proof.
  do 2 eexists. split; [reflexivity |].
  split; [vm_compute; reflexivity |]. split; [reflexivity |].
  apply (drag_leaves_the_rest 0 1000 (renderGraph (mkApp threeBands emptyView)) _).
  - vm_compute; reflexivity.
  - reflexivity.
Defined.

(** ** Re-rendering *)

Lemma drag_state (i : nat) (y : Q) (a : App) :
  exists v, st (drag i y a) = setLayoutDirty v (st a).
Proof.
  unfold drag. destruct (_allNodes (view a) !! i) as [d0 |].
  - destruct (n_kind d0).
    + exists true. cbn [st setLayoutDirty showPartNodes].
      by destruct (showPartNodes (st a)).
    + exists (layoutDirty (st a)). destruct (st a); reflexivity.
    + exists (layoutDirty (st a)). destruct (st a); reflexivity.
  - exists (layoutDirty (st a)). destruct (st a); reflexivity.
Qed.

Lemma drags_state (ds : list (nat * Q)) (a : App) :
  exists v, st (drags ds a) = setLayoutDirty v (st a).
Proof.
  revert a. induction ds as [| [i y] ds IH]; intros a.
  - exists (layoutDirty (st a)). unfold drags. simpl. destruct (st a); reflexivity.
  - unfold drags in *. simpl. destruct (IH (drag i y a)) as [v Hv].
    destruct (drag_state i y a) as [v' Hv']. exists v. by rewrite Hv, Hv'.
Qed.

Lemma layout_ignores_dirty (v : bool) (s : State) :
  calculateTreeLayout (setLayoutDirty v s) = calculateTreeLayout s.
Proof. reflexivity. Qed.

(** X13. A re-render forgets the drags.  The layout is computed from
    the rows of the state, which a drag never writes: when the state
    has a layout, rendering after any sequence of drags gives the node
    table of that layout and the same position map and the same link
    and part layers as rendering before them. *)
Theorem rerender_forgets_drags (ds : list (nat * Q)) (a : App) (lay : LayoutResult) :
  calculateTreeLayout (st a) = Some lay ->
  view (renderGraph (drags ds a)) = view (renderGraph a) /\
  _allNodes (view (renderGraph (drags ds a))) = nodes lay.
Proof.
  intros Hlay. destruct (drags_state ds a) as [v Hv].
  pose proof (calculateTreeLayout_Some (st a) lay Hlay) as (_ & Hsteps & _).
  assert (E : view (renderGraph (drags ds a)) = view (renderGraph a)).
  { unfold renderGraph. rewrite Hv. cbn [steps setLayoutDirty].
    destruct (decide (steps (st a) = [])); [contradiction |].
    rewrite layout_ignores_dirty, Hlay. reflexivity. }
  split; [exact E |]. rewrite E.
  destruct a as [s w]. by apply renderGraph_nodes.
Qed.

Lemma rerender_forgets_drags_witness :
  exists lay,
    calculateTreeLayout (st (renderGraph (mkApp threeBands emptyView))) = Some lay /\
    (view (renderGraph (drags [(2%nat, 1000); (0%nat, 40)]
                              (renderGraph (mkApp threeBands emptyView))))
     = view (renderGraph (renderGraph (mkApp threeBands emptyView))) /\
     _allNodes (view (renderGraph (drags [(2%nat, 1000); (0%nat, 40)]
                                         (renderGraph (mkApp threeBands emptyView)))))
     = nodes lay).
Proof.
  eexists. split; [vm_compute; reflexivity |].
  apply (rerender_forgets_drags [(2%nat, 1000); (0%nat, 40)]
           (renderGraph (mkApp threeBands emptyView)) _).
  vm_compute; reflexivity.
Defined.

(** ** Links and positions across drags *)

Lemma stepNodesOf_ids (s : State) (grp : Group) (gi : nat) (y0 : Q) :
  n_id <$> stepNodesOf s grp gi y0 = (fun st => SId (s_id st)) <$> groupSteps s grp.
Proof.
  apply list_eq. intros j. unfold stepNodesOf.
  rewrite !list_lookup_fmap, list_lookup_imap.
  by destruct (groupSteps s grp !! j).
Qed.

Lemma groupSteps_ids_NoDup (s : State) (grp : Group) :
  NoDup (s_id <$> steps s) -> NoDup (s_id <$> groupSteps s grp).
Proof.
  intros Hs. unfold groupSteps. rewrite jsSort_perm.
  apply (sublist_NoDup _ (s_id <$> steps s)); [exact Hs |].
  apply fmap_sublist, sublist_filter.
Qed.

(** With unique identifiers of groups and steps no two nodes of the
    layout share an identifier. *)
Lemma layout_ids_NoDup (s : State) (lay : LayoutResult) :
  NoDup (g_id <$> groups s) -> NoDup (s_id <$> steps s) ->
  calculateTreeLayout s = Some lay ->
  NoDup (n_id <$> nodes lay) /\
  (forall nd, nd ∈ nodes lay -> n_kind nd = KStep ->
              exists id, n_id nd = SId id /\ n_dbId nd = Some id).
Proof.
  intros Hg Hs Hlay.
  apply calculateTreeLayout_Some in Hlay as (_ & _ & _ & Hn & _).
  pose proof (filterGroups_NoDup s Hg) as Hfg.
  set (n := length (filterGroups s)) in *.
  assert (G : LayoutInv s (filterGroups s)
                (forEachI (layoutGroup s n) (filterGroups s) (mkAcc [] [] [] (topPad + headerH))) /\
              NoDup (n_id <$> allNodes
                (forEachI (layoutGroup s n) (filterGroups s) (mkAcc [] [] [] (topPad + headerH)))) /\
              (forall nd, nd ∈ allNodes
                 (forEachI (layoutGroup s n) (filterGroups s) (mkAcc [] [] [] (topPad + headerH))) ->
                 n_kind nd = KStep -> exists id, n_id nd = SId id /\ n_dbId nd = Some id)).
  { unfold forEachI.
    apply (forEachFrom_prefix (layoutGroup s n)
             (fun done acc => LayoutInv s done acc /\ NoDup (n_id <$> allNodes acc) /\
                (forall nd, nd ∈ allNodes acc -> n_kind nd = KStep ->
                            exists id, n_id nd = SId id /\ n_dbId nd = Some id))).
    - split; [| split; [constructor | intros nd Hnd; by apply not_elem_of_nil in Hnd]].
      unfold LayoutInv. cbn [allNodes lanes]. split_and!.
      + intros nd Hnd. by apply not_elem_of_nil in Hnd.
      + constructor.
      + intros nd Hnd. by apply not_elem_of_nil in Hnd.
      + intros sl Hsl. by apply not_elem_of_nil in Hsl.
    - intros pre a post acc El (Hinv & Hnd & Hdb).
      assert (Hfresh : g_id a ∉ (g_id <$> pre)).
      { rewrite El, fmap_app, fmap_cons in Hfg. apply NoDup_app in Hfg as (_ & Hd & _).
        intros Hin. apply (Hd _ Hin). by left. }
      split; [by apply layoutGroup_inv |].
      destruct Hinv as (I1 & _).
      rewrite allNodes_layoutGroup'.
      set (gn := groupNode s n a (length pre) _ _).
      split.
      + rewrite !fmap_app. apply NoDup_app. split; [exact Hnd |]. split.
        * intros x Hx Hx'. apply list_elem_of_fmap in Hx as (nd & -> & Hin).
          destruct (I1 nd Hin) as (g & Hgd & _ & Hcase).
          apply elem_of_app in Hx' as [Hx' | Hx'].
          -- rewrite stepNodesOf_ids in Hx'.
             apply list_elem_of_fmap in Hx' as (st & Eid & Hst).
             apply groupSteps_elem in Hst as [Hst Hgrp].
             destruct Hcase as [(_ & st' & Hst' & Hg' & Hid') | (_ & Hid')]; [| congruence].
             rewrite Hid' in Eid. injection Eid as Eid.
             assert (st' = st) by exact (NoDup_fmap_inj_on s_id (steps s) st' st Hs Hst' Hst Eid).
             subst st'. apply Hfresh. rewrite <- Hgrp, Hg'. by apply list_elem_of_fmap_2.
          -- apply list_elem_of_singleton in Hx'. cbn [n_id gn groupNode] in Hx'.
             destruct Hcase as [(_ & st' & _ & _ & Hid') | (_ & Hid')]; [congruence |].
             rewrite Hid' in Hx'. injection Hx' as Hx'.
             apply Hfresh. rewrite <- Hx'. by apply list_elem_of_fmap_2.
        * apply NoDup_app. split; [| split].
          -- rewrite stepNodesOf_ids.
             rewrite (list_fmap_compose s_id SId).
             apply (NoDup_fmap_2 SId). by apply groupSteps_ids_NoDup.
          -- intros x Hx Hx'. rewrite stepNodesOf_ids in Hx.
             apply list_elem_of_fmap in Hx as (st & -> & _).
             apply list_elem_of_singleton in Hx'. discriminate.
          -- apply NoDup_singleton.
      + intros nd Hin Hk. apply elem_of_app in Hin as [Hin | Hin]; [by apply Hdb |].
        apply elem_of_app in Hin as [Hin | Hin].
        * apply stepNodesOf_elem in Hin as (si & st & _ & ->). by exists (s_id st).
        * apply list_elem_of_singleton in Hin as ->. discriminate. }
  destruct G as ((I1 & _) & Hnd & Hdb). rewrite Hn. split.
  - rewrite fmap_app. apply NoDup_app. split; [exact Hnd |]. split; [| apply NoDup_singleton].
    intros x Hx Hx'. apply list_elem_of_singleton in Hx'. cbn [n_id rootNode] in Hx'.
    apply list_elem_of_fmap in Hx as (nd & -> & Hin).
    destruct (I1 nd Hin) as (g & _ & _ & [(_ & st' & _ & _ & Hid') | (_ & Hid')]); congruence.
  - intros nd Hin Hk. apply elem_of_app in Hin as [Hin | Hin]; [by apply Hdb |].
    apply list_elem_of_singleton in Hin as ->. discriminate.
Qed.

(** In a table without repeated identifiers the scan of the drag handler
    (last match) and the lookup of the renderer (first match) agree. *)
Lemma scan_find (id : NodeId) (ns : list Node) :
  NoDup (n_id <$> ns) -> scanNode id ns = findNode id ns.
Proof.
  unfold scanNode, findNode. induction ns as [| a r IH]; intros Hnd; [reflexivity |].
  rewrite fmap_cons in Hnd. apply NoDup_cons in Hnd as [Hnotin Hnd].
  cbn [list_find]. destruct (decide (n_id a = id)) as [E | E].
  - rewrite filter_cons_True by exact E.
    assert (Hnil : filter (fun n => n_id n = id) r = []).
    { apply filter_nil_iff. intros x Hx Hid. apply Hnotin. rewrite E, <- Hid.
      by apply list_elem_of_fmap_2. }
    by rewrite Hnil.
  - rewrite filter_cons_False by exact E. rewrite IH by exact Hnd.
    by destruct (list_find _ r) as [[k x] |].
Qed.

Lemma drag_ids (i : nat) (y : Q) (a : App) :
  n_id <$> _allNodes (view (drag i y a)) = n_id <$> _allNodes (view a).
Proof.
  change (n_id <$> _allNodes (view (drag i y a)))
    with ((n_id ∘ skel) <$> _allNodes (view (drag i y a))).
  change (n_id <$> _allNodes (view a)) with ((n_id ∘ skel) <$> _allNodes (view a)).
  by rewrite !list_fmap_compose, skel_drag.
Qed.

Lemma findNode_ids (id : NodeId) (ns ns' : list Node) :
  n_id <$> ns = n_id <$> ns' -> is_Some (findNode id ns) -> is_Some (findNode id ns').
Proof.
  intros E [nd Hf]. unfold findNode in Hf.
  destruct (list_find _ ns) as [[k x] |] eqn:Ef; [| discriminate].
  apply list_find_Some in Ef as (Hk & Hid & _).
  assert (Hin : id ∈ (n_id <$> ns')).
  { rewrite <- E, <- Hid. apply list_elem_of_fmap_2. by eapply list_elem_of_lookup_2. }
  apply findNode_elem in Hin as [nd' Hf']. by exists nd'.
Qed.

Lemma drag_noop (i : nat) (y : Q) (a : App) :
  (forall d0, _allNodes (view a) !! i = Some d0 -> n_kind d0 <> KStep) -> drag i y a = a.
Proof.
  intros H. unfold drag. destruct (_allNodes (view a) !! i) as [d0 |]; [| reflexivity].
  specialize (H d0 eq_refl). by destruct (n_kind d0).
Qed.

Lemma drag_follows (i : nat) (y : Q) (a : App) :
  NoDup (n_id <$> _allNodes (view a)) ->
  (forall lg, lg ∈ linkLayer (view a) -> followsNodes (_allNodes (view a)) lg) ->
  forall lg, lg ∈ linkLayer (view (drag i y a)) ->
             followsNodes (_allNodes (view (drag i y a))) lg.
Proof.
  intros Hnd Hall.
  destruct (_allNodes (view a) !! i) as [d0 |] eqn:Hi.
  2: { rewrite drag_noop; [exact Hall | intros d0 E; congruence]. }
  destruct (decide (n_kind d0 = KStep)) as [Hk | Hk].
  2: { rewrite drag_noop; [exact Hall | intros d1 E; congruence]. }
  pose proof (drag_ids i y a) as Eids.
  assert (Hnd' : NoDup (n_id <$> _allNodes (view (drag i y a)))) by (by rewrite Eids).
  revert Eids Hnd'. rewrite (drag_step i y a d0 Hi Hk). cbn [view _allNodes linkLayer].
  set (Y := recenterRoot _). intros Eids Hnd' lg' Hlg'.
  apply list_elem_of_fmap in Hlg' as (lg & -> & Hlg).
  destruct (Hall lg Hlg) as (src0 & tgt0 & Hs0 & Ht0 & _).
  destruct (findNode_ids (lg_src lg) _ Y (eq_sym Eids) (ex_intro _ src0 Hs0)) as [src Hs].
  destruct (findNode_ids (lg_tgt lg) _ Y (eq_sym Eids) (ex_intro _ tgt0 Ht0)) as [tgt Ht].
  assert (Hs' : scanNode (lg_src lg) Y = Some src) by (by rewrite scan_find).
  assert (Ht' : scanNode (lg_tgt lg) Y = Some tgt) by (by rewrite scan_find).
  destruct (updateLinkGroup_ends Y lg) as [E1 E2].
  exists src, tgt. rewrite E1, E2. split; [exact Hs |]. split; [exact Ht |]. split.
  - unfold updateLinkGroup. by rewrite Hs', Ht'.
  - intros fl Hfl.
    destruct (updateLinkGroup_anchor Y lg src tgt fl Hs' Ht' Hfl) as (A1 & A2 & A3 & A4 & _ & A6).
    by repeat split.
Qed.

Lemma render_follows (s : State) (v0 : View) :
  forall lg, lg ∈ linkLayer (view (renderGraph (mkApp s v0))) ->
             followsNodes (_allNodes (view (renderGraph (mkApp s v0)))) lg.
Proof.
  unfold renderGraph. cbn [st view].
  destruct (decide (steps s = [])).
  { intros lg Hlg. by apply not_elem_of_nil in Hlg. }
  destruct (calculateTreeLayout s) as [lay |].
  2: { intros lg Hlg. by apply not_elem_of_nil in Hlg. }
  cbn [view linkLayer _allNodes]. intros lg Hlg.
  apply list_elem_of_omap in Hlg as (lk & _ & Hr).
  unfold renderLink in Hr.
  destruct (findNode (lk_sourceId lk) (nodes lay)) as [src |] eqn:Es; [| discriminate].
  destruct (findNode (lk_targetId lk) (nodes lay)) as [tgt |] eqn:Et; [| discriminate].
  injection Hr as <-. cbn [lg_src lg_tgt lg_path lg_label].
  exists src, tgt. split; [exact Es |]. split; [exact Et |]. split; [reflexivity |].
  intros fl Hfl. unfold renderLabel in Hfl.
  destruct (_ && _); [| discriminate].
  destruct (lk_labelPos lk) as [t |]; [| discriminate].
  destruct (labelLines lk); [discriminate |].
  injection Hfl as <-. by repeat split.
Qed.

Lemma dragLabel_follows (k : nat) (x y : Q) (a : App) :
  (forall lg, lg ∈ linkLayer (view a) -> followsNodes (_allNodes (view a)) lg) ->
  forall lg, lg ∈ linkLayer (view (dragLabel k x y a)) ->
             followsNodes (_allNodes (view (dragLabel k x y a))) lg.
Proof.
  intros Hall lg' Hlg'. unfold dragLabel in *. cbn [view _allNodes linkLayer] in *.
  apply list_elem_of_lookup in Hlg' as (j & Hj).
  destruct (decide (j = k)) as [-> | Hne].
  - rewrite list_lookup_alter_eq in Hj.
    destruct (linkLayer (view a) !! k) as [lg |] eqn:Hk; [| discriminate].
    simpl in Hj. injection Hj as <-.
    destruct (Hall lg) as (src & tgt & Hs & Ht & Hp & Hl); [by eapply list_elem_of_lookup_2 |].
    exists src, tgt. cbn [lg_src lg_tgt lg_path lg_label].
    split; [exact Hs |]. split; [exact Ht |]. split; [exact Hp |].
    intros fl Hfl. destruct (lg_label lg) as [fl0 |]; [| discriminate].
    simpl in Hfl. injection Hfl as <-.
    destruct (Hl fl0 eq_refl) as (E1 & E2 & E3 & E4 & _).
    destruct (dragLabelEl_range x y fl0) as (_ & _ & Hanchor).
    cbv zeta in Hanchor.
    split; [exact E1 |]. split; [exact E2 |]. split; [exact E3 |]. split; [exact E4 |].
    intros _. exact Hanchor.
  - rewrite list_lookup_alter_ne in Hj by done.
    apply Hall. by eapply list_elem_of_lookup_2.
Qed.

(** X14. Links follow their nodes.  With unique identifiers of groups
    and steps, after rendering and any sequence of node drags and label
    drags every link group is drawn between the current positions of
    its two nodes, and a label stores these ends and, for a non-zero
    stored parameter, sits on the curve at that parameter. *)
Theorem links_follow_nodes (s : State) (v0 : View) (es : list GraphEvent) :
  NoDup (g_id <$> groups s) -> NoDup (s_id <$> steps s) ->
  forall lg, lg ∈ linkLayer (view (graphSteps es (renderGraph (mkApp s v0)))) ->
             followsNodes (_allNodes (view (graphSteps es (renderGraph (mkApp s v0))))) lg.
Proof.
  intros Hg Hs.
  assert (Hnd : linkLayer (view (renderGraph (mkApp s v0))) = [] \/
                NoDup (n_id <$> _allNodes (view (renderGraph (mkApp s v0))))).
  { destruct (calculateTreeLayout s) as [lay |] eqn:Hlay.
    - right. rewrite (renderGraph_nodes s v0 lay Hlay). by apply (layout_ids_NoDup s lay).
    - left. unfold renderGraph. cbn [st view]. destruct (decide (steps s = [])); [reflexivity |].
      by rewrite Hlay. }
  pose proof (render_follows s v0) as Hall.
  revert Hnd Hall. generalize (renderGraph (mkApp s v0)).
  induction es as [| e es IH]; intros a Hnd Hall; [exact Hall |].
  unfold graphSteps in *. simpl. apply IH.
  - destruct e as [i y | k x y]; simpl.
    + destruct Hnd as [Hnil | Hnd]; [left | right; by rewrite drag_ids].
      pose proof (drag_link_ends i y a) as El. rewrite Hnil in El. simpl in El.
      by apply fmap_nil_inv in El.
    + destruct Hnd as [Hnil | Hnd]; [left | by right].
      unfold dragLabel. cbn [view linkLayer]. rewrite Hnil. reflexivity.
  - destruct e as [i y | k x y]; simpl.
    + destruct Hnd as [Hnil | Hnd]; [| by apply drag_follows].
      pose proof (drag_link_ends i y a) as El. rewrite Hnil in El. simpl in El.
      apply fmap_nil_inv in El. rewrite El. intros lg Hlg. by apply not_elem_of_nil in Hlg.
    + by apply dragLabel_follows.
Qed.

Lemma links_follow_nodes_witness :
  NoDup (g_id <$> groups labelledPair) /\ NoDup (s_id <$> steps labelledPair) /\
  forall lg,
    lg ∈ linkLayer (view (graphSteps [NodeDrag 0 1000; LabelDrag 0 400 600; NodeDrag 1 40]
                                     (renderGraph (mkApp labelledPair emptyView)))) ->
    followsNodes (_allNodes (view (graphSteps [NodeDrag 0 1000; LabelDrag 0 400 600; NodeDrag 1 40]
                                              (renderGraph (mkApp labelledPair emptyView))))) lg.
Proof.
  assert (Hg : NoDup (g_id <$> groups labelledPair)).
  { apply (bool_decide_unpack (NoDup (g_id <$> groups labelledPair))). vm_compute. exact I. }
  assert (Hs : NoDup (s_id <$> steps labelledPair)).
  { apply (bool_decide_unpack (NoDup (s_id <$> steps labelledPair))). vm_compute. exact I. }
  split; [exact Hg |]. split; [exact Hs |].
  apply (links_follow_nodes labelledPair emptyView
           [NodeDrag 0 1000; LabelDrag 0 400 600; NodeDrag 1 40] Hg Hs).
Defined.

(** *** The position map *)

Lemma skel_dbId (x x' : Node) : skel x' = skel x -> n_dbId x' = n_dbId x.
Proof. intros H. change (n_dbId (skel x') = n_dbId (skel x)). by rewrite H. Qed.

Lemma fold_recordPosition (L : list Node) :
  (forall nd, nd ∈ L -> exists id, n_dbId nd = Some id) ->
  (forall x1 x2, x1 ∈ L -> x2 ∈ L -> n_dbId x1 = n_dbId x2 -> x1 = x2) ->
  (forall nd id, nd ∈ L -> n_dbId nd = Some id ->
                 fold_left recordPosition L ∅ !! id = Some (n_x nd, n_y nd)) /\
  (forall id p, fold_left recordPosition L ∅ !! id = Some p ->
                exists nd, nd ∈ L /\ n_dbId nd = Some id).
Proof.
  induction L as [| a l IH] using rev_ind; intros Hdb Huniq.
  - split; [intros nd id Hnd; by apply not_elem_of_nil in Hnd |].
    intros id p H. simpl in H. by rewrite lookup_empty in H.
  - destruct IH as [IHc IHd].
    { intros nd Hnd. apply Hdb, elem_of_app. by left. }
    { intros x1 x2 H1 H2. apply Huniq; apply elem_of_app; by left. }
    rewrite fold_left_app. simpl.
    destruct (Hdb a) as [ida Ea]; [apply elem_of_app; right; by left |].
    unfold recordPosition at 1 3. rewrite Ea. split.
    + intros nd id Hnd Eid. destruct (decide (id = ida)) as [-> | Hne].
      * rewrite lookup_insert_eq.
        assert (nd = a).
        { apply Huniq; [exact Hnd | apply elem_of_app; right; by left | congruence]. }
        by subst nd.
      * rewrite lookup_insert_ne by done.
        apply elem_of_app in Hnd as [Hnd | Hnd]; [by apply IHc |].
        apply list_elem_of_singleton in Hnd as ->. congruence.
    + intros id p Hp. destruct (decide (id = ida)) as [-> | Hne].
      * exists a. split; [apply elem_of_app; right; by left | exact Ea].
      * rewrite lookup_insert_ne in Hp by done.
        destruct (IHd id p Hp) as (nd & Hnd & E). exists nd. split; [| exact E].
        apply elem_of_app. by left.
Qed.

Lemma render_PosInv (s : State) (v0 : View) (lay : LayoutResult) :
  NoDup (g_id <$> groups s) -> NoDup (s_id <$> steps s) ->
  calculateTreeLayout s = Some lay ->
  exists pos,
    _eagleEyePositions (view (renderGraph (mkApp s v0))) = Some pos /\
    PosInv (_allNodes (view (renderGraph (mkApp s v0)))) pos.
Proof.
  intros Hg Hs Hlay.
  destruct (layout_ids_NoDup s lay Hg Hs Hlay) as [Hnd Hdb].
  pose proof (calculateTreeLayout_Some s lay Hlay) as (_ & Hsteps & _).
  rewrite (renderGraph_nodes s v0 lay Hlay).
  unfold renderGraph. cbn [st view]. destruct (decide (steps s = [])); [contradiction |].
  rewrite Hlay. cbn [view _eagleEyePositions]. eexists. split; [reflexivity |].
  assert (Huniq : forall k1 k2 x1 x2, nodes lay !! k1 = Some x1 -> nodes lay !! k2 = Some x2 ->
            n_kind x1 = KStep -> n_kind x2 = KStep -> n_dbId x1 = n_dbId x2 -> k1 = k2).
  { intros k1 k2 x1 x2 H1 H2 K1 K2 E.
    destruct (Hdb x1) as (id1 & I1 & D1); [by eapply list_elem_of_lookup_2 | exact K1 |].
    destruct (Hdb x2) as (id2 & I2 & D2); [by eapply list_elem_of_lookup_2 | exact K2 |].
    assert (Eid : n_id x1 = n_id x2) by congruence.
    apply (NoDup_lookup (n_id <$> nodes lay) k1 k2 (n_id x1) Hnd).
    - by rewrite list_lookup_fmap, H1.
    - by rewrite list_lookup_fmap, H2, Eid. }
  destruct (fold_recordPosition (filter (fun n => n_kind n = KStep) (nodes lay))) as [Fc Fd].
  { intros nd Hin. apply list_elem_of_filter in Hin as [Hk Hin].
    destruct (Hdb nd Hin Hk) as (id & _ & E). by exists id. }
  { intros x1 x2 H1 H2 E.
    apply list_elem_of_filter in H1 as [K1 H1]. apply list_elem_of_filter in H2 as [K2 H2].
    apply list_elem_of_lookup in H1 as (k1 & H1). apply list_elem_of_lookup in H2 as (k2 & H2).
    assert (k1 = k2) by (by eapply Huniq). subst k2. congruence. }
  unfold PosInv. split_and!.
  - intros k nd Hk Hkind. destruct (Hdb nd) as (id & _ & E); [by eapply list_elem_of_lookup_2 | done |].
    by exists id.
  - exact Huniq.
  - intros k nd id Hk Hkind E _. apply Fc; [| exact E].
    apply list_elem_of_filter. split; [exact Hkind | by eapply list_elem_of_lookup_2].
  - intros id p Hp. destruct (Fd id p Hp) as (nd & Hin & E).
    apply list_elem_of_filter in Hin as [Hkind Hin].
    apply list_elem_of_lookup in Hin as (k & Hk). by exists k, nd.
Qed.

Lemma drag_PosInv (i : nat) (y : Q) (a : App) (pos : gmap Z (Q * Q)) :
  _eagleEyePositions (view a) = Some pos ->
  PosInv (_allNodes (view a)) pos ->
  exists pos',
    _eagleEyePositions (view (drag i y a)) = Some pos' /\
    PosInv (_allNodes (view (drag i y a))) pos'.
Proof.
  intros Hpos Hinv.
  destruct (_allNodes (view a) !! i) as [d0 |] eqn:Hi.
  2: { rewrite drag_noop; [by exists pos | intros d0 E; congruence]. }
  destruct (decide (n_kind d0 = KStep)) as [Hk | Hk].
  2: { rewrite drag_noop; [by exists pos | intros d1 E; congruence]. }
  pose proof (skel_drag i y a) as Hsk.
  destruct (drag_leaves_the_rest_aux i y a d0 Hi Hk) as [Hd Hrest].
  revert Hsk Hd Hrest. rewrite (drag_step i y a d0 Hi Hk).
  cbn [view _allNodes _eagleEyePositions]. set (Y := recenterRoot _).
  intros Hsk Hd Hrest. rewrite Hpos. cbn [fmap option_fmap option_map].
  eexists. split; [reflexivity |].
  destruct Hinv as (A & B & C & D).
  assert (Hback : forall k nd, Y !! k = Some nd -> n_kind nd = KStep -> k <> i ->
                               _allNodes (view a) !! k = Some nd).
  { intros k nd HY Hkind Hne.
    destruct (skel_lookup (_allNodes (view a)) Y k nd (eq_sym Hsk) HY) as (nd0 & H0 & E).
    assert (K0 : n_kind nd0 = KStep) by (by rewrite (skel_kind _ _ E)).
    assert (HY' : Y !! k = Some nd0) by (apply Hrest; [exact H0 | exact Hne | by left]).
    congruence. }
  destruct (A i d0 Hi Hk) as [idd Edd].
  assert (Ed : n_dbId (set_y y d0) = Some idd) by exact Edd.
  unfold PosInv. split_and!.
  - intros k nd HY Hkind.
    destruct (skel_lookup (_allNodes (view a)) Y k nd (eq_sym Hsk) HY) as (nd0 & H0 & E).
    destruct (A k nd0 H0) as [id E0]; [by rewrite (skel_kind _ _ E) |].
    exists id. by rewrite <- (skel_dbId _ _ E).
  - intros k1 k2 x1 x2 H1 H2 K1 K2 E.
    destruct (skel_lookup (_allNodes (view a)) Y k1 x1 (eq_sym Hsk) H1) as (y1 & G1 & E1).
    destruct (skel_lookup (_allNodes (view a)) Y k2 x2 (eq_sym Hsk) H2) as (y2 & G2 & E2).
    apply (B k1 k2 y1 y2 G1 G2).
    + by rewrite (skel_kind _ _ E1).
    + by rewrite (skel_kind _ _ E2).
    + by rewrite (skel_dbId _ _ E1), (skel_dbId _ _ E2).
  - intros k nd id HY Hkind Eid Hnz. unfold pinPosition. rewrite Ed.
    destruct (decide (k = i)) as [-> | Hne].
    + rewrite Hd in HY. injection HY as <-. rewrite Ed in Eid. injection Eid as <-.
      destruct (decide (idd = 0%Z)); [contradiction |]. by rewrite lookup_insert_eq.
    + pose proof (Hback k nd HY Hkind Hne) as H0.
      assert (Hidne : id <> idd).
      { intros ->. apply Hne. apply (B k i nd d0 H0 Hi Hkind Hk). congruence. }
      destruct (decide (idd = 0%Z)); [by eapply C |].
      rewrite lookup_insert_ne by done. by eapply C.
  - intros id p Hp. unfold pinPosition in Hp. rewrite Ed in Hp.
    assert (Hcase : id = idd \/ pos !! id = Some p).
    { destruct (decide (idd = 0%Z)); [by right |].
      destruct (decide (id = idd)) as [-> |]; [by left |].
      right. by rewrite lookup_insert_ne in Hp. }
    destruct Hcase as [-> | Hp0].
    + exists i, (set_y y d0). by split_and!.
    + destruct (D id p Hp0) as (k & nd & H0 & Hkind & Eid).
      destruct (decide (k = i)) as [-> | Hne].
      * exists i, (set_y y d0). split; [exact Hd |]. split; [exact Hk |]. congruence.
      * exists k, nd. split; [| by split]. apply Hrest; [exact H0 | exact Hne | by left].
Qed.

Lemma drags_PosInv (s : State) (v0 : View) (lay : LayoutResult) (ds : list (nat * Q)) :
  NoDup (g_id <$> groups s) -> NoDup (s_id <$> steps s) ->
  calculateTreeLayout s = Some lay ->
  exists pos,
    _eagleEyePositions (view (drags ds (renderGraph (mkApp s v0)))) = Some pos /\
    PosInv (_allNodes (view (drags ds (renderGraph (mkApp s v0))))) pos.
Proof.
  intros Hg Hs Hlay.
  pose proof (render_PosInv s v0 lay Hg Hs Hlay) as H0.
  revert H0. generalize (renderGraph (mkApp s v0)).
  induction ds as [| [i y] ds IH]; intros a (pos & Hpos & Hinv); [by exists pos |].
  unfold drags in *. simpl. apply IH. by apply (drag_PosInv i y a pos).
Qed.

(** X15. The position map mirrors the step nodes.  With unique
    identifiers of groups and steps, after rendering a layout and any
    sequence of drags the position map exists, holds for every step node
    with a non-zero identifier its current coordinates, and has no other
    non-zero key. *)
Theorem positions_mirror_nodes (s : State) (v0 : View) (lay : LayoutResult)
    (ds : list (nat * Q)) :
  NoDup (g_id <$> groups s) -> NoDup (s_id <$> steps s) ->
  calculateTreeLayout s = Some lay ->
  exists pos,
    _eagleEyePositions (view (drags ds (renderGraph (mkApp s v0)))) = Some pos /\
    mirrorsNodes (_allNodes (view (drags ds (renderGraph (mkApp s v0))))) pos.
Proof.
  intros Hg Hs Hlay.
  destruct (drags_PosInv s v0 lay ds Hg Hs Hlay) as (pos & Hpos & (A & B & C & D)).
  exists pos. split; [exact Hpos |].
  intros id Hnz p. split.
  - intros Hp. destruct (D id p Hp) as (k & nd & Hk & Hkind & Eid).
    exists nd. split; [by eapply list_elem_of_lookup_2 |]. split; [exact Hkind |].
    split; [exact Eid |]. pose proof (C k nd id Hk Hkind Eid Hnz). congruence.
  - intros (nd & Hin & Hkind & Eid & ->).
    apply list_elem_of_lookup in Hin as (k & Hk). by eapply C.
Qed.

Lemma positions_mirror_nodes_witness :
  exists lay,
    NoDup (g_id <$> groups threeBands) /\ NoDup (s_id <$> steps threeBands) /\
    calculateTreeLayout threeBands = Some lay /\
    exists pos,
      _eagleEyePositions (view (drags [(2%nat, 1000); (0%nat, 40)]
                                      (renderGraph (mkApp threeBands emptyView)))) = Some pos /\
      mirrorsNodes (_allNodes (view (drags [(2%nat, 1000); (0%nat, 40)]
                                           (renderGraph (mkApp threeBands emptyView))))) pos.
Proof.
  assert (Hg : NoDup (g_id <$> groups threeBands)).
  { apply (bool_decide_unpack (NoDup (g_id <$> groups threeBands))). vm_compute. exact I. }
  assert (Hs : NoDup (s_id <$> steps threeBands)).
  { apply (bool_decide_unpack (NoDup (s_id <$> steps threeBands))). vm_compute. exact I. }
  eexists. split; [exact Hg |]. split; [exact Hs |]. split; [vm_compute; reflexivity |].
  eapply (positions_mirror_nodes threeBands emptyView _ [(2%nat, 1000); (0%nat, 40)] Hg Hs).
  vm_compute; reflexivity.
Defined.

(** ** The generated links as one chain *)

Lemma chainPairs_cons2 (a b : Step) (r : list Step) :
  chainPairs (a :: b :: r) = (s_id a, s_id b) :: chainPairs (b :: r).
Proof. reflexivity. Qed.

Lemma chainPairs_app (A B : list Step) :
  chainPairs (A ++ B)
  = chainPairs A
    ++ match last A, head B with
       | Some a, Some b => [(s_id a, s_id b)]
       | _, _ => []
       end
    ++ chainPairs B.
Proof.
  induction A as [| a A IH]; [reflexivity |].
  destruct A as [| a' A'].
  - destruct B as [| b B']; reflexivity.
  - change ((a :: a' :: A') ++ B) with (a :: a' :: (A' ++ B)).
    rewrite !chainPairs_cons2.
    change (a' :: A' ++ B) with ((a' :: A') ++ B). rewrite IH.
    change (last (a :: a' :: A')) with (last (a' :: A')). reflexivity.
Qed.

Lemma chainPairs_length (l : list Step) : length (chainPairs l) = pred (length l).
Proof.
  unfold chainPairs. rewrite length_zip_with, !length_fmap.
  destruct l as [| a r]; [reflexivity |]. cbn [tail length]. lia.
Qed.

Lemma wantedPairs_chain (stepsOf : Group -> list Step) (gs : list Group) :
  (forall g, g ∈ gs -> stepsOf g <> []) ->
  wantedPairs stepsOf gs = chainPairs (gs ≫= stepsOf).
Proof.
  induction gs as [| g rest IH]; intros Hne; [reflexivity |].
  cbn [wantedPairs]. rewrite bind_cons, chainPairs_app, IH by (intros g' Hg'; apply Hne; by right).
  f_equal. f_equal. unfold bridgeEdge.
  destruct rest as [| next rest'].
  - by destruct (last (stepsOf g)).
  - rewrite bind_cons.
    assert (Hn : stepsOf next <> []) by (apply Hne; right; by left).
    destruct (stepsOf next) as [| b r]; [done |]. reflexivity.
Qed.

(** X17. One chain through all steps.  With unique identifiers and no
    group without steps, let the groups be listed in sort-key order and
    the steps of each group in sort-key order; the generated links are
    the consecutive pairs of the steps listed group after group: one
    chain, with one link less than there are steps in the groups. *)
Theorem autoGenerateLinks_single_chain (assemblyId : Z) (groups : list Group)
    (steps : list Step) (gs : list Group) (stepsOf : Group -> list Step) :
  NoDup (s_id <$> steps) -> NoDup (g_id <$> groups) ->
  inKeyOrder groupKey groups gs ->
  (forall g, g ∈ gs -> inKeyOrder stepKey (memberSteps steps g) (stepsOf g)) ->
  (forall g, g ∈ groups -> exists st, st ∈ steps /\ s_group_id st = g_id g) ->
  pairOf <$> autoGenerateLinks assemblyId groups steps (@nil StepLink)
  = chainPairs (gs ≫= stepsOf) /\
  length (autoGenerateLinks assemblyId groups steps (@nil StepLink))
  = pred (length (gs ≫= stepsOf)).
Proof.
  intros Hs Hg Hgs Hst Hne.
  assert (E : pairOf <$> autoGenerateLinks assemblyId groups steps (@nil StepLink)
              = chainPairs (gs ≫= stepsOf)).
  { rewrite (autoGenerateLinks_unique_ids assemblyId groups steps Hs Hg).
    rewrite <- (wanted_is_met steps groups gs stepsOf Hgs Hst).
    apply wantedPairs_chain. intros g Hin Hnil.
    pose proof (inKeyOrder_unique _ _ _ (Hst g Hin)) as Eg. rewrite Hnil in Eg.
    symmetry in Eg. apply jsSort_nil in Eg.
    rewrite (inKeyOrder_unique _ _ _ Hgs) in Hin. apply elem_of_jsSort in Hin.
    destruct (Hne g Hin) as (st & Hst' & Hgid).
    assert (Hm : st ∈ memberSteps steps g) by (by apply list_elem_of_filter).
    rewrite Eg in Hm. by apply not_elem_of_nil in Hm. }
  split; [exact E |].
  rewrite <- chainPairs_length, <- E. by rewrite length_fmap.
Qed.

Lemma autoGenerateLinks_single_chain_witness :
  NoDup (s_id <$> scatteredSteps) /\ NoDup (g_id <$> chainGroups) /\
  inKeyOrder groupKey chainGroups chainOrder /\
  (forall g, g ∈ chainOrder -> inKeyOrder stepKey (memberSteps scatteredSteps g) (orderedSteps g)) /\
  (forall g, g ∈ chainGroups -> exists st, st ∈ scatteredSteps /\ s_group_id st = g_id g) /\
  chainPairs (chainOrder ≫= orderedSteps) = [(10, 11); (11, 12); (12, 30); (30, 40); (40, 41)]%Z /\
  pairOf <$> autoGenerateLinks 7 chainGroups scatteredSteps (@nil StepLink)
  = chainPairs (chainOrder ≫= orderedSteps) /\
  length (autoGenerateLinks 7 chainGroups scatteredSteps (@nil StepLink))
  = pred (length (chainOrder ≫= orderedSteps)).
Proof.
  assert (Hs : NoDup (s_id <$> scatteredSteps)).
  { apply (bool_decide_unpack (NoDup (s_id <$> scatteredSteps))). vm_compute. exact I. }
  assert (Hg : NoDup (g_id <$> chainGroups)).
  { apply (bool_decide_unpack (NoDup (g_id <$> chainGroups))). vm_compute. exact I. }
  assert (Hgs : inKeyOrder groupKey chainGroups chainOrder).
  { replace chainOrder with (jsSort groupKey chainGroups) by (by vm_compute).
    apply inKeyOrder_jsSort. }
  assert (Hst : forall g, g ∈ chainOrder ->
                  inKeyOrder stepKey (memberSteps scatteredSteps g) (orderedSteps g)).
  { intros g Hin. unfold chainOrder in Hin.
    repeat (apply elem_of_cons in Hin as [-> | Hin]); [| | | by apply not_elem_of_nil in Hin].
    all: match goal with
         | |- inKeyOrder _ ?l ?l' =>
             replace l' with (jsSort stepKey l) by (by vm_compute); apply inKeyOrder_jsSort
         end. }
  assert (Hne : forall g, g ∈ chainGroups ->
                  exists st, st ∈ scatteredSteps /\ s_group_id st = g_id g).
  { intros g Hin. unfold chainGroups in Hin.
    repeat (apply elem_of_cons in Hin as [-> | Hin]); [| | | by apply not_elem_of_nil in Hin].
    - exists (mkStep 30 3 "c1" (Some 1%Z) None None None None). split; [| reflexivity].
      apply list_elem_of_In. vm_compute. tauto.
    - exists (mkStep 10 1 "a1" (Some 1%Z) None None None None). split; [| reflexivity].
      apply list_elem_of_In. vm_compute. tauto.
    - exists (mkStep 40 4 "d1" (Some 1%Z) None None None None). split; [| reflexivity].
      apply list_elem_of_In. vm_compute. tauto. }
  split; [exact Hs |]. split; [exact Hg |]. split; [exact Hgs |]. split; [exact Hst |].
  split; [exact Hne |]. split; [by vm_compute |].
  exact (autoGenerateLinks_single_chain 7 chainGroups scatteredSteps chainOrder orderedSteps
           Hs Hg Hgs Hst Hne).
Defined.


(** ** The part layer follows the nodes *)

Lemma alter_middle {A} (f : A -> A) (i : nat) (l : list A) (x : A) :
  l !! i = Some x -> alter f i l = take i l ++ f x :: drop (S i) l.
Proof.
  revert i. induction l as [| a l IH]; intros [| i] H; try done.
  - simpl in H. injection H as ->. reflexivity.
  - simpl in *. f_equal. by apply IH.
Qed.

Lemma filter_step_recenter (gid : option Z) (ns : list Node) :
  filter (fun n => n_kind n = KStep) (recenterRoot (recenterGroup gid ns))
  = filter (fun n => n_kind n = KStep) ns.
Proof.
  rewrite recenterRoot_with, recenterGroup_with.
  rewrite (recenterWith_filter isRoot isGroup).
  - apply (recenterWith_filter (isGroupOf gid) (isStepOf gid)).
    + intros n v. reflexivity.
    + intros x [Hx _]. congruence.
  - intros n v. reflexivity.
  - unfold isRoot. congruence.
Qed.

Lemma renderParts_stepid (s : State) (nd : Node) (el : PartLink * PartHex) :
  el ∈ renderParts s nd ->
  pl_stepid (fst el) = n_dbId nd /\ ph_stepid (snd el) = n_dbId nd.
Proof.
  intros Hin. apply list_elem_of_lookup in Hin as [k Hk].
  unfold renderParts in Hk. rewrite list_lookup_imap in Hk.
  destruct (sortedParts s (n_dbId nd) !! k); [| discriminate].
  injection Hk as <-. by split.
Qed.

Lemma moveLinks_other (d : Node) (T : Q) (c : nat) (els rest : list PartLink) :
  Forall (fun el => pl_stepid el <> n_dbId d) els ->
  moveLinks d T c (els ++ rest) = els ++ moveLinks d T c rest.
Proof.
  induction 1 as [| el els Hel _ IH]; [reflexivity |].
  cbn [app moveLinks]. rewrite decide_False by exact Hel. by rewrite IH.
Qed.

Lemma moveLinks_others (d : Node) (T : Q) (c : nat) (els : list PartLink) :
  Forall (fun el => pl_stepid el <> n_dbId d) els -> moveLinks d T c els = els.
Proof.
  intros H. rewrite <- (app_nil_r els) at 1. rewrite moveLinks_other by exact H.
  cbn [moveLinks]. apply app_nil_r.
Qed.

Lemma moveLinks_own (d : Node) (T : Q) (c : nat) (els rest : list PartLink) :
  Forall (fun el => pl_stepid el = n_dbId d) els ->
  moveLinks d T c (els ++ rest)
  = imap (fun k el =>
            mkPartLink (pl_stepid el)
                       (partPath d (partX d) (n_y d - T / 2 + of_nat (c + k) * partSpacing)))
         els
    ++ moveLinks d T (c + length els) rest.
Proof.
  intros H. revert c. induction H as [| el els Hel _ IH]; intros c.
  - cbn [app imap length]. by rewrite Nat.add_0_r.
  - cbn [app moveLinks imap length]. rewrite decide_True by exact Hel.
    cbv zeta. rewrite Nat.add_0_r. f_equal.
    rewrite IH. f_equal.
    + apply imap_ext. intros k x _. unfold compose. by rewrite Nat.add_succ_r.
    + by rewrite Nat.add_succ_r.
Qed.

(** The part elements before and after a drag, cut at the dragged
    node. *)
Lemma freshParts_split (s : State) (ns : list Node) (i : nat) (d0 : Node) (y : Q) :
  ns !! i = Some d0 -> n_kind d0 = KStep ->
  freshParts s ns
  = (filter (fun n => n_kind n = KStep) (take i ns) ≫= renderParts s)
    ++ renderParts s d0
    ++ (filter (fun n => n_kind n = KStep) (drop (S i) ns) ≫= renderParts s) /\
  freshParts s (recenterRoot (recenterGroup (n_groupId d0) (alter (set_y y) i ns)))
  = (filter (fun n => n_kind n = KStep) (take i ns) ≫= renderParts s)
    ++ renderParts s (set_y y d0)
    ++ (filter (fun n => n_kind n = KStep) (drop (S i) ns) ≫= renderParts s).
Proof.
  intros Hi Hk. unfold freshParts. split.
  - rewrite <- (take_drop_middle ns i d0 Hi) at 1.
    rewrite filter_app, filter_cons_True by exact Hk.
    by rewrite bind_app, bind_cons.
  - rewrite filter_step_recenter, (alter_middle _ _ _ d0 Hi).
    rewrite filter_app, filter_cons_True by exact Hk.
    by rewrite bind_app, bind_cons.
Qed.

(** Part elements of the step nodes of a segment that does not hold the
    dragged node belong to other steps. *)
Lemma parts_of_others (s : State) (ns seg : list Node) (i o : nat) (d0 : Node) :
  (forall k1 k2 x1 x2, ns !! k1 = Some x1 -> ns !! k2 = Some x2 ->
     n_kind x1 = KStep -> n_kind x2 = KStep -> n_dbId x1 = n_dbId x2 -> k1 = k2) ->
  ns !! i = Some d0 -> n_kind d0 = KStep ->
  (forall k x, seg !! k = Some x -> ns !! (o + k)%nat = Some x /\ (o + k)%nat <> i) ->
  Forall (fun el => pl_stepid (fst el) <> n_dbId d0 /\ ph_stepid (snd el) <> n_dbId d0)
         (filter (fun n => n_kind n = KStep) seg ≫= renderParts s).
Proof.
  intros Hu Hi Hk Hseg. apply Forall_forall. intros el Hin.
  apply list_elem_of_bind in Hin as (nd & Hel & Hnd).
  apply list_elem_of_filter in Hnd as [Hkind Hnd].
  apply list_elem_of_lookup in Hnd as [k Hnk].
  destruct (Hseg k nd Hnk) as [Hns Hne].
  destruct (renderParts_stepid s nd el Hel) as [-> ->].
  split; intros E; apply Hne; by apply (Hu _ _ nd d0 Hns Hi).
Qed.

Lemma parts_before (s : State) (ns : list Node) (i : nat) (d0 : Node) :
  (forall k1 k2 x1 x2, ns !! k1 = Some x1 -> ns !! k2 = Some x2 ->
     n_kind x1 = KStep -> n_kind x2 = KStep -> n_dbId x1 = n_dbId x2 -> k1 = k2) ->
  ns !! i = Some d0 -> n_kind d0 = KStep ->
  Forall (fun el => pl_stepid (fst el) <> n_dbId d0 /\ ph_stepid (snd el) <> n_dbId d0)
         (filter (fun n => n_kind n = KStep) (take i ns) ≫= renderParts s).
Proof.
  intros Hu Hi Hk. apply (parts_of_others s ns (take i ns) i 0 d0 Hu Hi Hk).
  intros k x Hx. apply lookup_take_Some in Hx as [Hx Hlt]. simpl. split; [exact Hx | lia].
Qed.

Lemma parts_after (s : State) (ns : list Node) (i : nat) (d0 : Node) :
  (forall k1 k2 x1 x2, ns !! k1 = Some x1 -> ns !! k2 = Some x2 ->
     n_kind x1 = KStep -> n_kind x2 = KStep -> n_dbId x1 = n_dbId x2 -> k1 = k2) ->
  ns !! i = Some d0 -> n_kind d0 = KStep ->
  Forall (fun el => pl_stepid (fst el) <> n_dbId d0 /\ ph_stepid (snd el) <> n_dbId d0)
         (filter (fun n => n_kind n = KStep) (drop (S i) ns) ≫= renderParts s).
Proof.
  intros Hu Hi Hk. apply (parts_of_others s ns (drop (S i) ns) i (S i) d0 Hu Hi Hk).
  intros k x Hx. rewrite lookup_drop in Hx. split; [exact Hx | lia].
Qed.

(** The connectors the drag handler rewrites are those of a fresh
    rendering of the moved nodes. *)
Lemma drag_links_fresh (s : State) (ns : list Node) (i : nat) (d0 : Node) (y : Q) :
  (forall k1 k2 x1 x2, ns !! k1 = Some x1 -> ns !! k2 = Some x2 ->
     n_kind x1 = KStep -> n_kind x2 = KStep -> n_dbId x1 = n_dbId x2 -> k1 = k2) ->
  ns !! i = Some d0 -> n_kind d0 = KStep ->
  moveLinks (set_y y d0) (totalHeight (sortedParts s (n_dbId d0))) 0
            (fst <$> freshParts s ns)
  = fst <$> freshParts s (recenterRoot (recenterGroup (n_groupId d0) (alter (set_y y) i ns))).
Proof.
  intros Hu Hi Hk.
  destruct (freshParts_split s ns i d0 y Hi Hk) as [-> ->].
  pose proof (parts_before s ns i d0 Hu Hi Hk) as Hb.
  pose proof (parts_after s ns i d0 Hu Hi Hk) as Ha.
  rewrite !fmap_app.
  rewrite moveLinks_other.
  2: { apply Forall_fmap. eapply Forall_impl; [exact Hb |]. by intros el [? _]. }
  f_equal.
  rewrite moveLinks_own.
  2: { apply Forall_fmap, Forall_forall. intros el Hel.
       by destruct (renderParts_stepid s d0 el Hel). }
  f_equal.
  - apply list_eq. intros k.
    rewrite list_lookup_imap, !list_lookup_fmap. unfold renderParts.
    rewrite !list_lookup_imap. cbn [n_dbId set_y].
    by destruct (sortedParts s (n_dbId d0) !! k).
  - apply moveLinks_others.
    apply Forall_fmap. eapply Forall_impl; [exact Ha |]. by intros el [? _].
Qed.

(** X19. The part connectors follow the nodes.  With unique identifiers
    of groups and steps, after rendering a layout and any sequence of
    drags the part connectors are exactly those a fresh rendering draws
    for the current node table, in the same order; while part nodes are
    hidden there is none. *)
Theorem part_links_follow_nodes (s : State) (v0 : View) (lay : LayoutResult)
    (ds : list (nat * Q)) :
  NoDup (g_id <$> groups s) -> NoDup (s_id <$> steps s) ->
  calculateTreeLayout s = Some lay ->
  let v := view (drags ds (renderGraph (mkApp s v0))) in
  partLinks v = fst <$> (if showPartNodes s then freshParts s (_allNodes v) else []).
Proof.
  intros Hg Hs Hlay. cbv zeta.
  pose proof (render_PosInv s v0 lay Hg Hs Hlay) as H0.
  assert (Hst : exists b, st (renderGraph (mkApp s v0)) = setLayoutDirty b s).
  { exists (layoutDirty s). unfold renderGraph. cbn [st view].
    destruct (decide (steps s = [])); [by destruct s |].
    rewrite Hlay. by destruct s. }
  assert (Hp : partLinks (view (renderGraph (mkApp s v0)))
               = fst <$> (if showPartNodes s
                          then freshParts s (_allNodes (view (renderGraph (mkApp s v0))))
                          else [])).
  { pose proof (calculateTreeLayout_Some s lay Hlay) as (_ & Hsteps & _).
    unfold renderGraph. cbn [st view]. destruct (decide (steps s = [])); [contradiction |].
    rewrite Hlay. cbn [view partLinks _allNodes]. reflexivity. }
  revert H0 Hst Hp. generalize (renderGraph (mkApp s v0)).
  induction ds as [| [i y] ds IH]; intros a Hinv Hst Hp; [exact Hp |].
  unfold drags in *. simpl. apply IH; clear IH.
  - destruct Hinv as (pos & Hpos & Hinv). by apply (drag_PosInv i y a pos).
  - destruct Hst as [b Hb]. destruct (drag_state i y a) as [b' Hb'].
    exists b'. rewrite Hb', Hb. reflexivity.
  - destruct (_allNodes (view a) !! i) as [d0 |] eqn:Hi.
    2: { rewrite drag_noop; [exact Hp | intros d0 E; congruence]. }
    destruct (decide (n_kind d0 = KStep)) as [Hk | Hk].
    2: { rewrite drag_noop; [exact Hp | intros d1 E; congruence]. }
    destruct Hinv as (pos & _ & (_ & Hu & _)).
    destruct Hst as [b Hb].
    rewrite (drag_step i y a d0 Hi Hk). cbn [view partLinks _allNodes].
    rewrite Hb. cbn [showPartNodes setLayoutDirty].
    destruct (showPartNodes s) eqn:Hshow; [| exact Hp].
    rewrite Hp. apply (drag_links_fresh s _ i d0 y Hu Hi Hk).
Qed.

Lemma part_links_follow_nodes_witness :
  exists lay,
    NoDup (g_id <$> groups labelledPair) /\ NoDup (s_id <$> steps labelledPair) /\
    calculateTreeLayout labelledPair = Some lay /\
    let v := view (drags [(0%nat, 500); (1%nat, -20)]
                         (renderGraph (mkApp labelledPair emptyView))) in
    partLinks v
    = fst <$> (if showPartNodes labelledPair
               then freshParts labelledPair (_allNodes v) else []).
Proof.
  assert (Hg : NoDup (g_id <$> groups labelledPair)).
  { apply (bool_decide_unpack (NoDup (g_id <$> groups labelledPair))). vm_compute. exact I. }
  assert (Hs : NoDup (s_id <$> steps labelledPair)).
  { apply (bool_decide_unpack (NoDup (s_id <$> steps labelledPair))). vm_compute. exact I. }
  eexists. split; [exact Hg |]. split; [exact Hs |]. split; [vm_compute; reflexivity |].
  eapply (part_links_follow_nodes labelledPair emptyView _ [(0%nat, 500); (1%nat, -20)] Hg Hs).
  vm_compute; reflexivity.
Defined.
